(** * Verification of [rastervision.pytorch_learner.utils.utils]

    A shallow embedding of the helper functions of [utils.py]
    (confusion-matrix accumulation, precision/recall/F1 metrics,
    validation of a serialized augmentation, the [SplitTensor],
    [Parallel] and [AddTensors] wrappers, and the [MinMaxNormalize]
    transform), with the properties stated of them.

    Conventions of the embedding:
    - a tensor is a shape together with a cell function; PyTorch's
      broadcasting rules are written out;
    - floating-point numbers are exact rationals extended with the IEEE
      special values; rounding and the sign of zero are not modelled, so
      that a sum of counts is the count itself (in float32 that holds
      up to [2 ^ 24], a bound the statements on counts carry) and a
      quotient is the fraction itself;
    - a Python exception is a [Raise] result;
    - the objects a function allocates or mutates live in a store;
    - the functions of other libraries that the code calls are either
      written out as their documentation has them ([Tensor.split],
      [np.clip], [np.stack]) or left as a variable ([A.from_dict],
      [cv2.normalize]). *)

From Stdlib Require Import ZArith QArith Qcanon Lia Lqa.
From stdpp Require Import base option list gmap strings.

Local Open Scope Z_scope.
Local Open Scope nat_scope.

(** ** Exceptions *)

Inductive exn :=
| RuntimeError
| IndexError
| TypeError
| ValueError
| AssertionError
| ConfigError (msg : string)
| OtherException (name : string)
| BaseExceptionOnly (name : string).

(** [isinstance(e, Exception)]: everything but the exceptions that derive
    from [BaseException] alone ([KeyboardInterrupt], [SystemExit], ...). *)
Definition is_Exception (e : exn) : bool :=
  match e with
  | BaseExceptionOnly _ => false
  | _ => true
  end.

Inductive result (A : Type) :=
| Ok (a : A)
| Raise (e : exn).
Arguments Ok {A} a.
Arguments Raise {A} e.

#[global] Instance result_ret : MRet result := λ A a, Ok a.
#[global] Instance result_bind : MBind result := λ A B f m,
  match m with
  | Ok a => f a
  | Raise e => Raise e
  end.

(** ** Floating-point values *)

Inductive fval :=
| Fin (q : Qc)
| PInf
| NInf
| NaN.

#[global] Instance fval_inhabited : Inhabited fval := populate (Fin 0%Qc).

Definition Qc_sign (q : Qc) : comparison := (q ?= 0)%Qc.

Definition inf_of (c : comparison) : fval :=
  match c with
  | Lt => NInf
  | _ => PInf
  end.

Definition flip (c : comparison) : comparison := CompOpp c.

Definition fadd (a b : fval) : fval :=
  match a, b with
  | NaN, _ | _, NaN => NaN
  | Fin x, Fin y => Fin (x + y)%Qc
  | PInf, NInf | NInf, PInf => NaN
  | PInf, _ | _, PInf => PInf
  | NInf, _ | _, NInf => NInf
  end.

Definition fmul_inf (c : comparison) (y : Qc) : fval :=
  match Qc_sign y with
  | Eq => NaN
  | Gt => inf_of c
  | Lt => inf_of (flip c)
  end.

Definition fmul (a b : fval) : fval :=
  match a, b with
  | NaN, _ | _, NaN => NaN
  | Fin x, Fin y => Fin (x * y)%Qc
  | PInf, Fin y | Fin y, PInf => fmul_inf Gt y
  | NInf, Fin y | Fin y, NInf => fmul_inf Lt y
  | PInf, PInf | NInf, NInf => PInf
  | PInf, NInf | NInf, PInf => NInf
  end.

Definition fdiv (a b : fval) : fval :=
  match a, b with
  | NaN, _ | _, NaN => NaN
  | Fin x, Fin y =>
      match Qc_sign y with
      | Eq => match Qc_sign x with
              | Eq => NaN
              | c => inf_of c
              end
      | _ => Fin (x / y)%Qc
      end
  | Fin _, (PInf | NInf) => Fin 0%Qc
  | PInf, Fin y => match Qc_sign y with Lt => NInf | _ => PInf end
  | NInf, Fin y => match Qc_sign y with Lt => PInf | _ => NInf end
  | (PInf | NInf), (PInf | NInf) => NaN
  end.

(** [torch.max(a, b)] on two tensors is the elementwise maximum, which
    propagates NaN. *)
Definition fmax (a b : fval) : fval :=
  match a, b with
  | NaN, _ | _, NaN => NaN
  | PInf, _ | _, PInf => PInf
  | NInf, v | v, NInf => v
  | Fin x, Fin y => match (x ?= y)%Qc with Lt => Fin y | _ => Fin x end
  end.

Definition fsum (l : list fval) : fval := foldl fadd (Fin 0%Qc) l.

Definition of_Z (z : Z) : fval := Fin (Q2Qc (inject_Z z)).
Definition of_nat (n : nat) : fval := of_Z (Z.of_nat n).
Definition of_bool (b : bool) : fval := if b then of_Z 1 else of_Z 0.

(** ** Tensors *)

Record tensor (A : Type) := Tensor {
  shape : list nat;
  cell : list nat → A
}.
Arguments Tensor {A} shape cell.
Arguments shape {A} t.
Arguments cell {A} t idx.

Module Torch.

(** A one-dimensional tensor holding the elements of a list. *)
Definition of_list {A} `{Inhabited A} (l : list A) : tensor A :=
  Tensor [length l] (λ idx, l !!! hd 0 idx).

(** A two-dimensional tensor holding a list of rows of equal length. *)
Definition of_rows {A} `{Inhabited A} (rows : list (list A)) : tensor A :=
  Tensor [length rows; length (hd [] rows)]
         (λ idx, (rows !!! hd 0 idx) !!! hd 0 (tl idx)).

(** [torch.tensor(v)] for a Python number: a zero-dimensional tensor. *)
Definition scalar {A} (v : A) : tensor A := Tensor [] (λ _, v).

(** [torch.arange(0, n)]. *)
Definition arange (n : Z) : result (tensor Z) :=
  if (n <? 0)%Z then Raise RuntimeError
  else Ok (Tensor [Z.to_nat n] (λ idx, Z.of_nat (hd 0 idx))).

(** [t.unsqueeze(d)]; [t[:, None]] is [unsqueeze 1 t] and
    [t[:, None, None]] is [unsqueeze 2 (unsqueeze 1 t)]. *)
Definition unsqueeze {A} (d : nat) (t : tensor A) : tensor A :=
  Tensor (take d (shape t) ++ 1 :: drop d (shape t))
         (λ idx, cell t (take d idx ++ drop (S d) idx)).

(** *** Broadcasting

    Shapes are aligned at their last dimension; two sizes are compatible
    when they are equal or one of them is 1. *)
Definition bdim (a b : nat) : option nat :=
  if a =? b then Some a
  else if a =? 1 then Some b
  else if b =? 1 then Some a
  else None.

Fixpoint bshape_rev (s1 s2 : list nat) : option (list nat) :=
  match s1, s2 with
  | [], s | s, [] => Some s
  | a :: s1', b :: s2' =>
      d ← bdim a b; r ← bshape_rev s1' s2'; Some (d :: r)
  end.

Definition broadcast_shapes (s1 s2 : list nat) : option (list nat) :=
  reverse <$> bshape_rev (reverse s1) (reverse s2).

(** The index at which an operand of shape [s] is read for the cell
    [idx] of the broadcast result. *)
Definition bindex (s idx : list nat) : list nat :=
  zip_with (λ d i, if d =? 1 then 0 else i) s
           (drop (length idx - length s) idx).

Definition broadcast2 {A B C} (f : A → B → C)
    (a : tensor A) (b : tensor B) : result (tensor C) :=
  match broadcast_shapes (shape a) (shape b) with
  | Some s =>
      Ok (Tensor s (λ idx, f (cell a (bindex (shape a) idx))
                             (cell b (bindex (shape b) idx))))
  | None => Raise RuntimeError
  end.

Definition tmap {A B} (f : A → B) (t : tensor A) : tensor B :=
  Tensor (shape t) (λ idx, f (cell t idx)).

(** [a == b], [a & b] and the arithmetic operators on tensors. *)
Definition eq (a b : tensor Z) : result (tensor bool) :=
  broadcast2 Z.eqb a b.
Definition and (a b : tensor bool) : result (tensor bool) :=
  broadcast2 andb a b.
Definition add := broadcast2 fadd.
Definition mul := broadcast2 fmul.
Definition div := broadcast2 fdiv.
Definition max := broadcast2 fmax.

(** [t.sum(dim=d)]. *)
Definition sum_dim (d : nat) (t : tensor fval) : result (tensor fval) :=
  match shape t !! d with
  | Some n =>
      Ok (Tensor (delete d (shape t))
            (λ idx, fsum ((λ k, cell t (take d idx ++ k :: drop d idx))
                            <$> seq 0 n)))
  | None => Raise IndexError
  end.

(** All the indices of a shape, in row-major order. *)
Fixpoint indices (s : list nat) : list (list nat) :=
  match s with
  | [] => [[]]
  | n :: s' => k ← seq 0 n; (k ::.) <$> indices s'
  end.

(** [t.sum()]: a zero-dimensional tensor. *)
Definition sum_all (t : tensor fval) : tensor fval :=
  scalar (fsum (cell t <$> indices (shape t))).

(** [torch.diag(t)]: the diagonal of a matrix, or the diagonal matrix of
    a vector. *)
Definition diag (t : tensor fval) : result (tensor fval) :=
  match shape t with
  | [r; c] => Ok (Tensor [r `min` c] (λ idx, cell t [hd 0 idx; hd 0 idx]))
  | [n] => Ok (Tensor [n; n]
                 (λ idx, if hd 0 idx =? hd 0 (tl idx)
                         then cell t [hd 0 idx] else Fin 0%Qc))
  | _ => Raise RuntimeError
  end.

(** [t[i]] for a non-negative Python integer [i]. *)
Definition getitem {A} (t : tensor A) (i : nat) : result (tensor A) :=
  match shape t with
  | n :: s => if i <? n then Ok (Tensor s (λ idx, cell t (i :: idx)))
              else Raise IndexError
  | [] => Raise IndexError
  end.


(** [t.item()]: the value of a tensor with a single element. *)
Definition item {A} (t : tensor A) : result A :=
  if foldr Nat.mul 1 (shape t) =? 1
  then Ok (cell t (replicate (length (shape t)) 0))
  else Raise RuntimeError.

End Torch.

(** ** Confusion-matrix accumulation *)

(** [compute_conf_mat(out, y, num_labels)].  The tensors are values here:
    [.to(out.device)] moves [labels] next to [out] and leaves its cells as
    they are. *)
Definition compute_conf_mat (out y : tensor Z) (num_labels : Z)
    : result (tensor fval) :=
  labels ← Torch.arange num_labels;
  pred_is ← Torch.eq out (Torch.unsqueeze 1 labels);
  gt_is ← Torch.eq y (Torch.unsqueeze 2 (Torch.unsqueeze 1 labels));
  both ← Torch.and pred_is gt_is;
  Torch.sum_dim 2 (Torch.tmap of_bool both).

(** The number of positions at which the ground truth is [g] and the
    prediction is [p]. *)
Definition count_positions (out y : tensor Z) (g p : Z) : nat :=
  length (filter (λ idx, cell y idx = g ∧ cell out idx = p)
                 (Torch.indices (shape out))).


(** ** The object store

    [compute_conf_mat_metrics] allocates tensors and builds a dictionary
    that it updates in place, so it runs in a store of objects.  A
    location is an index in the store; objects are never freed. *)

Inductive device := CPU | CUDA (index : nat).

#[global] Instance device_eq_dec : EqDecision device.
Proof. solve_decision. Defined.

Inductive obj :=
| OTensor (dev : device) (t : tensor fval)
| ODict (d : gmap string fval).

Abbreviation loc := nat (only parsing).
Abbreviation store := (list obj) (only parsing).

(** A computation takes a store and returns a value or raises, together
    with the store it leaves behind. *)
Definition M (A : Type) : Type := store → result A * store.

#[global] Instance M_ret : MRet M := λ A a s, (Ok a, s).
#[global] Instance M_bind : MBind M := λ A B f m s,
  match m s with
  | (Ok a, s') => f a s'
  | (Raise e, s') => (Raise e, s')
  end.

Definition lift {A} (r : result A) : M A := λ s, (r, s).

Definition alloc (o : obj) : M loc := λ s, (Ok (length s), s ++ [o]).

Definition read_tensor (r : loc) : M (device * tensor fval) := λ s,
  match s !! r with
  | Some (OTensor d t) => (Ok (d, t), s)
  | _ => (Raise TypeError, s)
  end.

Definition read_dict (r : loc) : M (gmap string fval) := λ s,
  match s !! r with
  | Some (ODict d) => (Ok d, s)
  | _ => (Raise TypeError, s)
  end.

Definition write (r : loc) (o : obj) : M unit := λ s, (Ok (), <[r := o]> s).

Fixpoint for_each {A} (body : A → M unit) (l : list A) : M unit :=
  match l with
  | [] => mret ()
  | x :: l' => body x;; for_each body l'
  end.

(** [enumerate(l)]. *)
Definition enumerate {A} (l : list A) : list (nat * A) :=
  zip (seq 0 (length l)) l.

(** The tensor operations on stored tensors.  Each result is a new
    object. *)
Module TorchS.

(** [t.cpu()]: the tensor itself when it is in CPU memory, a copy
    there otherwise. *)
Definition cpu (r : loc) : M loc :=
  '(d, t) ← read_tensor r;
  match d with
  | CPU => mret r
  | CUDA _ => alloc (OTensor CPU t)
  end.

(** The device of the result of a binary operation: the operands are on
    one device, or one of them is a zero-dimensional CPU tensor. *)
Definition result_device (da : device) (ta : tensor fval)
    (db : device) (tb : tensor fval) : result device :=
  if decide (da = db) then Ok da
  else if decide (da = CPU ∧ shape ta = []) then Ok db
  else if decide (db = CPU ∧ shape tb = []) then Ok da
  else Raise RuntimeError.

Definition unop (f : tensor fval → result (tensor fval)) (r : loc) : M loc :=
  '(d, t) ← read_tensor r;
  t' ← lift (f t);
  alloc (OTensor d t').

Definition binop (f : tensor fval → tensor fval → result (tensor fval))
    (a b : loc) : M loc :=
  '(da, ta) ← read_tensor a;
  '(db, tb) ← read_tensor b;
  d ← lift (result_device da ta db tb);
  t ← lift (f ta tb);
  alloc (OTensor d t).

Definition add := binop Torch.add.
Definition mul := binop Torch.mul.
Definition div := binop Torch.div.
Definition max := binop Torch.max.

(** [k * t] for a Python integer [k]. *)
Definition rmul (k : Z) := unop (λ t, Ok (Torch.tmap (fmul (of_Z k)) t)).

Definition sum_dim (d : nat) := unop (Torch.sum_dim d).
Definition sum := unop (λ t, Ok (Torch.sum_all t)).
Definition diag := unop Torch.diag.
Definition getitem (r : loc) (i : nat) := unop (λ t, Torch.getitem t i) r.

(** [t.item()]: a Python float. *)
Definition item (r : loc) : M fval :=
  '(_, t) ← read_tensor r; lift (Torch.item t).

(** [torch.tensor(v)] for a Python float. *)
Definition tensor (v : fval) : M loc := alloc (OTensor CPU (Torch.scalar v)).

End TorchS.

(** A dictionary display [{k1: v1, ...}]: the keys are set in order. *)
Definition dict_of (entries : list (string * fval)) : gmap string fval :=
  foldl (λ d e, <[e.1 := e.2]> d) ∅ entries.

Definition new_dict (entries : list (string * fval)) : M loc :=
  alloc (ODict (dict_of entries)).

(** [d.update(other)] writes the entries of [other] into [d], in place. *)
Definition dict_update (d other : loc) : M unit :=
  old ← read_dict d;
  new ← read_dict other;
  write d (ODict (new ∪ old)).

(** ** Metrics derivation *)

(** ['{}_precision'.format(label)] and its two siblings. *)
Definition precision_key (label : string) : string := label +:+ "_precision".
Definition recall_key (label : string) : string := label +:+ "_recall".
Definition f1_key (label : string) : string := label +:+ "_f1".

(** [compute_conf_mat_metrics(conf_mat, label_names, eps)]; returns the
    location of the [metrics] dictionary. *)
Definition compute_conf_mat_metrics (conf_mat : loc)
    (label_names : list string) (eps : fval) : M loc :=
  eps ← TorchS.tensor eps;
  conf_mat ← TorchS.cpu conf_mat;
  gt_count ← TorchS.sum_dim 1 conf_mat;
  pred_count ← TorchS.sum_dim 0 conf_mat;
  total ← TorchS.sum conf_mat;
  true_pos ← TorchS.diag conf_mat;
  precision ← (m ← TorchS.max pred_count eps; TorchS.div true_pos m);
  recall ← (m ← TorchS.max gt_count eps; TorchS.div true_pos m);
  f1 ← (a ← TorchS.rmul 2 precision;
        b ← TorchS.mul a recall;
        c ← TorchS.add precision recall;
        d ← TorchS.max c eps;
        TorchS.div b d);

  weights ← TorchS.div gt_count total;
  weighted_precision ← (a ← TorchS.mul weights precision; TorchS.sum a);
  weighted_recall ← (a ← TorchS.mul weights recall; TorchS.sum a);
  weighted_f1 ← (a ← TorchS.rmul 2 weighted_precision;
                 b ← TorchS.mul a weighted_recall;
                 c ← TorchS.add weighted_precision weighted_recall;
                 d ← TorchS.max c eps;
                 TorchS.div b d);

  avg_precision ← TorchS.item weighted_precision;
  avg_recall ← TorchS.item weighted_recall;
  avg_f1 ← TorchS.item weighted_f1;
  metrics ← new_dict [("avg_precision", avg_precision);
                      ("avg_recall", avg_recall);
                      ("avg_f1", avg_f1)];
  for_each (λ '(ind, label),
      p ← (x ← TorchS.getitem precision ind; TorchS.item x);
      r ← (x ← TorchS.getitem recall ind; TorchS.item x);
      f ← (x ← TorchS.getitem f1 ind; TorchS.item x);
      other ← new_dict [(precision_key label, p);
                        (recall_key label, r);
                        (f1_key label, f)];
      dict_update metrics other)
    (enumerate label_names);;
  mret metrics.

(** The report a call leaves in the store, if it returns one. *)
Definition report_of (out : result loc * store) : option (gmap string fval) :=
  match out with
  | (Ok r, s) => match s !! r with
                 | Some (ODict d) => Some d
                 | _ => None
                 end
  | _ => None
  end.

(** ** Validation of a serialized augmentation *)

Section Validate.

(** The serialized transform (a Python [dict]) and the transform that
    [A.from_dict] builds from it belong to the albumentations library. *)
Context {serialized transform : Type}.
Variable from_dict : serialized → result transform.

Definition invalid_serialization_msg : string :=
  "The given serialization is invalid. Use A.to_dict(transform) to serialize.".

(** [validate_albumentation_transform(tf)]; [None] is Python's [None]. *)
Definition validate_albumentation_transform (tf : option serialized)
    : result (option serialized) :=
  match tf with
  | Some d =>
      match from_dict d with
      | Ok _ => Ok tf
      | Raise e =>
          if is_Exception e then Raise (ConfigError invalid_serialization_msg)
          else Raise e
      end
  | None => Ok tf
  end.

End Validate.

(** ** Module wrappers *)

#[local] Set Warnings "-register-all".

(** The Python values the wrappers handle: integers, tensors, and
    sequences (tuples or lists) of values. *)
Inductive pyval :=
| PInt (z : Z)
| PTensor (t : tensor fval)
| PSeq (l : list pyval).

(** An [nn.Module] is called on a value and returns one or raises. *)
Definition module := pyval → result pyval.

#[global] Instance result_fmap : FMap result := λ A B f m,
  match m with
  | Ok a => Ok (f a)
  | Raise e => Raise e
  end.

(** [len(x)]. *)
Definition py_len (x : pyval) : result nat :=
  match x with
  | PSeq l => Ok (length l)
  | PTensor t => match shape t with
                 | n :: _ => Ok n
                 | [] => Raise TypeError
                 end
  | PInt _ => Raise TypeError
  end.

(** The elements [iter(x)] yields. *)
Definition py_iter (x : pyval) : result (list pyval) :=
  match x with
  | PSeq l => Ok l
  | PTensor t => match shape t with
                 | n :: s => Ok ((λ i, PTensor (Tensor s (λ idx, cell t (i :: idx))))
                                   <$> seq 0 n)
                 | [] => Raise TypeError
                 end
  | PInt _ => Raise TypeError
  end.

(** [a + b]. *)
Definition py_add (a b : pyval) : result pyval :=
  match a, b with
  | PInt x, PInt y => Ok (PInt (x + y))
  | PInt x, PTensor t => Ok (PTensor (Torch.tmap (λ v, fadd v (of_Z x)) t))
  | PTensor t, PInt y => Ok (PTensor (Torch.tmap (λ v, fadd v (of_Z y)) t))
  | PTensor t, PTensor u => PTensor <$> Torch.add t u
  | PSeq l, PSeq k => Ok (PSeq (l ++ k))
  | _, _ => Raise TypeError
  end.

(** The built-in [sum(xs)], with its default start value [0]. *)
Definition py_sum (xs : pyval) : result pyval :=
  l ← py_iter xs;
  foldl (λ acc x, a ← acc; py_add a x) (Ok (PInt 0)) l.

Module Parallel.

(** [Parallel.forward(self, xs)]; [self] is the list of the modules.
    [tuple(...)] calls the modules in order. *)
Definition forward (self : list module) (xs : pyval) : result pyval :=
  match xs with
  | PTensor _ => PSeq <$> mapM (λ m : module, m xs) self
  | _ =>
      n ← py_len xs;
      if n =? length self
      then xl ← py_iter xs;
           PSeq <$> mapM (λ mx : module * pyval, mx.1 mx.2) (zip self xl)
      else Raise AssertionError
  end.

End Parallel.

Module AddTensors.

(** [AddTensors.forward(self, xs)]. *)
Definition forward (xs : pyval) : result pyval := py_sum xs.

End AddTensors.

(** ** Splitting a tensor

    [Tensor.split] of PyTorch, which [SplitTensor] wraps: the dimension
    may be counted from the end, the pieces are views of consecutive
    ranges of the dimension.  Sizes are unbounded integers here. *)
Module TorchShape.

(** A dimension in [[-ndim, ndim)], counted from the end when negative. *)
Definition maybe_wrap_dim (dim : Z) (ndim : nat) : result nat :=
  if decide (- Z.of_nat ndim ≤ dim < Z.of_nat ndim)%Z
  then Ok (Z.to_nat (if decide (dim < 0)%Z then dim + Z.of_nat ndim else dim))
  else Raise IndexError.

(** [t.narrow(d, start, len)]. *)
Definition narrow {A} (t : tensor A) (d start len : nat) : tensor A :=
  Tensor (<[d := len]> (shape t))
         (λ idx, cell t (alter (Nat.add start) d idx)).

(** The consecutive pieces of the given lengths, from [start] on. *)
Fixpoint narrow_all {A} (t : tensor A) (d start : nat) (lens : list nat)
    : list (tensor A) :=
  match lens with
  | [] => []
  | len :: lens' => narrow t d start len :: narrow_all t d (start + len) lens'
  end.

(** [t.split(split_size, dim)] for an integer [split_size]: pieces of
    that size, the last one holding what is left. *)
Definition split {A} (t : tensor A) (split_size dim : Z)
    : result (list (tensor A)) :=
  if decide (shape t = []) then Raise RuntimeError
  else if decide (split_size < 0)%Z then Raise RuntimeError
  else
    d ← maybe_wrap_dim dim (length (shape t));
    let dim_size := Z.of_nat (shape t !!! d) in
    if decide (0 < split_size ∨ dim_size = 0)%Z then
      let num_splits :=
        if decide (split_size = 0)%Z then 1%Z
        else Z.max ((dim_size + split_size - 1) ÷ split_size) 1 in
      let last_split_size :=
        (split_size - (split_size * num_splits - dim_size))%Z in
      Ok ((λ i, narrow t d (i * Z.to_nat split_size)
                  (Z.to_nat (if decide (Z.of_nat i < num_splits - 1)%Z
                             then split_size else last_split_size)))
            <$> seq 0 (Z.to_nat num_splits))
    else Raise RuntimeError.

(** [t.split(split_sizes, dim)] for a list of sizes, which have to add up
    to the size of the dimension. *)
Definition split_with_sizes {A} (t : tensor A) (split_sizes : list Z) (dim : Z)
    : result (list (tensor A)) :=
  if decide (shape t = []) then Raise RuntimeError
  else
    d ← maybe_wrap_dim dim (length (shape t));
    let dim_size := Z.of_nat (shape t !!! d) in
    if decide (Forall (λ z, 0 ≤ z)%Z split_sizes) then
      if decide (foldr Z.add 0%Z split_sizes = dim_size)
      then Ok (narrow_all t d 0 (Z.to_nat <$> split_sizes))
      else Raise RuntimeError
    else Raise RuntimeError.

End TorchShape.

Module SplitTensor.

(** The [size_or_sizes] argument: an integer or a list of integers. *)
Inductive size_or_sizes :=
| Size (split_size : Z)
| Sizes (split_sizes : list Z).

Record t := Make {
  sizes : size_or_sizes;
  dim : Z
}.

(** [SplitTensor.forward(self, X)]: a tuple of tensors.  Only a tensor
    has a [split] method. *)
Definition forward (self : t) (X : pyval) : result pyval :=
  match X with
  | PTensor x =>
      pieces ← match sizes self with
               | Size n => TorchShape.split x n (dim self)
               | Sizes l => TorchShape.split_with_sizes x l (dim self)
               end;
      Ok (PSeq (PTensor <$> pieces))
  | _ => Raise (OtherException "AttributeError")
  end.

End SplitTensor.

(** ** Min-max normalization of an image

    [MinMaxNormalize] rescales an image (a NumPy array) channel by
    channel with OpenCV.  The pixel values are finite numbers, exact
    rationals here: an array holds neither NaN nor an infinity, and
    nothing is said of the images that do. *)

Definition Qc_ltb (x y : Qc) : bool :=
  match (x ?= y)%Qc with
  | Lt => true
  | _ => false
  end.
Definition Qc_max (x y : Qc) : Qc := if Qc_ltb x y then y else x.
Definition Qc_min (x y : Qc) : Qc := if Qc_ltb y x then y else x.

Module Np.

(** [np.clip(a, a_min, a_max)], which is
    [np.minimum(np.maximum(a, a_min), a_max)]. *)
Definition clip (a : tensor Qc) (a_min a_max : Qc) : tensor Qc :=
  Torch.tmap (λ x, Qc_min (Qc_max x a_min) a_max) a.

(** The arrays that iterating over [image.transpose(2, 0, 1)] yields, for
    an image of three dimensions: its channels. *)
Definition channel (image : tensor Qc) (k : nat) : tensor Qc :=
  Tensor (take 2 (shape image))
         (λ idx, cell image [hd 0 idx; hd 0 (tl idx); k]).
Definition channels (image : tensor Qc) : list (tensor Qc) :=
  channel image <$> seq 0 (shape image !!! 2).

(** [np.stack(arrays, axis=2)]. *)
Definition stack2 (arrays : list (tensor Qc)) : result (tensor Qc) :=
  match arrays with
  | [] => Raise ValueError
  | a :: _ =>
      if decide (Forall (λ b, shape b = shape a) arrays) then
        if decide (2 ≤ length (shape a)) then
          Ok (Tensor (take 2 (shape a) ++ length arrays :: drop 2 (shape a))
                (λ idx, match arrays !! (idx !!! 2) with
                        | Some b => cell b (take 2 idx ++ drop 3 idx)
                        | None => 0%Qc
                        end))
        else Raise (OtherException "AxisError")
      else Raise ValueError
  end.

End Np.

Module MinMaxNormalize.

(** The fields of the transform that [__init__] sets; [dtype] is an
    OpenCV depth code. *)
Record t := Make {
  min_val : Qc;
  max_val : Qc;
  dtype : Z
}.

Definition CV_32F : Z := 5.

(** [MinMaxNormalize()], with the default values of the arguments. *)
Definition default : t := Make 0 1 CV_32F.

Definition get_transform_init_args_names : list string :=
  ["min_val"; "max_val"; "dtype"].

Section Apply.

(** [cv2.normalize(image, None, alpha, beta, cv2.NORM_MINMAX, dtype=dtype)],
    which belongs to OpenCV. *)
Variable cv2_normalize : tensor Qc → Qc → Qc → Z → result (tensor Qc).

Definition _apply_on_channel (self : t) (image : tensor Qc)
    : result (tensor Qc) :=
  out ← cv2_normalize image (min_val self) (max_val self) (dtype self);
  Ok (Np.clip out (min_val self) (max_val self)).

(** [MinMaxNormalize.apply(self, image)]. *)
Definition apply (self : t) (image : tensor Qc) : result (tensor Qc) :=
  if decide (length (shape image) ≤ 2) then _apply_on_channel self image
  else if decide (length (shape image) = 3) then
    chs ← mapM (_apply_on_channel self) (Np.channels image);
    Np.stack2 chs
  else Raise AssertionError.

End Apply.

End MinMaxNormalize.

(** The keys of the three entries of a label. *)
Definition label_keys (label : string) : gset string :=
  {[precision_key label; recall_key label; f1_key label]}.

(** ** The metrics as the specification words them

    For a confusion matrix [cm] of dimension [n] and a floor [eps]. *)
Module Spec.
Section Metrics.

Variables (cm : tensor fval) (n : nat) (eps : fval).

(** Total ground-truth instances of class [i]: the sum of row [i]. *)
Definition gt_count (i : nat) : fval := fsum ((λ j, cell cm [i; j]) <$> seq 0 n).
(** Total predicted instances of class [i]: the sum of column [i]. *)
Definition pred_count (i : nat) : fval := fsum ((λ j, cell cm [j; i]) <$> seq 0 n).
Definition total : fval := fsum (cell cm <$> Torch.indices [n; n]).
Definition true_pos (i : nat) : fval := cell cm [i; i].

Definition precision (i : nat) : fval :=
  fdiv (true_pos i) (fmax (pred_count i) eps).
Definition recall (i : nat) : fval :=
  fdiv (true_pos i) (fmax (gt_count i) eps).
Definition f1 (i : nat) : fval :=
  fdiv (fmul (fmul (of_Z 2) (precision i)) (recall i))
       (fmax (fadd (precision i) (recall i)) eps).

Definition weight (i : nat) : fval := fdiv (gt_count i) total.
Definition avg_precision : fval :=
  fsum ((λ i, fmul (weight i) (precision i)) <$> seq 0 n).
Definition avg_recall : fval :=
  fsum ((λ i, fmul (weight i) (recall i)) <$> seq 0 n).
Definition avg_f1 : fval :=
  fdiv (fmul (fmul (of_Z 2) avg_precision) avg_recall)
       (fmax (fadd avg_precision avg_recall) eps).

(** The average of the per-class F1 scores, which [avg_f1] is not. *)
Definition weighted_mean_f1 : fval :=
  fsum ((λ i, fmul (weight i) (f1 i)) <$> seq 0 n).

(** The three aggregate entries, and the three entries of label [i]. *)
Definition avg_entries : gmap string fval :=
  dict_of [("avg_precision", avg_precision);
           ("avg_recall", avg_recall);
           ("avg_f1", avg_f1)].
Definition label_entries (i : nat) (label : string) : gmap string fval :=
  dict_of [(precision_key label, precision i);
           (recall_key label, recall i);
           (f1_key label, f1 i)].

(** The report: the aggregate entries, then the entries of every label
    in the order of the label names. *)
Definition report (label_names : list string) : gmap string fval :=
  foldl (λ d e, label_entries e.1 e.2 ∪ d) avg_entries (enumerate label_names).

End Metrics.
End Spec.

(** ** Example inputs *)

(** The rational [num / den] as a floating-point value. *)
Definition ratio (num : Z) (den : positive) : fval := Fin (Q2Qc (num # den)).

(** The default value of [eps], [1e-6]. *)
Definition default_eps : fval := ratio 1 1000000.

(** The confusion matrix [[[5, 1], [2, 10]]], alone in a store. *)
Definition example_conf_mat : tensor fval :=
  Torch.of_rows [[of_Z 5; of_Z 1]; [of_Z 2; of_Z 10]].
Definition example_store : list obj := [OTensor CPU example_conf_mat].

(** The 2 × 2 confusion matrix of zeros, alone in a store. *)
Definition zero_conf_mat : tensor fval :=
  Torch.of_rows [[of_Z 0; of_Z 0]; [of_Z 0; of_Z 0]].
Definition zero_store : list obj := [OTensor CPU zero_conf_mat].


(** Two batches of predicted and ground-truth labels. *)
Definition example_out : tensor Z := Torch.of_list [0; 1; 1; 0; 1]%Z.
Definition example_y : tensor Z := Torch.of_list [0; 1; 0; 0; 1]%Z.

(** Labels on a 2 × 2 grid, and on a 3 × 2 grid. *)
Definition grid_out : tensor Z := Torch.of_rows [[1; 1]; [0; 0]]%Z.
Definition grid_y : tensor Z := Torch.of_rows [[0; 0]; [0; 0]]%Z.
Definition tall_grid_out : tensor Z := Torch.of_rows [[1; 1]; [0; 0]; [0; 0]]%Z.
Definition tall_grid_y : tensor Z := Torch.of_rows [[0; 0]; [0; 0]; [0; 0]]%Z.

(** A deserializer that rejects 0; a module that doubles its input and one
    that returns it. *)
Definition example_from_dict (d : nat) : result nat :=
  if d =? 0 then Raise ValueError else Ok d.
Definition example_double : module := λ x, py_add x x.
Definition example_identity : module := λ x, Ok x.

(** A single ground-truth label. *)
Definition example_y1 : tensor Z := Torch.of_list [1]%Z.
(** Three ground-truth labels, for five predictions. *)
Definition example_y3 : tensor Z := Torch.of_list [0; 1; 0]%Z.

(** A 2 × 3 matrix, alone in a store. *)
Definition rect_conf_mat : tensor fval :=
  Torch.of_rows [[of_Z 5; of_Z 1; of_Z 0]; [of_Z 2; of_Z 10; of_Z 0]].
Definition rect_store : list obj := [OTensor CPU rect_conf_mat].

(** The counts of [example_conf_mat]. *)
Definition example_counts (i j : nat) : nat :=
  match i, j with
  | 0, 0 => 5 | 0, 1 => 1
  | 1, 0 => 2 | 1, 1 => 10
  | _, _ => 0
  end.

(** The confusion matrix [[[3, 0], [0, 4]]] of seven right predictions,
    alone in a store. *)
Definition perfect_conf_mat : tensor fval :=
  Torch.of_rows [[of_Z 3; of_Z 0]; [of_Z 0; of_Z 4]].
Definition perfect_counts (i j : nat) : nat :=
  match i, j with
  | 0, 0 => 3
  | 1, 1 => 4
  | _, _ => 0
  end.
Definition perfect_store : list obj := [OTensor CPU perfect_conf_mat].

(** The vector [[1, 2, 3, 4, 5]], and a module that raises. *)
Definition example_vec : tensor fval :=
  Torch.of_list [of_Z 1; of_Z 2; of_Z 3; of_Z 4; of_Z 5].
Definition example_failing : module := λ _, Raise ValueError.

(** ** Predicates for reasoning about tensors and stores *)

(** [t] is a vector of length [n] whose cells are given by [v]. *)
Definition is_vec (t : tensor fval) (n : nat) (v : nat → fval) : Prop :=
  shape t = [n] ∧ ∀ i, i < n → cell t [i] = v i.

(** [t] is a zero-dimensional tensor holding [v]. *)
Definition is_scalar (t : tensor fval) (v : fval) : Prop :=
  shape t = [] ∧ cell t [] = v.

(** Whether position [k] of two vectors of labels has the ground truth
    [g] and the prediction [p]. *)
Definition hit (out y : tensor Z) (g p k : nat) : bool :=
  (cell out [k] =? Z.of_nat p)%Z && (cell y [k] =? Z.of_nat g)%Z.

(** An index within the bounds of a shape. *)
Definition valid_index (s idx : list nat) : Prop := Forall2 lt idx s.

(** Every object of [s] is still there, unchanged, in [s']. *)
Definition extends (s s' : store) : Prop :=
  ∀ l o, s !! l = Some o → s' !! l = Some o.

Definition holds_vec (s : store) (r : loc) (n : nat) (v : nat → fval) : Prop :=
  ∃ t, s !! r = Some (OTensor CPU t) ∧ is_vec t n v.

Definition holds_scalar (s : store) (r : loc) (v : fval) : Prop :=
  ∃ t, s !! r = Some (OTensor CPU t) ∧ is_scalar t v.

(** The computation [m] returns from [s], with a value and a store that
    satisfy [Q]. *)
Definition wp {A} (m : M A) (s : store) (Q : A → store → Prop) : Prop :=
  ∃ a s', m s = (Ok a, s') ∧ Q a s'.

(** The computation [m], run from a store of at least [b] objects, leaves
    the first [b] objects as they are, whether it returns or raises; a
    value it returns satisfies [P]. *)
Definition frames {A} (b : nat) (m : M A) (P : A → Prop) : Prop :=
  ∀ s, b ≤ length s →
    b ≤ length (m s).2 ∧
    (∀ l, l < b → (m s).2 !! l = s !! l) ∧
    (∀ a, (m s).1 = Ok a → P a).

(** A label of a class, [0 ≤ z < num_labels]. *)
Definition in_range (num_labels z : Z) : Prop := (0 ≤ z < num_labels)%Z.

(** A number of positions whose counts float32 holds exactly.
    [compute_conf_mat] adds its 0/1 cells up in float32, in which every
    integer up to [2 ^ 24] is a value: with at most that many positions
    every partial sum is exact, in whatever order the additions are
    made, and the sums of the code are the exact sums of the model.
    Beyond that a count can be off. *)
Definition float32_exact (n : nat) : Prop := (Z.of_nat n ≤ 2 ^ 24)%Z.

#[global] Instance in_range_dec num_labels z : Decision (in_range num_labels z).
Proof. unfold in_range. apply _. Defined.

(** The computation [m], run from [s], raises [e]. *)
Definition raises {A} (m : M A) (s : store) (e : exn) : Prop :=
  (m s).1 = Raise e.

(** ** Matrices of counts

    [cm] holds the counts [c i j] of the instances of class [i] that were
    predicted as class [j]. *)
Definition holds_counts (cm : tensor fval) (n : nat) (c : nat → nat → nat) : Prop :=
  ∀ i j, i < n → j < n → cell cm [i; j] = of_nat (c i j).

Definition row_count (c : nat → nat → nat) (n i : nat) : nat :=
  sum_list_with (c i) (seq 0 n).
Definition col_count (c : nat → nat → nat) (n i : nat) : nat :=
  sum_list_with (λ j, c j i) (seq 0 n).
Definition total_count (c : nat → nat → nat) (n : nat) : nat :=
  sum_list_with (row_count c n) (seq 0 n).
(** The instances on the diagonal: those predicted as their class. *)
Definition correct_count (c : nat → nat → nat) (n : nat) : nat :=
  sum_list_with (λ i, c i i) (seq 0 n).

(** The positions of two vectors of [m] labels that have the ground truth
    [g] and the prediction [p], counted. *)
Definition hit_count (out y : tensor Z) (m g p : nat) : nat :=
  sum_list_with (λ k, Nat.b2n (hit out y g p k)) (seq 0 m).

(** ** Pieces laid end to end

    The cell at [idx] of the concatenation of [ts] along dimension [d]. *)
Fixpoint cat_cell {A} `{Inhabited A} (ts : list (tensor A)) (d : nat)
    (idx : list nat) : A :=
  match ts with
  | [] => inhabitant
  | t :: ts' =>
      let n := shape t !!! d in
      if idx !!! d <? n then cell t idx
      else cat_cell ts' d (alter (λ i, i - n) d idx)
  end.

(** The sizes of the pieces of [n] cut every [size]: full pieces, then
    what is left, if anything; one empty piece when [n] is 0. *)
Definition chunk_sizes (n size : nat) : list nat :=
  if n =? 0 then [0]
  else replicate (n / size) size ++
       (if n `mod` size =? 0 then [] else [n `mod` size]).

(** ** The normalization of OpenCV

    [lo] and [hi] are the least and the greatest value of an array of
    [h] rows and [w] columns. *)
Definition plane_range (img : tensor Qc) (h w : nat) (lo hi : Qc) : Prop :=
  (∃ i j, i < h ∧ j < w ∧ cell img [i; j] = lo) ∧
  (∃ i j, i < h ∧ j < w ∧ cell img [i; j] = hi) ∧
  ∀ i j, i < h → j < w → (lo ≤ cell img [i; j])%Qc ∧ (cell img [i; j] ≤ hi)%Qc.

(** The double-precision machine epsilon, [2 ^ -52]. *)
Definition DBL_EPSILON : Qc := Q2Qc (1 # 4503599627370496).

(** The scale and the value that [NORM_MINMAX] computes for an array of
    range [[lo, hi]] and the bounds [alpha] and [beta]: [dst = src * scale
    + shift] with [shift = dmin - lo * scale]. *)
Definition minmax_scale (lo hi alpha beta : Qc) : Qc :=
  ((Qc_max alpha beta - Qc_min alpha beta) *
   (if Qc_ltb DBL_EPSILON (hi - lo) then / (hi - lo) else 0))%Qc.
Definition minmax_value (lo hi alpha beta x : Qc) : Qc :=
  (x * minmax_scale lo hi alpha beta +
   (Qc_min alpha beta - lo * minmax_scale lo hi alpha beta))%Qc.

(** [normalize] computes [NORM_MINMAX] exactly on the non-empty arrays of
    two dimensions. *)
Definition norm_minmax
    (normalize : tensor Qc → Qc → Qc → Z → result (tensor Qc)) : Prop :=
  ∀ img h w lo hi alpha beta dt,
    shape img = [h; w] → plane_range img h w lo hi →
    ∃ out, normalize img alpha beta dt = Ok out ∧ shape out = [h; w] ∧
      ∀ i j, i < h → j < w →
        cell out [i; j] = minmax_value lo hi alpha beta (cell img [i; j]).

(** [out] is the array [img] of [h] rows and [w] columns, of range
    [[lo, hi]], rescaled to [[a, b]]: a constant array (up to
    [DBL_EPSILON]) becomes [a] everywhere. *)
Definition rescaled (img out : tensor Qc) (h w : nat) (lo hi a b : Qc) : Prop :=
  ∀ i j, i < h → j < w →
    cell out [i; j] =
      if Qc_ltb DBL_EPSILON (hi - lo)
      then (a + (cell img [i; j] - lo) * (b - a) / (hi - lo))%Qc
      else a.

(** ** Example images *)

(** An exact [NORM_MINMAX]: the least and the greatest cell are found by
    going through the array. *)
Definition example_normalize (img : tensor Qc) (alpha beta : Qc) (dt : Z)
    : result (tensor Qc) :=
  let cells := cell img <$> Torch.indices (shape img) in
  let lo := foldr Qc_min (hd 0%Qc cells) cells in
  let hi := foldr Qc_max (hd 0%Qc cells) cells in
  Ok (Tensor (shape img)
        (λ idx, minmax_value lo hi alpha beta (cell img idx))).

(** A grey image of two rows, and a colour image of one row of two pixels
    with the channels [[0, 10]], [[4, 4]] and [[7, 3]]. *)
Definition example_grey : tensor Qc :=
  Tensor [2; 2] (λ idx, Q2Qc (inject_Z (Z.of_nat (2 * hd 0 idx + hd 0 (tl idx))))).
Definition example_colour_value (j k : nat) : Z :=
  match j, k with
  | 0, 0 => 0%Z | _, 0 => 10%Z
  | _, 1 => 4%Z
  | 0, _ => 7%Z | _, _ => 3%Z
  end.
Definition example_colour : tensor Qc :=
  Tensor [1; 2; 3]
    (λ idx, Q2Qc (inject_Z
              (example_colour_value (hd 0 (tl idx)) (hd 0 (tl (tl idx)))))).
(** An array of four dimensions, and an image without channels. *)
Definition example_batch : tensor Qc := Tensor [1; 2; 2; 3] (λ _, 0%Qc).
Definition example_no_channel : tensor Qc := Tensor [2; 2; 0] (λ _, 0%Qc).
Section Broadcasting.
Import Torch.

Lemma bdim_refl a : bdim a a = Some a.
Proof. unfold bdim. by rewrite Nat.eqb_refl. Qed.

Lemma bdim_1_r a : bdim a 1 = Some a.
Proof. unfold bdim. by destruct (a =? 1) eqn:E; [apply Nat.eqb_eq in E; subst|]. Qed.

Lemma pick_lt i d : i < d → (if d =? 1 then 0 else i) = i.
Proof. destruct (d =? 1) eqn:E; [apply Nat.eqb_eq in E; lia|done]. Qed.

Lemma broadcast2_ok {A B C} (f : A → B → C) a b s :
  broadcast_shapes (shape a) (shape b) = Some s →
  broadcast2 f a b =
    Ok (Tensor s (λ idx, f (cell a (bindex (shape a) idx))
                           (cell b (bindex (shape b) idx)))).
Proof. intros E. unfold broadcast2. by rewrite E. Qed.

Lemma broadcast_shapes_refl s : broadcast_shapes s s = Some s.
Proof.
  unfold broadcast_shapes.
  assert (E : ∀ r, bshape_rev r r = Some r).
  { induction r as [|a r IH]; [done|]. cbn. by rewrite bdim_refl, IH. }
  rewrite E. cbn. by rewrite reverse_involutive.
Qed.

Lemma broadcast_shapes_nil_r s : broadcast_shapes s [] = Some s.
Proof.
  unfold broadcast_shapes.
  assert (E : ∀ r, bshape_rev r [] = Some r) by (by intros []).
  rewrite reverse_nil, E. cbn. by rewrite reverse_involutive.
Qed.

Lemma broadcast_shapes_vec_col n l :
  broadcast_shapes [n] [l; 1] = Some [l; n].
Proof. unfold broadcast_shapes. cbn. by rewrite bdim_1_r. Qed.

Lemma broadcast_shapes_vec_col2 n l :
  broadcast_shapes [n] [l; 1; 1] = Some [l; 1; n].
Proof. unfold broadcast_shapes. cbn. by rewrite bdim_1_r. Qed.

Lemma broadcast_shapes_cube n l :
  broadcast_shapes [l; n] [l; 1; n] = Some [l; l; n].
Proof. unfold broadcast_shapes. cbn. by rewrite bdim_refl, bdim_1_r. Qed.

End Broadcasting.

(** *** Counting with floating-point sums *)

Lemma fadd_of_Z a b : fadd (of_Z a) (of_Z b) = of_Z (a + b).
Proof.
  unfold of_Z. cbn. f_equal. apply Qc_is_canon. cbn.
  by rewrite !Qred_correct, inject_Z_plus.
Qed.

Lemma fsum_count {X Y} (f : X → bool) (g : X → Y) (P : Y → Prop)
    `{∀ y, Decision (P y)} (l : list X) (acc : Z) :
  (∀ x, x ∈ l → f x = true ↔ P (g x)) →
  foldl fadd (of_Z acc) ((λ x, of_bool (f x)) <$> l) =
    of_Z (acc + Z.of_nat (length (filter P (g <$> l)))).
Proof.
  revert acc. induction l as [|x l IH]; intros acc Hf.
  - cbn. f_equal. lia.
  - pose proof (Hf x (list_elem_of_here _ _)) as Hx.
    rewrite !fmap_cons, filter_cons. cbn [foldl].
    destruct (f x), (decide (P (g x))) as [Hp|Hp]; cbn [of_bool length].
    + rewrite fadd_of_Z, IH by (intros; apply Hf; by right). f_equal. lia.
    + by destruct Hp; apply Hx.
    + by apply Hx in Hp.
    + rewrite fadd_of_Z, IH by (intros; apply Hf; by right). f_equal. lia.
Qed.

Lemma bind_singletons {X Y} (h : X → Y) (l : list X) :
  l ≫= (λ k, [h k]) = h <$> l.
Proof. induction l as [|x l IH]; [done|]. cbn. by rewrite IH. Qed.

Lemma indices_vec n : Torch.indices [n] = (λ k, [k]) <$> seq 0 n.
Proof. cbn. apply bind_singletons. Qed.


(** *** Arithmetic of the floating-point values *)

Section Rationals.

Lemma this_plus (x y : Qc) : (this (x + y)%Qc == this x + this y)%Q.
Proof. apply Qred_correct. Qed.

Lemma this_mult (x y : Qc) : (this (x * y)%Qc == this x * this y)%Q.
Proof. apply Qred_correct. Qed.

Lemma this_div (x y : Qc) : (this (x / y)%Qc == this x / this y)%Q.
Proof.
  unfold Qcdiv. rewrite this_mult. cbn [this Qcinv Q2Qc].
  by rewrite Qred_correct.
Qed.

Lemma Qc_sign_pos (y : Qc) : (0 < y)%Qc → Qc_sign y = Gt.
Proof. intros H. by apply Qgt_alt. Qed.

Lemma Qc_div_pos (a b : Qc) :
  (0 < a)%Qc → (a ≤ b)%Qc → (0 < a / b)%Qc ∧ (a / b ≤ 1)%Qc.
Proof.
  unfold Qcle, Qclt. rewrite this_div. cbn [this Q2Qc].
  change (Qred 0) with 0%Q. change (Qred 1) with 1%Q.
  intros Ha Hab. assert (0 < this b)%Q by lra. split.
  - apply Qlt_shift_div_l; [done|]. lra.
  - apply Qle_shift_div_r; [done|]. lra.
Qed.

Lemma Qc_harmonic (p r d : Qc) :
  (0 < p)%Qc → (p ≤ 1)%Qc → (0 < r)%Qc → (r ≤ 1)%Qc → (p + r ≤ d)%Qc →
  (0 ≤ Q2Qc 2 * p * r / d)%Qc ∧ (Q2Qc 2 * p * r / d ≤ 1)%Qc.
Proof.
  unfold Qcle, Qclt. rewrite this_div, !this_mult, this_plus.
  cbn [this Q2Qc].
  change (Qred 0) with 0%Q. change (Qred 1) with 1%Q. change (Qred 2) with 2%Q.
  intros Hp Hp1 Hr Hr1 Hd. assert (0 < this d)%Q by lra. split.
  - apply Qle_shift_div_l; [done|]. nra.
  - apply Qle_shift_div_r; [done|]. nra.
Qed.

End Rationals.

Lemma fadd_0_l v : fadd (Fin 0%Qc) v = v.
Proof. destruct v; [|done..]. cbn. by rewrite Qcplus_0_l. Qed.

Lemma fadd_0_r v : fadd v (Fin 0%Qc) = v.
Proof. destruct v; [|done..]. cbn. by rewrite Qcplus_0_r. Qed.

Lemma fsum_zero {X} (f : X → fval) (l : list X) :
  (∀ x, x ∈ l → f x = Fin 0%Qc) → fsum (f <$> l) = Fin 0%Qc.
Proof.
  unfold fsum. induction l as [|x l IH]; intros Hf; [done|].
  rewrite fmap_cons. cbn [foldl]. rewrite Hf by left. rewrite fadd_0_l.
  apply IH. intros. apply Hf. by right.
Qed.

Lemma foldl_fadd_nonneg {X} (f : X → fval) (l : list X) :
  (∀ x, x ∈ l → ∃ q, f x = Fin q ∧ (0 ≤ q)%Qc) →
  ∀ acc, ∃ total, foldl fadd (Fin acc) (f <$> l) = Fin total ∧
    (acc ≤ total)%Qc ∧
    ∀ x q, x ∈ l → f x = Fin q → (acc + q ≤ total)%Qc.
Proof.
  induction l as [|x l IH]; intros Hf acc.
  - exists acc. split; [done|]. split; [apply Qcle_refl|].
    intros ?? []%elem_of_nil.
  - destruct (Hf x) as (qx & Ex & Hx); [by left|].
    rewrite fmap_cons. cbn [foldl]. rewrite Ex. cbn [fadd].
    destruct (IH (λ y Hy, Hf y (list_elem_of_further _ _ _ Hy)) (acc + qx)%Qc)
      as (total & Htot & Hacc & Hall).
    exists total. split; [done|].
    revert Hacc Hx Hall. unfold Qcle. rewrite !this_plus. cbn [this Q2Qc].
    change (Qred 0) with 0%Q. intros Hacc Hx Hall. split; [lra|].
    intros y q [->|Hy]%elem_of_cons Ey.
    + rewrite Ex in Ey. injection Ey as <-. by rewrite this_plus.
    + specialize (Hall y q Hy Ey). rewrite !this_plus in Hall.
      rewrite this_plus. lra.
Qed.

(** A sum of finite, non-negative values is finite and is at least each
    of them. *)
Lemma fsum_nonneg {X} (f : X → fval) (l : list X) :
  (∀ x, x ∈ l → ∃ q, f x = Fin q ∧ (0 ≤ q)%Qc) →
  ∃ total, fsum (f <$> l) = Fin total ∧
    ∀ x q, x ∈ l → f x = Fin q → (q ≤ total)%Qc.
Proof.
  intros Hf. destruct (foldl_fadd_nonneg f l Hf 0%Qc) as (total & Htot & _ & Hall).
  exists total. split; [done|]. intros x q Hx Ex.
  specialize (Hall x q Hx Ex). by rewrite Qcplus_0_l in Hall.
Qed.

Lemma fmax_fin x y :
  ∃ z, fmax (Fin x) (Fin y) = Fin z ∧ (x ≤ z)%Qc ∧ (y ≤ z)%Qc.
Proof.
  cbn. destruct (x ?= y)%Qc eqn:E.
  - apply Qceq_alt in E as ->. exists y. repeat split; apply Qcle_refl.
  - apply Qclt_alt in E. exists y. repeat split; [by apply Qclt_le_weak|apply Qcle_refl].
  - apply Qcgt_alt in E. exists x. repeat split; [apply Qcle_refl|by apply Qclt_le_weak].
Qed.

Lemma fdiv_pos x y : (0 < y)%Qc → fdiv (Fin x) (Fin y) = Fin (x / y)%Qc.
Proof. intros H. cbn. by rewrite Qc_sign_pos. Qed.

(** A quotient [t / max(c, eps)] with [0 < t ≤ c] lies in (0, 1]. *)
Lemma ratio_bounds t c e :
  (0 < t)%Qc → (t ≤ c)%Qc →
  ∃ p, fdiv (Fin t) (fmax (Fin c) (Fin e)) = Fin p ∧ (0 < p)%Qc ∧ (p ≤ 1)%Qc.
Proof.
  intros Ht Htc. destruct (fmax_fin c e) as (m & -> & Hc & _).
  assert (t ≤ m)%Qc by by eapply Qcle_trans.
  assert (0 < m)%Qc by by eapply Qclt_le_trans.
  rewrite fdiv_pos by done. eexists. split; [done|]. by apply Qc_div_pos.
Qed.

(** The F1 score of a precision and a recall of (0, 1] lies in [0, 1]. *)
Lemma f1_bounds p r e :
  (0 < p)%Qc → (p ≤ 1)%Qc → (0 < r)%Qc → (r ≤ 1)%Qc →
  ∃ f, fdiv (fmul (fmul (of_Z 2) (Fin p)) (Fin r))
            (fmax (fadd (Fin p) (Fin r)) (Fin e)) = Fin f ∧
       (0 ≤ f)%Qc ∧ (f ≤ 1)%Qc.
Proof.
  intros Hp Hp1 Hr Hr1. cbn [fadd fmul of_Z].
  destruct (fmax_fin (p + r) e) as (d & -> & Hd & _).
  assert (0 < d)%Qc.
  { revert Hp Hr Hd. unfold Qcle, Qclt. rewrite this_plus. cbn [this Q2Qc].
    change (Qred 0) with 0%Q. lra. }
  rewrite fdiv_pos by done. eexists. split; [done|].
  by apply Qc_harmonic.
Qed.

(** *** Vectors and scalars under the tensor operations *)

Section Vectors.
Import Torch.

Lemma indices_vec_map {A} (t : tensor A) n :
  cell t <$> indices [n] = (λ k, cell t [k]) <$> seq 0 n.
Proof. by rewrite indices_vec, <- list_fmap_compose. Qed.

Lemma fsum_ext {X} (f g : X → fval) (l : list X) :
  (∀ x, x ∈ l → f x = g x) → fsum (f <$> l) = fsum (g <$> l).
Proof.
  intros E. f_equal. apply list_fmap_ext. intros i x Hx. apply E.
  by eapply list_elem_of_lookup_2.
Qed.

Lemma vec_vec (f : fval → fval → fval) a b n va vb :
  is_vec a n va → is_vec b n vb →
  ∃ t, broadcast2 f a b = Ok t ∧ is_vec t n (λ i, f (va i) (vb i)).
Proof.
  intros [Sa Ca] [Sb Cb]. eexists. split.
  - apply broadcast2_ok. rewrite Sa, Sb. apply broadcast_shapes_refl.
  - split; [done|]. intros i Hi. cbn [cell]. rewrite Sa, Sb. cbn.
    by rewrite !pick_lt, Ca, Cb.
Qed.

Lemma vec_scalar (f : fval → fval → fval) a b n va vb :
  is_vec a n va → is_scalar b vb →
  ∃ t, broadcast2 f a b = Ok t ∧ is_vec t n (λ i, f (va i) vb).
Proof.
  intros [Sa Ca] [Sb Cb]. eexists. split.
  - apply broadcast2_ok. rewrite Sa, Sb. apply broadcast_shapes_nil_r.
  - split; [done|]. intros i Hi. cbn [cell]. rewrite Sa, Sb. cbn.
    by rewrite !pick_lt, Ca, Cb.
Qed.

Lemma scalar_scalar (f : fval → fval → fval) a b va vb :
  is_scalar a va → is_scalar b vb →
  ∃ t, broadcast2 f a b = Ok t ∧ is_scalar t (f va vb).
Proof.
  intros [Sa Ca] [Sb Cb]. eexists. split.
  - apply broadcast2_ok. rewrite Sa, Sb. apply broadcast_shapes_refl.
  - split; [done|]. cbn [cell]. rewrite Sa, Sb. cbn. by rewrite Ca, Cb.
Qed.

Lemma tmap_vec (f : fval → fval) a n va :
  is_vec a n va → is_vec (tmap f a) n (λ i, f (va i)).
Proof. intros [Sa Ca]. split; [done|]. intros i Hi. cbn. by rewrite Ca. Qed.

Lemma tmap_scalar (f : fval → fval) a va :
  is_scalar a va → is_scalar (tmap f a) (f va).
Proof. intros [Sa Ca]. split; [done|]. cbn. by rewrite Ca. Qed.

Lemma sum_all_vec a n va :
  is_vec a n va → is_scalar (sum_all a) (fsum (va <$> seq 0 n)).
Proof.
  intros [Sa Ca]. split; [done|]. cbn. rewrite Sa, indices_vec_map.
  apply fsum_ext. intros k Hk%elem_of_seq. apply Ca. lia.
Qed.

Lemma getitem_vec a n va i :
  is_vec a n va → i < n →
  ∃ t, getitem a i = Ok t ∧ is_scalar t (va i).
Proof.
  intros [Sa Ca] Hi. unfold getitem. rewrite Sa.
  destruct (Nat.ltb_spec i n); [|lia]. eexists. split; [done|].
  split; [done|]. cbn. by apply Ca.
Qed.

Lemma item_scalar (a : tensor fval) va : is_scalar a va → item a = Ok va.
Proof. intros [Sa Ca]. unfold item. rewrite Sa. cbn. by rewrite Ca. Qed.

(** The reductions of a square matrix. *)
Context (cm : tensor fval) (n : nat) (Hcm : shape cm = [n; n]).

Lemma sum_rows : ∃ t, sum_dim 1 cm = Ok t ∧ is_vec t n (Spec.gt_count cm n).
Proof. unfold sum_dim. rewrite Hcm. cbn. eexists. by split. Qed.

Lemma sum_cols : ∃ t, sum_dim 0 cm = Ok t ∧ is_vec t n (Spec.pred_count cm n).
Proof. unfold sum_dim. rewrite Hcm. cbn. eexists. by split. Qed.

Lemma sum_all_square : is_scalar (sum_all cm) (Spec.total cm n).
Proof. split; [done|]. unfold Spec.total. cbn [sum_all scalar cell]. by rewrite Hcm. Qed.

Lemma diag_square : ∃ t, diag cm = Ok t ∧ is_vec t n (Spec.true_pos cm).
Proof.
  unfold diag. rewrite Hcm, Nat.min_id. eexists. by split.
Qed.

End Vectors.

(** *** The confusion matrix of two vectors of labels *)

(** On vectors the broadcast comparisons line up: a cell of the result is
    the sum over the positions. *)
Lemma compute_conf_mat_vec (out y : tensor Z) (n : nat) (num_labels : Z) :
  shape out = [n] → shape y = [n] → (0 ≤ num_labels)%Z →
  ∃ cm, compute_conf_mat out y num_labels = Ok cm ∧
    shape cm = [Z.to_nat num_labels; Z.to_nat num_labels] ∧
    ∀ g p, g < Z.to_nat num_labels → p < Z.to_nat num_labels →
      cell cm [g; p] = fsum ((λ k, of_bool (hit out y g p k)) <$> seq 0 n).
Proof.
  intros Ho Hy HL. rename num_labels into L.
  unfold compute_conf_mat, Torch.arange.
  destruct (Z.ltb_spec L 0); [lia|]. cbn [mbind result_bind].
  unfold Torch.eq, Torch.and.
  rewrite (broadcast2_ok _ out _ [Z.to_nat L; n])
    by (rewrite Ho; apply broadcast_shapes_vec_col).
  cbn [mbind result_bind].
  rewrite (broadcast2_ok _ y _ [Z.to_nat L; 1; n])
    by (rewrite Hy; apply broadcast_shapes_vec_col2).
  cbn [mbind result_bind].
  rewrite (broadcast2_ok _ _ _ [Z.to_nat L; Z.to_nat L; n])
    by apply broadcast_shapes_cube.
  cbn [mbind result_bind].
  eexists. split; [reflexivity|]. split; [reflexivity|].
  intros g p Hg Hp. rewrite Ho, Hy. cbn.
  rewrite !(pick_lt g), !(pick_lt p) by done.
  apply fsum_ext. intros k Hk%elem_of_seq. unfold hit.
  by rewrite !(pick_lt k) by lia.
Qed.





(** *** Running computations in a store *)

Lemma extends_refl s : extends s s.
Proof. by intros l o. Qed.

Lemma extends_snoc s o : extends s (s ++ [o]).
Proof. intros l o' H. by apply lookup_app_l_Some. Qed.

Lemma lookup_snoc_new (s : store) o : (s ++ [o]) !! length s = Some o.
Proof. by rewrite lookup_app_r, Nat.sub_diag. Qed.

Lemma holds_vec_extends s s' r n v :
  extends s s' → holds_vec s r n v → holds_vec s' r n v.
Proof. intros E (t & H & V). exists t. split; [by apply E|done]. Qed.

Lemma holds_scalar_extends s s' r v :
  extends s s' → holds_scalar s r v → holds_scalar s' r v.
Proof. intros E (t & H & V). exists t. split; [by apply E|done]. Qed.

Lemma wp_bind {A B} (m : M A) (f : A → M B) s (Q : B → store → Prop) :
  wp m s (λ a s', wp (f a) s' Q) → wp (m ≫= f) s Q.
Proof.
  intros (a & s' & Hm & b & s'' & Hf & HQ). exists b, s''. split; [|done].
  unfold mbind, M_bind. by rewrite Hm.
Qed.

Lemma bind_run {A B} (m : M A) (f : A → M B) s a s1 :
  m s = (Ok a, s1) → (m ≫= f) s = f a s1.
Proof. intros H. unfold mbind, M_bind. by rewrite H. Qed.

Lemma wp_alloc o s (Q : loc → store → Prop) :
  (∀ r s', extends s s' → s' !! r = Some o → Q r s') → wp (alloc o) s Q.
Proof.
  intros H. eexists _, _. split; [done|].
  apply H; [apply extends_snoc|apply lookup_snoc_new].
Qed.

Lemma wp_unop f r s d t t' (Q : loc → store → Prop) :
  s !! r = Some (OTensor d t) → f t = Ok t' →
  (∀ r' s', extends s s' → s' !! r' = Some (OTensor d t') → Q r' s') →
  wp (TorchS.unop f r) s Q.
Proof.
  intros Hr Hf HQ. eexists _, _. split.
  - unfold TorchS.unop, read_tensor, lift, alloc, mbind, M_bind.
    by rewrite Hr, Hf.
  - apply HQ; [apply extends_snoc|apply lookup_snoc_new].
Qed.

Lemma wp_binop f a b s ta tb t (Q : loc → store → Prop) :
  s !! a = Some (OTensor CPU ta) → s !! b = Some (OTensor CPU tb) →
  f ta tb = Ok t →
  (∀ r s', extends s s' → s' !! r = Some (OTensor CPU t) → Q r s') →
  wp (TorchS.binop f a b) s Q.
Proof.
  intros Ha Hb Hf HQ. eexists _, _. split.
  - unfold TorchS.binop, read_tensor, lift, alloc, mbind, M_bind.
    rewrite Ha, Hb. cbn. by rewrite Hf.
  - apply HQ; [apply extends_snoc|apply lookup_snoc_new].
Qed.

Section StoreVectors.

Context (s : store) (Q : loc → store → Prop).

Lemma wp_vec_vec (f : fval → fval → fval) a b n va vb :
  holds_vec s a n va → holds_vec s b n vb →
  (∀ r s', extends s s' → holds_vec s' r n (λ i, f (va i) (vb i)) → Q r s') →
  wp (TorchS.binop (Torch.broadcast2 f) a b) s Q.
Proof.
  intros (ta & Ha & Va) (tb & Hb & Vb) HQ.
  destruct (vec_vec f _ _ _ _ _ Va Vb) as (t & Ht & Vt).
  eapply wp_binop; [done..|]. intros r s' E Hr. apply HQ; [done|]. by exists t.
Qed.

Lemma wp_vec_scalar (f : fval → fval → fval) a b n va vb :
  holds_vec s a n va → holds_scalar s b vb →
  (∀ r s', extends s s' → holds_vec s' r n (λ i, f (va i) vb) → Q r s') →
  wp (TorchS.binop (Torch.broadcast2 f) a b) s Q.
Proof.
  intros (ta & Ha & Va) (tb & Hb & Vb) HQ.
  destruct (vec_scalar f _ _ _ _ _ Va Vb) as (t & Ht & Vt).
  eapply wp_binop; [done..|]. intros r s' E Hr. apply HQ; [done|]. by exists t.
Qed.

Lemma wp_scalar_scalar (f : fval → fval → fval) a b va vb :
  holds_scalar s a va → holds_scalar s b vb →
  (∀ r s', extends s s' → holds_scalar s' r (f va vb) → Q r s') →
  wp (TorchS.binop (Torch.broadcast2 f) a b) s Q.
Proof.
  intros (ta & Ha & Va) (tb & Hb & Vb) HQ.
  destruct (scalar_scalar f _ _ _ _ Va Vb) as (t & Ht & Vt).
  eapply wp_binop; [done..|]. intros r s' E Hr. apply HQ; [done|]. by exists t.
Qed.

Lemma wp_rmul_vec k a n va :
  holds_vec s a n va →
  (∀ r s', extends s s' → holds_vec s' r n (λ i, fmul (of_Z k) (va i)) → Q r s') →
  wp (TorchS.rmul k a) s Q.
Proof.
  intros (ta & Ha & Va) HQ. eapply wp_unop; [done..|].
  intros r s' E Hr. apply HQ; [done|]. eexists. split; [done|].
  by apply tmap_vec.
Qed.

Lemma wp_rmul_scalar k a va :
  holds_scalar s a va →
  (∀ r s', extends s s' → holds_scalar s' r (fmul (of_Z k) va) → Q r s') →
  wp (TorchS.rmul k a) s Q.
Proof.
  intros (ta & Ha & Va) HQ. eapply wp_unop; [done..|].
  intros r s' E Hr. apply HQ; [done|]. eexists. split; [done|].
  by apply tmap_scalar.
Qed.

Lemma wp_sum_vec a n va :
  holds_vec s a n va →
  (∀ r s', extends s s' → holds_scalar s' r (fsum (va <$> seq 0 n)) → Q r s') →
  wp (TorchS.sum a) s Q.
Proof.
  intros (ta & Ha & Va) HQ. eapply wp_unop; [done..|].
  intros r s' E Hr. apply HQ; [done|]. eexists. split; [done|].
  by apply sum_all_vec.
Qed.

Lemma wp_getitem a n va i :
  holds_vec s a n va → i < n →
  (∀ r s', extends s s' → holds_scalar s' r (va i) → Q r s') →
  wp (TorchS.getitem a i) s Q.
Proof.
  intros (ta & Ha & Va) Hi HQ.
  destruct (getitem_vec _ _ _ _ Va Hi) as (t & Ht & Vt).
  eapply wp_unop; [done..|]. intros r s' E Hr. apply HQ; [done|]. by exists t.
Qed.

End StoreVectors.

Lemma wp_item s a va (Q : fval → store → Prop) :
  holds_scalar s a va → Q va s → wp (TorchS.item a) s Q.
Proof.
  intros (ta & Ha & Va) HQ. exists va, s. split; [|done].
  unfold TorchS.item, read_tensor, lift, mbind, M_bind.
  by rewrite Ha, (item_scalar _ _ Va).
Qed.

Lemma wp_cpu s r d t (Q : loc → store → Prop) :
  s !! r = Some (OTensor d t) →
  (∀ r' s', extends s s' → s' !! r' = Some (OTensor CPU t) → Q r' s') →
  wp (TorchS.cpu r) s Q.
Proof.
  intros Hr HQ. unfold TorchS.cpu, wp, read_tensor, mbind, M_bind. rewrite Hr.
  destruct d; cbn.
  - eexists _, _. split; [done|]. apply HQ; [apply extends_refl|done].
  - eexists _, _. split; [done|].
    apply HQ; [apply extends_snoc|apply lookup_snoc_new].
Qed.


Lemma wp_tensor v s (Q : loc → store → Prop) :
  (∀ r s', extends s s' → holds_scalar s' r v → Q r s') →
  wp (TorchS.tensor v) s Q.
Proof.
  intros HQ. apply wp_alloc. intros r s' E Hr. apply HQ; [done|].
  by eexists.
Qed.

Section StoreMatrix.

Context (s : store) (conf_mat : loc) (cm : tensor fval) (n : nat).
Context (Hcm : s !! conf_mat = Some (OTensor CPU cm)).
Context (Hshape : shape cm = [n; n]).
Context (Q : loc → store → Prop).

Lemma wp_sum_rows :
  (∀ r s', extends s s' → holds_vec s' r n (Spec.gt_count cm n) → Q r s') →
  wp (TorchS.sum_dim 1 conf_mat) s Q.
Proof.
  intros HQ. destruct (sum_rows cm n Hshape) as (t & Ht & Vt).
  eapply wp_unop; [done..|]. intros r s' E Hr. apply HQ; [done|]. by exists t.
Qed.

Lemma wp_sum_cols :
  (∀ r s', extends s s' → holds_vec s' r n (Spec.pred_count cm n) → Q r s') →
  wp (TorchS.sum_dim 0 conf_mat) s Q.
Proof.
  intros HQ. destruct (sum_cols cm n Hshape) as (t & Ht & Vt).
  eapply wp_unop; [done..|]. intros r s' E Hr. apply HQ; [done|]. by exists t.
Qed.

Lemma wp_sum_square :
  (∀ r s', extends s s' → holds_scalar s' r (Spec.total cm n) → Q r s') →
  wp (TorchS.sum conf_mat) s Q.
Proof.
  intros HQ. eapply wp_unop; [done..|]. intros r s' E Hr. apply HQ; [done|].
  eexists. split; [done|]. by apply sum_all_square.
Qed.

Lemma wp_diag :
  (∀ r s', extends s s' → holds_vec s' r n (Spec.true_pos cm) → Q r s') →
  wp (TorchS.diag conf_mat) s Q.
Proof.
  intros HQ. destruct (diag_square cm n Hshape) as (t & Ht & Vt).
  eapply wp_unop; [done..|]. intros r s' E Hr. apply HQ; [done|]. by exists t.
Qed.

End StoreMatrix.

(** *** The run of [compute_conf_mat_metrics] on a square matrix *)

Lemma wp_dict_update s m o d d' (Q : unit → store → Prop) :
  s !! m = Some (ODict d) → s !! o = Some (ODict d') →
  Q () (<[m := ODict (d' ∪ d)]> s) →
  wp (dict_update m o) s Q.
Proof.
  intros Hm Ho HQ. exists (), (<[m := ODict (d' ∪ d)]> s). split; [|done].
  unfold dict_update, read_dict, write, mbind, M_bind. by rewrite Hm, Ho.
Qed.

Lemma holds_vec_insert s r n v m d o :
  holds_vec s r n v → s !! m = Some (ODict d) →
  holds_vec (<[m := o]> s) r n v.
Proof.
  intros (t & Hr & V) Hm. exists t. split; [|done].
  rewrite list_lookup_insert_ne; [done|]. intros ->. congruence.
Qed.

Ltac forward E :=
  repeat match goal with
  | H : holds_vec ?s _ _ _, E' : extends ?s _ |- _ =>
      constr_eq E E'; apply (holds_vec_extends _ _ _ _ _ E) in H
  | H : holds_scalar ?s _ _, E' : extends ?s _ |- _ =>
      constr_eq E E'; apply (holds_scalar_extends _ _ _ _ E) in H
  | H : ?s !! _ = Some _, E' : extends ?s _ |- _ =>
      constr_eq E E'; apply E in H
  end; clear E.

Section Loop.

Context (precision recall f1 metrics : loc) (n : nat) (vp vr vf : nat → fval).

Let entries (i : nat) (label : string) : gmap string fval :=
  dict_of [(precision_key label, vp i); (recall_key label, vr i);
           (f1_key label, vf i)].

Lemma loop_run names : ∀ k s d,
  holds_vec s precision n vp → holds_vec s recall n vr →
  holds_vec s f1 n vf → s !! metrics = Some (ODict d) →
  k + length names ≤ n →
  ∃ s', for_each (λ '(ind, label),
            p ← (x ← TorchS.getitem precision ind; TorchS.item x);
            r ← (x ← TorchS.getitem recall ind; TorchS.item x);
            f ← (x ← TorchS.getitem f1 ind; TorchS.item x);
            other ← new_dict [(precision_key label, p);
                              (recall_key label, r);
                              (f1_key label, f)];
            dict_update metrics other)
          (zip (seq k (length names)) names) s = (Ok (), s') ∧
        s' !! metrics =
          Some (ODict (foldl (λ d e, entries e.1 e.2 ∪ d) d
                             (zip (seq k (length names)) names))).
Proof.
  induction names as [|label names IH]; intros k s d HP HR HF Hm Hk.
  - by exists s.
  - cbn [length seq zip zip_with for_each foldl] in *.
    match goal with |- ∃ s', (?b ≫= ?rest) s = _ ∧ @?G s' =>
      assert (wp b s (λ _ s1,
        holds_vec s1 precision n vp ∧ holds_vec s1 recall n vr ∧
        holds_vec s1 f1 n vf ∧
        s1 !! metrics = Some (ODict (entries k label ∪ d)))) as Hbody
    end.
    { cbn beta iota.
      apply wp_bind, wp_bind. eapply wp_getitem; [done|lia|]. intros x s1 E Hx.
      forward E. eapply wp_item; [done|].
      apply wp_bind, wp_bind. eapply wp_getitem; [done|lia|]. intros y s2 E Hy.
      forward E. eapply wp_item; [done|].
      apply wp_bind, wp_bind. eapply wp_getitem; [done|lia|]. intros z s3 E Hz.
      forward E. eapply wp_item; [done|].
      apply wp_bind, wp_alloc. intros o s4 E Ho. forward E.
      eapply wp_dict_update; [done..|].
      repeat split; try by eapply holds_vec_insert.
      apply list_lookup_insert_eq. by eapply lookup_lt_Some. }
    destruct Hbody as ([] & s1 & Hrun & HP1 & HR1 & HF1 & Hm1).
    destruct (IH (S k) s1 _ HP1 HR1 HF1 Hm1) as (s' & Hrest & Hm'); [lia|].
    exists s'. split; [|done]. by erewrite bind_run by exact Hrun.
Qed.

End Loop.

Lemma metrics_run s conf_mat dev cm n names eps :
  s !! conf_mat = Some (OTensor dev cm) → shape cm = [n; n] →
  length names ≤ n →
  wp (compute_conf_mat_metrics conf_mat names eps) s
     (λ metrics s', s' !! metrics = Some (ODict (Spec.report cm n eps names))).
Proof.
  intros Hcm Hshape Hlen. unfold compute_conf_mat_metrics.
  apply wp_bind, wp_tensor. intros eps_t s1 E Heps. forward E.
  apply wp_bind. eapply wp_cpu; [done|]. intros cpu_mat s2 E Hcpu. forward E.
  clear Hcm.
  apply wp_bind. eapply wp_sum_rows; [done..|]. intros gt_count s3 E Hgt.
  forward E.
  apply wp_bind. eapply wp_sum_cols; [done..|]. intros pred_count s4 E Hpred.
  forward E.
  apply wp_bind. eapply wp_sum_square; [done..|]. intros total s5 E Htot.
  forward E.
  apply wp_bind. eapply wp_diag; [done..|]. intros true_pos s6 E Htp.
  forward E. clear Hcpu.
  (* precision *)
  apply wp_bind, wp_bind. eapply wp_vec_scalar; [done..|]. intros m1 s7 E Hm1.
  forward E. eapply wp_vec_vec; [done..|]. intros precision s8 E Hprec.
  forward E. clear Hm1.
  (* recall *)
  apply wp_bind, wp_bind. eapply wp_vec_scalar; [done..|]. intros m2 s9 E Hm2.
  forward E. eapply wp_vec_vec; [done..|]. intros recall s10 E Hrec.
  forward E. clear Hm2.
  (* f1 *)
  apply wp_bind, wp_bind. eapply wp_rmul_vec; [done|]. intros a1 s11 E Ha1.
  forward E. apply wp_bind. eapply wp_vec_vec; [done..|]. intros b1 s12 E Hb1.
  forward E. apply wp_bind. eapply wp_vec_vec; [exact Hprec|exact Hrec|].
  intros c1 s13 E Hc1.
  forward E. apply wp_bind. eapply wp_vec_scalar; [done..|]. intros d1 s14 E Hd1.
  forward E. eapply wp_vec_vec; [exact Hb1|exact Hd1|]. intros f1 s15 E Hf1.
  forward E. clear Ha1 Hb1 Hc1 Hd1.
  (* weights and the weighted averages *)
  apply wp_bind. eapply wp_vec_scalar; [exact Hgt|exact Htot|].
  intros weights s16 E Hw. forward E.
  apply wp_bind, wp_bind. eapply wp_vec_vec; [exact Hw|exact Hprec|].
  intros a2 s17 E Ha2. forward E. eapply wp_sum_vec; [done|].
  intros wprec s18 E Hwp. forward E. clear Ha2.
  apply wp_bind, wp_bind. eapply wp_vec_vec; [exact Hw|exact Hrec|].
  intros a3 s19 E Ha3. forward E. eapply wp_sum_vec; [done|].
  intros wrec s20 E Hwr. forward E. clear Ha3.
  apply wp_bind, wp_bind. eapply wp_rmul_scalar; [exact Hwp|].
  intros a4 s21 E Ha4. forward E.
  apply wp_bind. eapply wp_scalar_scalar; [exact Ha4|exact Hwr|].
  intros b4 s22 E Hb4. forward E.
  apply wp_bind. eapply wp_scalar_scalar; [exact Hwp|exact Hwr|].
  intros c4 s23 E Hc4. forward E.
  apply wp_bind. eapply wp_scalar_scalar; [exact Hc4|exact Heps|].
  intros d4 s24 E Hd4. forward E.
  eapply wp_scalar_scalar; [exact Hb4|exact Hd4|].
  intros wf1 s25 E Hwf. forward E. clear Ha4 Hb4 Hc4 Hd4.
  (* the dictionary *)
  apply wp_bind. eapply wp_item; [exact Hwp|].
  apply wp_bind. eapply wp_item; [exact Hwr|].
  apply wp_bind. eapply wp_item; [exact Hwf|].
  apply wp_bind, wp_alloc. intros metrics s26 E Hmet. forward E.
  destruct (loop_run precision recall f1 metrics n _ _ _ names 0 s26 _
              Hprec Hrec Hf1 Hmet Hlen) as (s' & Hloop & Hfinal).
  exists metrics, s'. split; [|exact Hfinal].
  by erewrite bind_run by exact Hloop.
Qed.

(** *** The keys of the report *)

Section Keys.

Lemma list_ascii_app (a b : string) :
  Strings.String.list_ascii_of_string (a +:+ b) =
    Strings.String.list_ascii_of_string a ++ Strings.String.list_ascii_of_string b.
Proof. induction a as [|c a IH]; [done|]. simpl. f_equal. exact IH. Qed.

Lemma list_ascii_inj (a b : string) :
  Strings.String.list_ascii_of_string a = Strings.String.list_ascii_of_string b → a = b.
Proof.
  intros E. rewrite <- (Strings.String.string_of_list_ascii_of_string a),
    <- (Strings.String.string_of_list_ascii_of_string b). by rewrite E.
Qed.

Lemma suffix_inj (suf a b : string) : a +:+ suf = b +:+ suf → a = b.
Proof.
  intros E%(f_equal Strings.String.list_ascii_of_string). rewrite !list_ascii_app in E.
  by apply app_inv_tail, list_ascii_inj in E.
Qed.

Lemma suffix_last (a suf : string) c l :
  Strings.String.list_ascii_of_string suf = c :: l →
  last (Strings.String.list_ascii_of_string (a +:+ suf)) = last (c :: l).
Proof. intros E. by rewrite list_ascii_app, E, last_app_cons. Qed.

Ltac last_differs :=
  let E := fresh in
  intros E%(f_equal (λ s, last (Strings.String.list_ascii_of_string s)));
  cbn beta in E;
  erewrite !suffix_last in E by reflexivity; discriminate E.

Lemma precision_key_inj a b : precision_key a = precision_key b → a = b.
Proof. apply suffix_inj. Qed.
Lemma recall_key_inj a b : recall_key a = recall_key b → a = b.
Proof. apply suffix_inj. Qed.
Lemma f1_key_inj a b : f1_key a = f1_key b → a = b.
Proof. apply suffix_inj. Qed.

Lemma precision_recall_key a b : precision_key a ≠ recall_key b.
Proof. unfold precision_key, recall_key. last_differs. Qed.
Lemma precision_f1_key a b : precision_key a ≠ f1_key b.
Proof. unfold precision_key, f1_key. last_differs. Qed.
Lemma recall_f1_key a b : recall_key a ≠ f1_key b.
Proof. unfold recall_key, f1_key. last_differs. Qed.

End Keys.

Lemma label_keys_elem k a :
  k ∈ label_keys a ↔ k = precision_key a ∨ k = recall_key a ∨ k = f1_key a.
Proof.
  unfold label_keys. rewrite !elem_of_union, !elem_of_singleton. tauto.
Qed.

Lemma label_keys_disjoint a b : a ≠ b → label_keys a ## label_keys b.
Proof.
  intros Hab k [-> | [-> | ->]]%label_keys_elem [E|[E|E]]%label_keys_elem.
  - by apply Hab, precision_key_inj.
  - by eapply precision_recall_key.
  - by eapply precision_f1_key.
  - by eapply precision_recall_key.
  - by apply Hab, recall_key_inj.
  - by eapply recall_f1_key.
  - by eapply precision_f1_key.
  - by eapply recall_f1_key.
  - by apply Hab, f1_key_inj.
Qed.

Lemma label_keys_size a : size (label_keys a) = 3.
Proof.
  pose proof (precision_recall_key a a). pose proof (precision_f1_key a a).
  pose proof (recall_f1_key a a).
  unfold label_keys. rewrite !size_union, !size_singleton by set_solver. done.
Qed.

(** The keys of a list of labels, counted. *)
Lemma label_keys_union_size (labels : list string) :
  size (⋃ (label_keys <$> labels)) = 3 * length (remove_dups labels).
Proof.
  induction labels as [|a labels IH]; [done|].
  rewrite fmap_cons, union_list_cons. cbn [remove_dups].
  destruct (decide_rel elem_of a labels) as [Hin|Hin].
  - rewrite <- IH. f_equal. apply leibniz_equiv, subseteq_union_1.
    intros k Hk. apply elem_of_union_list. exists (label_keys a).
    split; [|done]. by apply list_elem_of_fmap_2.
  - rewrite size_union, label_keys_size, IH; [cbn; lia|].
    intros k Hk (X & (b & -> & Hb)%list_elem_of_fmap & HX)%elem_of_union_list.
    assert (a ≠ b) as Hne by by intros ->.
    by apply (proj1 (elem_of_disjoint _ _) (label_keys_disjoint a b Hne) k).
Qed.

(** *** The entries of the report *)

Section Report.

Context (cm : tensor fval) (n : nat) (eps : fval).

Local Abbreviation entries := (Spec.label_entries cm n eps).

Lemma label_entries_dom i a : dom (entries i a) = label_keys a.
Proof.
  unfold Spec.label_entries, dict_of, label_keys. cbn [foldl fst snd].
  rewrite !dom_insert_L, dom_empty_L. set_solver.
Qed.

Lemma avg_entries_dom : dom (Spec.avg_entries cm n eps) = label_keys "avg".
Proof.
  unfold Spec.avg_entries, dict_of, label_keys. cbn [foldl fst snd].
  rewrite !dom_insert_L, dom_empty_L. set_solver.
Qed.

Ltac key_neq :=
  let E := fresh in
  intros E; first
    [ by eapply precision_recall_key | by eapply precision_f1_key
    | by eapply recall_f1_key
    | symmetry in E; first
        [ by eapply precision_recall_key | by eapply precision_f1_key
        | by eapply recall_f1_key ] ].

Lemma label_entries_precision i a :
  entries i a !! precision_key a = Some (Spec.precision cm n eps i).
Proof.
  unfold Spec.label_entries, dict_of. cbn [foldl fst snd].
  by rewrite !lookup_insert_ne, lookup_insert_eq by key_neq.
Qed.

Lemma label_entries_recall i a :
  entries i a !! recall_key a = Some (Spec.recall cm n eps i).
Proof.
  unfold Spec.label_entries, dict_of. cbn [foldl fst snd].
  by rewrite lookup_insert_ne, lookup_insert_eq by key_neq.
Qed.

Lemma label_entries_f1 i a :
  entries i a !! f1_key a = Some (Spec.f1 cm n eps i).
Proof.
  unfold Spec.label_entries, dict_of. cbn [foldl fst snd].
  by rewrite lookup_insert_eq.
Qed.

(** The loop from index [k] on, started on the dictionary [d]. *)
Let run_from (k : nat) (names : list string) (d : gmap string fval) :=
  foldl (λ d e, entries e.1 e.2 ∪ d) d (zip (seq k (length names)) names).

Lemma run_from_cons k a names d :
  run_from k (a :: names) d = run_from (S k) names (entries k a ∪ d).
Proof. done. Qed.

Lemma run_from_dom names : ∀ k d,
  dom (run_from k names d) = ⋃ (label_keys <$> names) ∪ dom d.
Proof.
  induction names as [|a names IH]; intros k d.
  - cbn. set_solver.
  - rewrite run_from_cons, IH, dom_union_L, label_entries_dom, fmap_cons,
      union_list_cons. set_solver.
Qed.

(** A key that no label of [names] writes keeps its entry. *)
Lemma run_from_other names key : ∀ k d,
  (∀ a, a ∈ names → key ∉ label_keys a) →
  run_from k names d !! key = d !! key.
Proof.
  induction names as [|a names IH]; intros k d Hkey; [done|].
  rewrite run_from_cons, IH by (intros; apply Hkey; by right).
  apply lookup_union_r, not_elem_of_dom. rewrite label_entries_dom.
  apply Hkey. by left.
Qed.

(** What the last occurrence of a label writes stays. *)
Lemma run_from_last names key (v : nat → fval) :
  (∀ i a, entries i a !! key a = Some (v i)) →
  (∀ a b, key a ∈ label_keys b → a = b) →
  ∀ k d i a, names !! i = Some a →
    (∀ j, i < j → names !! j ≠ Some a) →
    run_from k names d !! key a = Some (v (k + i)).
Proof.
  intros Hval Hkey. induction names as [|b names IH]; intros k d i a Hi Hlast.
  - done.
  - rewrite run_from_cons. destruct i as [|i]; cbn in Hi.
    + injection Hi as ->. rewrite run_from_other.
      * rewrite Nat.add_0_r. by apply lookup_union_Some_l.
      * intros c Hc Hin. apply Hkey in Hin as <-.
        apply list_elem_of_lookup in Hc as [j Hj].
        by apply (Hlast (S j)); [lia|].
    + rewrite (IH _ _ i a Hi); [f_equal; f_equal; lia|].
      intros j Hj. apply (Hlast (S j)). lia.
Qed.

Lemma report_dom names :
  dom (Spec.report cm n eps names) = ⋃ (label_keys <$> "avg" :: names).
Proof.
  unfold Spec.report, enumerate. fold (run_from 0 names (Spec.avg_entries cm n eps)).
  rewrite run_from_dom, avg_entries_dom, fmap_cons, union_list_cons. set_solver.
Qed.

Lemma report_size names :
  size (Spec.report cm n eps names) = 3 * length (remove_dups ("avg" :: names)).
Proof. by rewrite <- size_dom, report_dom, label_keys_union_size. Qed.

Lemma report_precision names i a :
  names !! i = Some a → (∀ j, i < j → names !! j ≠ Some a) →
  Spec.report cm n eps names !! precision_key a = Some (Spec.precision cm n eps i).
Proof.
  intros Hi Hlast. unfold Spec.report, enumerate.
  apply (run_from_last names precision_key (Spec.precision cm n eps)
           label_entries_precision) with (k := 0); [|done..].
  intros x y [?|[?|?]]%label_keys_elem.
  - by apply precision_key_inj.
  - by destruct (precision_recall_key x y).
  - by destruct (precision_f1_key x y).
Qed.

Lemma report_recall names i a :
  names !! i = Some a → (∀ j, i < j → names !! j ≠ Some a) →
  Spec.report cm n eps names !! recall_key a = Some (Spec.recall cm n eps i).
Proof.
  intros Hi Hlast. unfold Spec.report, enumerate.
  apply (run_from_last names recall_key (Spec.recall cm n eps)
           label_entries_recall) with (k := 0); [|done..].
  intros x y [?|[?|?]]%label_keys_elem.
  - by destruct (precision_recall_key y x).
  - by apply recall_key_inj.
  - by destruct (recall_f1_key x y).
Qed.

Lemma report_f1 names i a :
  names !! i = Some a → (∀ j, i < j → names !! j ≠ Some a) →
  Spec.report cm n eps names !! f1_key a = Some (Spec.f1 cm n eps i).
Proof.
  intros Hi Hlast. unfold Spec.report, enumerate.
  apply (run_from_last names f1_key (Spec.f1 cm n eps)
           label_entries_f1) with (k := 0); [|done..].
  intros x y [?|[?|?]]%label_keys_elem.
  - by destruct (precision_f1_key y x).
  - by destruct (recall_f1_key y x).
  - by apply f1_key_inj.
Qed.

(** The aggregate entries stay when no label is named [avg]. *)
Lemma report_avg names key :
  "avg" ∉ names → key ∈ label_keys "avg" →
  Spec.report cm n eps names !! key = Spec.avg_entries cm n eps !! key.
Proof.
  intros Havg Hkey. unfold Spec.report, enumerate.
  apply (run_from_other names key 0). intros a Ha Hin.
  destruct (decide (a = "avg")) as [->|Hne]; [done|].
  by apply (proj1 (elem_of_disjoint _ _) (label_keys_disjoint a "avg" Hne) key).
Qed.

End Report.

(** *** What a computation leaves untouched *)

Section Frames.

Context (b : nat).

Lemma frames_ret {A} (a : A) (P : A → Prop) : P a → frames b (mret a) P.
Proof. intros Ha s Hs. repeat split; [done|]. by intros ? [= <-]. Qed.

Lemma frames_lift {A} (r : result A) : frames b (lift r) (λ _, True).
Proof. by intros s Hs. Qed.

Lemma frames_weaken {A} (m : M A) (P P' : A → Prop) :
  frames b m P → (∀ a, P a → P' a) → frames b m P'.
Proof.
  intros Hm HP s Hs. destruct (Hm s Hs) as (? & ? & ?). eauto.
Qed.

Lemma frames_bind {A B} (m : M A) (f : A → M B) (P : A → Prop) (Q : B → Prop) :
  frames b m P → (∀ a, P a → frames b (f a) Q) → frames b (m ≫= f) Q.
Proof.
  intros Hm Hf s Hs. destruct (Hm s Hs) as (Hlen & Hkeep & HP).
  unfold mbind, M_bind. destruct (m s) as [[a|e] s1]; cbn in *.
  - destruct (Hf a (HP a eq_refl) s1 Hlen) as (Hlen' & Hkeep' & HQ).
    repeat split; [done| |done]. intros l Hl. by rewrite Hkeep', Hkeep.
  - done.
Qed.

Lemma frames_alloc o : frames b (alloc o) (λ r, b ≤ r).
Proof.
  intros s Hs. cbn. repeat split.
  - rewrite length_app. lia.
  - intros l Hl. apply lookup_app_l. lia.
  - by intros ? [= <-].
Qed.

Lemma frames_read_tensor r : frames b (read_tensor r) (λ _, True).
Proof. intros s Hs. unfold read_tensor. by destruct (s !! r) as [[]|]. Qed.

Lemma frames_read_dict r : frames b (read_dict r) (λ _, True).
Proof. intros s Hs. unfold read_dict. by destruct (s !! r) as [[]|]. Qed.

Lemma frames_write r o : b ≤ r → frames b (write r o) (λ _, True).
Proof.
  intros Hr s Hs. cbn. repeat split.
  - by rewrite length_insert.
  - intros l Hl. apply list_lookup_insert_ne. lia.
Qed.

Lemma frames_unop f r : frames b (TorchS.unop f r) (λ _, True).
Proof.
  eapply frames_bind; [apply frames_read_tensor|]. intros [d t] _.
  eapply frames_bind; [apply frames_lift|]. intros t' _.
  eapply frames_weaken; [apply frames_alloc|done].
Qed.

Lemma frames_binop f x y : frames b (TorchS.binop f x y) (λ _, True).
Proof.
  eapply frames_bind; [apply frames_read_tensor|]. intros [da ta] _.
  eapply frames_bind; [apply frames_read_tensor|]. intros [db tb] _.
  eapply frames_bind; [apply frames_lift|]. intros d _.
  eapply frames_bind; [apply frames_lift|]. intros t _.
  eapply frames_weaken; [apply frames_alloc|done].
Qed.

Lemma frames_item r : frames b (TorchS.item r) (λ _, True).
Proof.
  eapply frames_bind; [apply frames_read_tensor|]. intros [d t] _.
  apply frames_lift.
Qed.

Lemma frames_cpu r : frames b (TorchS.cpu r) (λ _, True).
Proof.
  eapply frames_bind; [apply frames_read_tensor|]. intros [[|i] t] _.
  - by apply frames_ret.
  - eapply frames_weaken; [apply frames_alloc|done].
Qed.

Lemma frames_dict_update d other :
  b ≤ d → frames b (dict_update d other) (λ _, True).
Proof.
  intros Hd.
  eapply frames_bind; [apply frames_read_dict|]. intros old _.
  eapply frames_bind; [apply frames_read_dict|]. intros new _.
  by apply frames_write.
Qed.

Lemma frames_for_each {A} (body : A → M unit) l :
  (∀ x, frames b (body x) (λ _, True)) →
  frames b (for_each body l) (λ _, True).
Proof.
  intros Hbody. induction l as [|x l IH]; [by apply frames_ret|].
  eapply frames_bind; [apply Hbody|]. by intros.
Qed.

Ltac frames_step :=
  lazymatch goal with
  | |- frames _ (mbind _ _) _ => eapply frames_bind; [|intros ? ?]
  | |- frames _ (for_each _ _) _ =>
      apply frames_for_each; intros [? ?]; cbv beta iota
  | |- frames _ (mret _) _ => by apply frames_ret
  | |- frames _ (dict_update _ _) _ => by apply frames_dict_update
  | |- frames _ _ _ =>
      first [ apply frames_alloc | apply frames_unop | apply frames_binop
            | apply frames_item | apply frames_cpu ]
  end.

Lemma frames_metrics conf_mat names eps :
  frames b (compute_conf_mat_metrics conf_mat names eps) (λ _, True).
Proof. unfold compute_conf_mat_metrics. repeat frames_step. Qed.

(** The dictionary a call returns is a new object. *)
Lemma frames_metrics_fresh conf_mat names eps :
  frames b (compute_conf_mat_metrics conf_mat names eps) (λ r, b ≤ r).
Proof. unfold compute_conf_mat_metrics. repeat frames_step. Qed.

End Frames.

(** *** The values of the report *)

Lemma metrics_report s conf_mat dev cm n names eps :
  s !! conf_mat = Some (OTensor dev cm) → shape cm = [n; n] →
  length names ≤ n →
  report_of (compute_conf_mat_metrics conf_mat names eps s) =
    Some (Spec.report cm n eps names).
Proof.
  intros Hcm Hshape Hlen.
  destruct (metrics_run s conf_mat dev cm n names eps Hcm Hshape Hlen)
    as (metrics & s' & Hrun & Hdict).
  unfold report_of. by rewrite Hrun, Hdict.
Qed.

Lemma last_occurrence (names : list string) a :
  a ∈ names →
  ∃ i, names !! i = Some a ∧ ∀ j, i < j → names !! j ≠ Some a.
Proof.
  induction names as [|b names IH]; intros Ha; [by apply elem_of_nil in Ha|].
  destruct (decide (a ∈ names)) as [Hin|Hout].
  - destruct (IH Hin) as (i & Hi & Hlast). exists (S i). split; [done|].
    intros [|j] Hj; [lia|]. apply Hlast. lia.
  - apply elem_of_cons in Ha as [->|Ha]; [|done]. exists 0. split; [done|].
    intros [|j] Hj; [lia|]. cbn. intros Hj'. apply Hout.
    by eapply list_elem_of_lookup_2.
Qed.

Lemma remove_dups_length_le {A} `{EqDecision A} (l : list A) :
  length (remove_dups l) ≤ length l.
Proof.
  induction l as [|y l IH]; [done|]. cbn.
  destruct (decide_rel elem_of y l); cbn; lia.
Qed.

Lemma remove_dups_length_NoDup {A} `{EqDecision A} (l : list A) :
  length (remove_dups l) = length l → NoDup l.
Proof.
  induction l as [|x l IH]; [constructor|]. cbn.
  pose proof (remove_dups_length_le l) as Hle.
  destruct (decide_rel elem_of x l) as [Hin|Hout]; cbn; [lia|].
  intros [= E]. constructor; [done|by apply IH].
Qed.

Section Values.

Context (cm : tensor fval) (n : nat).

(** An all-zero matrix. *)
Section Zero.
Context (e : Qc) (He : (0 < e)%Qc).
Context (Hzero : ∀ i j, i < n → j < n → cell cm [i; j] = Fin 0%Qc).

Lemma zero_over_floor : fdiv (Fin 0%Qc) (fmax (Fin 0%Qc) (Fin e)) = Fin 0%Qc.
Proof.
  destruct (fmax_fin 0%Qc e) as (z & -> & _ & Hz).
  rewrite fdiv_pos by by eapply Qclt_le_trans.
  f_equal. unfold Qcdiv. apply Qcmult_0_l.
Qed.

Lemma zero_precision i : i < n → Spec.precision cm n (Fin e) i = Fin 0%Qc.
Proof.
  intros Hi. unfold Spec.precision, Spec.true_pos, Spec.pred_count.
  rewrite Hzero, fsum_zero; [apply zero_over_floor| |done..].
  intros j Hj%elem_of_seq. apply Hzero; lia.
Qed.

Lemma zero_recall i : i < n → Spec.recall cm n (Fin e) i = Fin 0%Qc.
Proof.
  intros Hi. unfold Spec.recall, Spec.true_pos, Spec.gt_count.
  rewrite Hzero, fsum_zero; [apply zero_over_floor| |done..].
  intros j Hj%elem_of_seq. apply Hzero; lia.
Qed.

Lemma zero_f1 i : i < n → Spec.f1 cm n (Fin e) i = Fin 0%Qc.
Proof.
  intros Hi. unfold Spec.f1. rewrite zero_precision, zero_recall by done.
  cbn [fmul fadd of_Z].
  replace (Q2Qc (inject_Z 2) * 0 * 0)%Qc with 0%Qc by ring.
  replace (0 + 0)%Qc with 0%Qc by ring.
  apply zero_over_floor.
Qed.
End Zero.

(** A matrix of non-negative entries with a positive diagonal. *)
Section Positive.
Context (e : Qc).
Context (Hnonneg : ∀ i j, i < n → j < n →
           ∃ q, cell cm [i; j] = Fin q ∧ (0 ≤ q)%Qc).
Context (Hdiag : ∀ i, i < n → ∃ q, cell cm [i; i] = Fin q ∧ (0 < q)%Qc).

Lemma positive_precision i :
  i < n → ∃ p, Spec.precision cm n (Fin e) i = Fin p ∧ (0 < p)%Qc ∧ (p ≤ 1)%Qc.
Proof.
  intros Hi. destruct (Hdiag i Hi) as (t & Et & Ht).
  destruct (fsum_nonneg (λ j, cell cm [j; i]) (seq 0 n)) as (c & Ec & Hc).
  { intros j Hj%elem_of_seq. apply Hnonneg; lia. }
  unfold Spec.precision, Spec.true_pos, Spec.pred_count. rewrite Et, Ec.
  apply ratio_bounds; [done|]. apply (Hc i); [|done].
  apply elem_of_seq. lia.
Qed.

Lemma positive_recall i :
  i < n → ∃ r, Spec.recall cm n (Fin e) i = Fin r ∧ (0 < r)%Qc ∧ (r ≤ 1)%Qc.
Proof.
  intros Hi. destruct (Hdiag i Hi) as (t & Et & Ht).
  destruct (fsum_nonneg (λ j, cell cm [i; j]) (seq 0 n)) as (c & Ec & Hc).
  { intros j Hj%elem_of_seq. apply Hnonneg; lia. }
  unfold Spec.recall, Spec.true_pos, Spec.gt_count. rewrite Et, Ec.
  apply ratio_bounds; [done|]. apply (Hc i); [|done].
  apply elem_of_seq. lia.
Qed.

Lemma positive_f1 i :
  i < n → ∃ f, Spec.f1 cm n (Fin e) i = Fin f ∧ (0 ≤ f)%Qc ∧ (f ≤ 1)%Qc.
Proof.
  intros Hi. destruct (positive_precision i Hi) as (p & Ep & Hp & Hp1).
  destruct (positive_recall i Hi) as (r & Er & Hr & Hr1).
  unfold Spec.f1. rewrite Ep, Er. by apply f1_bounds.
Qed.
End Positive.

End Values.

(** *** Sequences of calls and sums of tensors *)

Lemma mapM_ok {A B} (f : A → result B) (l : list A) (ys : list B) :
  Forall2 (λ x y, f x = Ok y) l ys → mapM f l = Ok ys.
Proof.
  induction 1 as [|x y l ys Hx _ IH]; [done|].
  cbn. rewrite Hx. cbn. by rewrite IH.
Qed.

Lemma mapM_zip_ok {A B C} (f : A → B → result C) l k ys :
  Forall3 (λ x y z, f x y = Ok z) l k ys →
  mapM (λ xy : A * B, f xy.1 xy.2) (zip l k) = Ok ys.
Proof.
  induction 1 as [|x y z l k ys Hx _ IH]; [done|].
  cbn. rewrite Hx. cbn. by rewrite IH.
Qed.

Lemma bindex_valid s idx : valid_index s idx → Torch.bindex s idx = idx.
Proof.
  intros H. unfold Torch.bindex.
  rewrite (Forall2_length _ _ _ H), Nat.sub_diag, drop_0.
  induction H as [|i d idx s Hlt _ IH]; [done|].
  cbn [zip_with]. by rewrite pick_lt, IH.
Qed.

Lemma add_same_shape a b s :
  shape a = s → shape b = s →
  ∃ r, Torch.add a b = Ok r ∧ shape r = s ∧
    ∀ idx, valid_index s idx → cell r idx = fadd (cell a idx) (cell b idx).
Proof.
  intros Sa Sb. eexists. split.
  - apply broadcast2_ok. rewrite Sa, Sb. apply broadcast_shapes_refl.
  - split; [done|]. intros idx Hidx. cbn [cell].
    by rewrite Sa, Sb, bindex_valid.
Qed.

(** The loop of [sum] over tensors of one shape, from a tensor on. *)
Lemma py_sum_loop s (ts : list (tensor fval)) : ∀ acc,
  shape acc = s → Forall (λ t, shape t = s) ts →
  ∃ r, foldl (λ acc x, a ← acc; py_add a x) (Ok (PTensor acc)) (PTensor <$> ts)
         = Ok (PTensor r) ∧
       shape r = s ∧
       ∀ idx, valid_index s idx →
         cell r idx = foldl fadd (cell acc idx) ((λ t, cell t idx) <$> ts).
Proof.
  induction ts as [|t ts IH]; intros acc Sacc Hts.
  - by exists acc.
  - apply Forall_cons in Hts as [St Hts].
    destruct (add_same_shape acc t s Sacc St) as (u & Eu & Su & Cu).
    destruct (IH u Su Hts) as (r & Er & Sr & Cr).
    exists r. split; [|split; [done|]].
    + rewrite fmap_cons. cbn [foldl mbind result_bind py_add].
      rewrite Eu. exact Er.
    + intros idx Hidx. rewrite fmap_cons. cbn [foldl].
      by rewrite Cr, Cu.
Qed.

(** *** Sums of counts *)

Lemma foldl_fadd_of_nat {X} (c : X → nat) (l : list X) : ∀ acc,
  foldl fadd (of_nat acc) ((λ x, of_nat (c x)) <$> l) =
    of_nat (acc + sum_list_with c l).
Proof.
  induction l as [|x l IH]; intros acc; cbn [fmap list_fmap foldl sum_list_with].
  - f_equal. lia.
  - unfold of_nat at 1 2. rewrite fadd_of_Z, <- Nat2Z.inj_add.
    fold (of_nat (acc + c x)). rewrite IH. f_equal. lia.
Qed.

Lemma fsum_of_nat {X} (c : X → nat) (l : list X) :
  fsum ((λ x, of_nat (c x)) <$> l) = of_nat (sum_list_with c l).
Proof. apply (foldl_fadd_of_nat c l 0). Qed.

Lemma of_bool_b2n b : of_bool b = of_nat (Nat.b2n b).
Proof. by destruct b. Qed.

Lemma sum_list_with_ext {X} (f g : X → nat) (l : list X) :
  (∀ x, x ∈ l → f x = g x) → sum_list_with f l = sum_list_with g l.
Proof.
  induction l as [|x l IH]; intros H; [done|]. cbn.
  rewrite (H x) by left. rewrite IH; [done|]. intros. apply H. by right.
Qed.

Lemma sum_list_with_plus {X} (f g : X → nat) (l : list X) :
  sum_list_with (λ x, f x + g x) l = sum_list_with f l + sum_list_with g l.
Proof. induction l as [|x l IH]; [done|]. cbn. rewrite IH. lia. Qed.

Lemma sum_list_with_zero {X} (l : list X) : sum_list_with (λ _, 0) l = 0.
Proof. by induction l. Qed.

Lemma sum_list_with_swap {X Y} (f : X → Y → nat) (xs : list X) (ys : list Y) :
  sum_list_with (λ x, sum_list_with (f x) ys) xs =
    sum_list_with (λ y, sum_list_with (λ x, f x y) xs) ys.
Proof.
  induction xs as [|x xs IH]; cbn.
  - by rewrite sum_list_with_zero.
  - by rewrite IH, sum_list_with_plus.
Qed.

Lemma sum_list_with_bind {X Y} (f : Y → nat) (g : X → list Y) (l : list X) :
  sum_list_with f (l ≫= g) = sum_list_with (λ x, sum_list_with f (g x)) l.
Proof.
  induction l as [|x l IH]; [done|]. cbn. by rewrite sum_list_with_app, IH.
Qed.

Lemma sum_list_with_fmap {X Y} (f : Y → nat) (h : X → Y) (l : list X) :
  sum_list_with f (h <$> l) = sum_list_with (λ x, f (h x)) l.
Proof. induction l as [|x l IH]; [done|]. cbn. by rewrite IH. Qed.

Lemma sum_list_with_scale {X} (c : nat) (f : X → nat) (l : list X) :
  sum_list_with (λ x, f x * c) l = sum_list_with f l * c.
Proof. induction l as [|x l IH]; [done|]. cbn. rewrite IH. lia. Qed.

Lemma sum_list_with_filter {X} (b : X → bool) (P : X → Prop)
    `{∀ x, Decision (P x)} (l : list X) :
  (∀ x, x ∈ l → b x = true ↔ P x) →
  sum_list_with (λ x, Nat.b2n (b x)) l = length (filter P l).
Proof.
  induction l as [|x l IH]; intros Hb; [done|].
  cbn [sum_list_with]. rewrite filter_cons, IH by (intros; apply Hb; by right).
  pose proof (Hb x (list_elem_of_here _ _)) as Hx.
  destruct (b x), (decide (P x)); cbn; try done; tauto || (exfalso; naive_solver).
Qed.

(** Exactly the labels of [[0, n)] are found among [0, ..., n - 1]. *)
Lemma sum_label_indicator (z : Z) (n : nat) :
  sum_list_with (λ p, Nat.b2n (z =? Z.of_nat p)%Z) (seq 0 n) =
    Nat.b2n (bool_decide (in_range (Z.of_nat n) z)).
Proof.
  unfold in_range. induction n as [|n IH].
  - cbn. rewrite bool_decide_eq_false_2; [done|lia].
  - rewrite seq_S, sum_list_with_app, IH. cbn [sum_list_with Nat.add].
    destruct (Z.eqb_spec z (Z.of_nat n)) as [->|Hne].
    + rewrite bool_decide_eq_false_2, bool_decide_eq_true_2 by lia. done.
    + destruct (decide (0 ≤ z < Z.of_nat n)%Z).
      * rewrite !bool_decide_eq_true_2 by lia. done.
      * rewrite !bool_decide_eq_false_2 by lia. done.
Qed.

Lemma indices_square n :
  Torch.indices [n; n] = seq 0 n ≫= λ g, (λ p, [g; p]) <$> seq 0 n.
Proof.
  change (Torch.indices [n; n])
    with (seq 0 n ≫= λ g, (g ::.) <$> Torch.indices [n]).
  rewrite indices_vec. apply list_bind_ext; [|done].
  intros g. by rewrite <- list_fmap_compose.
Qed.

Lemma elem_of_indices_square n idx :
  idx ∈ Torch.indices [n; n] ↔ ∃ g p, idx = [g; p] ∧ g < n ∧ p < n.
Proof.
  rewrite indices_square, list_elem_of_bind. split.
  - intros (g & (p & -> & Hp%elem_of_seq)%list_elem_of_fmap & Hg%elem_of_seq).
    exists g, p. repeat split; lia.
  - intros (g & p & -> & Hg & Hp). exists g. split.
    + apply list_elem_of_fmap. exists p. split; [done|]. apply elem_of_seq. lia.
    + apply elem_of_seq. lia.
Qed.

Lemma b2n_andb a b : Nat.b2n (a && b) = Nat.b2n a * Nat.b2n b.
Proof. by destruct a, b. Qed.

(** Each position is counted in the cell of its two labels, when both are
    in range, and in no other cell. *)
Lemma hit_once out y k n :
  sum_list_with (λ idx : list nat,
       Nat.b2n (hit out y (idx !!! 0) (idx !!! 1) k)) (Torch.indices [n; n]) =
    Nat.b2n (bool_decide (in_range (Z.of_nat n) (cell out [k]) ∧
                          in_range (Z.of_nat n) (cell y [k]))).
Proof.
  rewrite indices_square, sum_list_with_bind.
  rewrite (sum_list_with_ext _
    (λ g, Nat.b2n (cell y [k] =? Z.of_nat g)%Z *
          Nat.b2n (bool_decide (in_range (Z.of_nat n) (cell out [k]))))).
  - rewrite sum_list_with_scale, sum_label_indicator.
    repeat case_bool_decide; cbn; try done; tauto.
  - intros g _. rewrite sum_list_with_fmap.
    cbn [lookup_total list_lookup_total]. unfold hit.
    rewrite (sum_list_with_ext _
      (λ p, Nat.b2n (cell out [k] =? Z.of_nat p)%Z *
            Nat.b2n (cell y [k] =? Z.of_nat g)%Z))
      by (intros; apply b2n_andb).
    rewrite sum_list_with_scale, sum_label_indicator. lia.
Qed.

(** The cells of the matrix add up to the number of positions whose two
    labels are in range. *)
Lemma hit_total out y n m :
  fsum ((λ idx : list nat,
          fsum ((λ k, of_bool (hit out y (idx !!! 0) (idx !!! 1) k)) <$> seq 0 n))
        <$> Torch.indices [m; m]) =
    of_nat (length (filter
      (λ k, in_range (Z.of_nat m) (cell out [k]) ∧
            in_range (Z.of_nat m) (cell y [k])) (seq 0 n))).
Proof.
  erewrite fsum_ext.
  2:{ intros idx _. erewrite fsum_ext by (intros; apply of_bool_b2n).
      apply fsum_of_nat. }
  rewrite fsum_of_nat, sum_list_with_swap. f_equal.
  rewrite (sum_list_with_ext _ _ _ (λ k _, hit_once out y k m)).
  apply sum_list_with_filter. intros k _. apply bool_decide_eq_true.
Qed.

Lemma hit_swap out y g p k : hit out y g p k = hit y out p g k.
Proof. unfold hit. apply andb_comm. Qed.

Lemma fsum_of_bool_false {X} (b : X → bool) (l : list X) :
  (∀ x, x ∈ l → b x = false) →
  fsum ((λ x, of_bool (b x)) <$> l) = of_nat 0.
Proof.
  intros Hb. apply fsum_zero. intros x Hx. by rewrite Hb.
Qed.

Lemma bdim_None a b : a ≠ b → a ≠ 1 → b ≠ 1 → Torch.bdim a b = None.
Proof.
  intros Hab Ha Hb. unfold Torch.bdim.
  by rewrite (proj2 (Nat.eqb_neq a b)), (proj2 (Nat.eqb_neq a 1)),
    (proj2 (Nat.eqb_neq b 1)).
Qed.

Lemma filter_all {X} (P : X → Prop) `{∀ x, Decision (P x)} (l : list X) :
  (∀ x, x ∈ l → P x) → filter P l = l.
Proof.
  induction l as [|x l IH]; intros Hall; [done|].
  rewrite filter_cons_True by (apply Hall; left). f_equal. apply IH.
  intros. apply Hall. by right.
Qed.

(** *** Computations that raise *)

Lemma raises_bind {A B} (m : M A) (f : A → M B) s e :
  wp m s (λ a s', raises (f a) s' e) → raises (m ≫= f) s e.
Proof.
  intros (a & s' & Hm & Hf). unfold raises. by erewrite bind_run by exact Hm.
Qed.

Lemma raises_bind_l {A B} (m : M A) (f : A → M B) s e :
  raises m s e → raises (m ≫= f) s e.
Proof.
  unfold raises, mbind, M_bind. destruct (m s) as [[a|e'] s']; cbn; intros H;
    [discriminate|by injection H as ->].
Qed.

Lemma raises_getitem s a n va i :
  holds_vec s a n va → n ≤ i → raises (TorchS.getitem a i) s IndexError.
Proof.
  intros (t & Ha & [St _]) Hi.
  unfold raises, TorchS.getitem, TorchS.unop, read_tensor, lift, mbind, M_bind.
  rewrite Ha. unfold Torch.getitem. rewrite St.
  by destruct (Nat.ltb_spec i n); [lia|].
Qed.

Lemma raises_binop f a b s ta tb e :
  s !! a = Some (OTensor CPU ta) → s !! b = Some (OTensor CPU tb) →
  f ta tb = Raise e → raises (TorchS.binop f a b) s e.
Proof.
  intros Ha Hb Hf.
  unfold raises, TorchS.binop, read_tensor, lift, mbind, M_bind.
  rewrite Ha, Hb. cbn. by rewrite Hf.
Qed.

Lemma broadcast2_mismatch {A B C} (f : A → B → C) a b n m :
  shape a = [n] → shape b = [m] → n ≠ m → n ≠ 1 → m ≠ 1 →
  Torch.broadcast2 f a b = Raise RuntimeError.
Proof.
  intros Sa Sb Hnm Hn Hm. unfold Torch.broadcast2, Torch.broadcast_shapes.
  rewrite Sa, Sb. cbn. by rewrite bdim_None.
Qed.

Lemma raises_vec_vec (f : fval → fval → fval) s a b n m va vb :
  holds_vec s a n va → holds_vec s b m vb → n ≠ m → n ≠ 1 → m ≠ 1 →
  raises (TorchS.binop (Torch.broadcast2 f) a b) s RuntimeError.
Proof.
  intros (ta & Ha & [Sa _]) (tb & Hb & [Sb _]) Hnm Hn Hm.
  eapply raises_binop; [done..|]. by eapply broadcast2_mismatch.
Qed.

Lemma wp_unop_vec f x s t t' n (Q : loc → store → Prop) :
  s !! x = Some (OTensor CPU t) → f t = Ok t' → shape t' = [n] →
  (∀ r s', extends s s' → holds_vec s' r n (λ i, cell t' [i]) → Q r s') →
  wp (TorchS.unop f x) s Q.
Proof.
  intros Hx Hf St HQ. eapply wp_unop; [done..|].
  intros r s' E Hr. apply HQ; [done|]. exists t'. by repeat split.
Qed.

(** *** The loop over more label names than classes *)

Section LoopRaises.

Context (precision recall f1 metrics : loc) (n : nat) (vp vr vf : nat → fval).

Lemma loop_raises names : ∀ k s d,
  holds_vec s precision n vp → holds_vec s recall n vr →
  holds_vec s f1 n vf → s !! metrics = Some (ODict d) →
  k ≤ n → n < k + length names →
  raises (for_each (λ '(ind, label),
            p ← (x ← TorchS.getitem precision ind; TorchS.item x);
            r ← (x ← TorchS.getitem recall ind; TorchS.item x);
            f ← (x ← TorchS.getitem f1 ind; TorchS.item x);
            other ← new_dict [(precision_key label, p);
                              (recall_key label, r);
                              (f1_key label, f)];
            dict_update metrics other)
          (zip (seq k (length names)) names)) s IndexError.
Proof.
  induction names as [|label names IH]; intros k s d HP HR HF Hm Hk Hlen.
  - cbn in Hlen. lia.
  - cbn [length seq zip zip_with for_each] in *.
    destruct (decide (k = n)) as [->|Hne].
    + apply raises_bind_l. cbn beta iota.
      apply raises_bind_l, raises_bind_l. by eapply raises_getitem.
    + apply raises_bind. cbn beta iota.
      apply wp_bind, wp_bind. eapply wp_getitem; [done|lia|]. intros x s1 E Hx.
      forward E. eapply wp_item; [done|].
      apply wp_bind, wp_bind. eapply wp_getitem; [done|lia|]. intros y s2 E Hy.
      forward E. eapply wp_item; [done|].
      apply wp_bind, wp_bind. eapply wp_getitem; [done|lia|]. intros z s3 E Hz.
      forward E. eapply wp_item; [done|].
      apply wp_bind, wp_alloc. intros o s4 E Ho. forward E.
      eapply wp_dict_update; [done..|].
      eapply (IH (S k)); [by eapply holds_vec_insert..| |lia|lia].
      apply list_lookup_insert_eq. by eapply lookup_lt_Some.
Qed.

End LoopRaises.

Lemma metrics_loop_entry s conf_mat dev cm n names eps e :
  s !! conf_mat = Some (OTensor dev cm) → shape cm = [n; n] →
  (∀ precision recall f1 metrics s',
     holds_vec s' precision n (Spec.precision cm n eps) →
     holds_vec s' recall n (Spec.recall cm n eps) →
     holds_vec s' f1 n (Spec.f1 cm n eps) →
     s' !! metrics = Some (ODict (Spec.avg_entries cm n eps)) →
     raises (for_each (λ '(ind, label),
               p ← (x ← TorchS.getitem precision ind; TorchS.item x);
               r ← (x ← TorchS.getitem recall ind; TorchS.item x);
               f ← (x ← TorchS.getitem f1 ind; TorchS.item x);
               other ← new_dict [(precision_key label, p);
                                 (recall_key label, r);
                                 (f1_key label, f)];
               dict_update metrics other)
             (enumerate names)) s' e) →
  raises (compute_conf_mat_metrics conf_mat names eps) s e.
Proof.
  intros Hcm Hshape Hloop. unfold compute_conf_mat_metrics.
  apply raises_bind, wp_tensor. intros eps_t s1 E Heps. forward E.
  apply raises_bind. eapply wp_cpu; [done|]. intros cpu_mat s2 E Hcpu. forward E.
  clear Hcm.
  apply raises_bind. eapply wp_sum_rows; [done..|]. intros gt_count s3 E Hgt.
  forward E.
  apply raises_bind. eapply wp_sum_cols; [done..|]. intros pred_count s4 E Hpred.
  forward E.
  apply raises_bind. eapply wp_sum_square; [done..|]. intros total s5 E Htot.
  forward E.
  apply raises_bind. eapply wp_diag; [done..|]. intros true_pos s6 E Htp.
  forward E. clear Hcpu.
  apply raises_bind, wp_bind. eapply wp_vec_scalar; [done..|]. intros m1 s7 E Hm1.
  forward E. eapply wp_vec_vec; [done..|]. intros precision s8 E Hprec.
  forward E. clear Hm1.
  apply raises_bind, wp_bind. eapply wp_vec_scalar; [done..|]. intros m2 s9 E Hm2.
  forward E. eapply wp_vec_vec; [done..|]. intros recall s10 E Hrec.
  forward E. clear Hm2.
  apply raises_bind, wp_bind. eapply wp_rmul_vec; [done|]. intros a1 s11 E Ha1.
  forward E. apply wp_bind. eapply wp_vec_vec; [done..|]. intros b1 s12 E Hb1.
  forward E. apply wp_bind. eapply wp_vec_vec; [exact Hprec|exact Hrec|].
  intros c1 s13 E Hc1.
  forward E. apply wp_bind. eapply wp_vec_scalar; [done..|]. intros d1 s14 E Hd1.
  forward E. eapply wp_vec_vec; [exact Hb1|exact Hd1|]. intros f1 s15 E Hf1.
  forward E. clear Ha1 Hb1 Hc1 Hd1.
  apply raises_bind. eapply wp_vec_scalar; [exact Hgt|exact Htot|].
  intros weights s16 E Hw. forward E.
  apply raises_bind, wp_bind. eapply wp_vec_vec; [exact Hw|exact Hprec|].
  intros a2 s17 E Ha2. forward E. eapply wp_sum_vec; [done|].
  intros wprec s18 E Hwp. forward E. clear Ha2.
  apply raises_bind, wp_bind. eapply wp_vec_vec; [exact Hw|exact Hrec|].
  intros a3 s19 E Ha3. forward E. eapply wp_sum_vec; [done|].
  intros wrec s20 E Hwr. forward E. clear Ha3.
  apply raises_bind, wp_bind. eapply wp_rmul_scalar; [exact Hwp|].
  intros a4 s21 E Ha4. forward E.
  apply wp_bind. eapply wp_scalar_scalar; [exact Ha4|exact Hwr|].
  intros b4 s22 E Hb4. forward E.
  apply wp_bind. eapply wp_scalar_scalar; [exact Hwp|exact Hwr|].
  intros c4 s23 E Hc4. forward E.
  apply wp_bind. eapply wp_scalar_scalar; [exact Hc4|exact Heps|].
  intros d4 s24 E Hd4. forward E.
  eapply wp_scalar_scalar; [exact Hb4|exact Hd4|].
  intros wf1 s25 E Hwf. forward E. clear Ha4 Hb4 Hc4 Hd4.
  apply raises_bind. eapply wp_item; [exact Hwp|].
  apply raises_bind. eapply wp_item; [exact Hwr|].
  apply raises_bind. eapply wp_item; [exact Hwf|].
  apply raises_bind, wp_alloc. intros metrics s26 E Hmet. forward E.
  apply raises_bind_l. by apply Hloop.
Qed.

(** *** The aggregate entries *)

Lemma report_avg_values cm n eps names :
  "avg" ∉ names →
  Spec.report cm n eps names !! "avg_precision"
    = Some (Spec.avg_precision cm n eps) ∧
  Spec.report cm n eps names !! "avg_recall"
    = Some (Spec.avg_recall cm n eps) ∧
  Spec.report cm n eps names !! "avg_f1" = Some (Spec.avg_f1 cm n eps).
Proof.
  intros Havg.
  rewrite !report_avg by (done || (apply label_keys_elem; auto)).
  done.
Qed.

Lemma foldl_fadd_NaN (l : list fval) : foldl fadd NaN l = NaN.
Proof. by induction l. Qed.

Lemma fsum_NaN {X} (f : X → fval) (l : list X) :
  l ≠ [] → (∀ x, x ∈ l → f x = NaN) → fsum (f <$> l) = NaN.
Proof.
  intros Hne Hf. destruct l as [|x l]; [done|].
  unfold fsum. cbn. rewrite (Hf x) by left. apply foldl_fadd_NaN.
Qed.

(** An all-zero matrix of at least one class. *)
Section ZeroAggregates.

Context (cm : tensor fval) (n : nat) (eps : fval).
Context (Hn : 0 < n).
Context (Hzero : ∀ i j, i < n → j < n → cell cm [i; j] = Fin 0%Qc).

Lemma zero_total : Spec.total cm n = Fin 0%Qc.
Proof.
  unfold Spec.total. apply fsum_zero.
  intros idx (g & p & -> & Hg & Hp)%elem_of_indices_square. by apply Hzero.
Qed.

Lemma zero_weight i : i < n → Spec.weight cm n i = NaN.
Proof.
  intros Hi. unfold Spec.weight, Spec.gt_count.
  rewrite zero_total, fsum_zero; [done|].
  intros j Hj%elem_of_seq. apply Hzero; lia.
Qed.

Lemma seq_nonempty : seq 0 n ≠ [].
Proof. destruct n; [lia|done]. Qed.

Lemma zero_avg_precision : Spec.avg_precision cm n eps = NaN.
Proof.
  unfold Spec.avg_precision. apply fsum_NaN; [apply seq_nonempty|].
  intros i Hi%elem_of_seq. by rewrite zero_weight by lia.
Qed.

Lemma zero_avg_recall : Spec.avg_recall cm n eps = NaN.
Proof.
  unfold Spec.avg_recall. apply fsum_NaN; [apply seq_nonempty|].
  intros i Hi%elem_of_seq. by rewrite zero_weight by lia.
Qed.

End ZeroAggregates.

(** *** Matrices of counts *)

Section CountArithmetic.

Local Abbreviation qn k := (Q2Qc (inject_Z (Z.of_nat k))).

Lemma this_qn k : (this (qn k) == inject_Z (Z.of_nat k))%Q.
Proof. apply Qred_correct. Qed.

Lemma qn_add a b : qn (a + b) = (qn a + qn b)%Qc.
Proof.
  apply Qc_is_canon. rewrite this_plus, !this_qn.
  by rewrite Nat2Z.inj_add, inject_Z_plus.
Qed.

Lemma qn_pos k : 0 < k → (0 < qn k)%Qc.
Proof.
  intros H. unfold Qclt. rewrite this_qn. cbn [this Q2Qc].
  change (Qred 0) with 0%Q. unfold Qlt. cbn. lia.
Qed.

Lemma qn_le a b : a ≤ b → (qn a ≤ qn b)%Qc.
Proof. intros H. unfold Qcle. rewrite !this_qn. unfold Qle. cbn. lia. Qed.

Lemma qn_floor k e : 0 < k → (e ≤ 1)%Qc → (e ≤ qn k)%Qc.
Proof. intros Hk He. eapply Qcle_trans; [done|]. apply (qn_le 1 k). lia. Qed.

Lemma qn_nonzero k : 0 < k → qn k ≠ 0%Qc.
Proof.
  intros Hk E. apply qn_pos in Hk. rewrite E in Hk.
  by apply Qclt_not_eq in Hk.
Qed.

Lemma Qcinv_nonneg (x : Qc) : (0 ≤ x)%Qc → (0 ≤ / x)%Qc.
Proof.
  unfold Qcle. cbn [this Qcinv Q2Qc]. change (Qred 0) with 0%Q. intros H.
  rewrite (Qred_correct (/ x)). by apply Qinv_le_0_compat.
Qed.

Lemma fmax_l x y : (y ≤ x)%Qc → fmax (Fin x) (Fin y) = Fin x.
Proof.
  intros H. cbn. destruct (x ?= y)%Qc eqn:E; try done.
  apply Qclt_alt in E. by apply Qcle_not_lt in H.
Qed.

Lemma Qc_harmonic_nonneg (p r d : Qc) :
  (0 ≤ p)%Qc → (p ≤ 1)%Qc → (0 ≤ r)%Qc → (r ≤ 1)%Qc →
  (p + r ≤ d)%Qc → (0 < d)%Qc →
  (0 ≤ Q2Qc 2 * p * r / d)%Qc ∧ (Q2Qc 2 * p * r / d ≤ 1)%Qc.
Proof.
  unfold Qcle, Qclt. rewrite this_div, !this_mult, this_plus.
  cbn [this Q2Qc].
  change (Qred 0) with 0%Q. change (Qred 1) with 1%Q. change (Qred 2) with 2%Q.
  intros Hp Hp1 Hr Hr1 Hd Hd0. split.
  - apply Qle_shift_div_l; [done|]. nra.
  - apply Qle_shift_div_r; [done|]. nra.
Qed.

(** The F1 score of a precision and a recall of [0, 1] lies in [0, 1]. *)
Lemma f1_bounds_nonneg p r e :
  (0 ≤ p)%Qc → (p ≤ 1)%Qc → (0 ≤ r)%Qc → (r ≤ 1)%Qc → (0 < e)%Qc →
  ∃ f, fdiv (fmul (fmul (of_Z 2) (Fin p)) (Fin r))
            (fmax (fadd (Fin p) (Fin r)) (Fin e)) = Fin f ∧
       (0 ≤ f)%Qc ∧ (f ≤ 1)%Qc.
Proof.
  intros Hp Hp1 Hr Hr1 He. cbn [fadd fmul of_Z].
  destruct (fmax_fin (p + r) e) as (d & -> & Hd & Hde).
  assert (0 < d)%Qc by by eapply Qclt_le_trans.
  rewrite fdiv_pos by done. eexists. split; [done|].
  by apply Qc_harmonic_nonneg.
Qed.

(** A quotient of counts [d / max(g, eps)] with [d ≤ g] and [0 < eps ≤ 1]:
    the floor only shows when [g] is 0. *)
Lemma count_ratio d g e :
  d ≤ g → (0 < e)%Qc → (e ≤ 1)%Qc →
  fdiv (of_nat d) (fmax (of_nat g) (Fin e)) =
    if decide (g = 0) then Fin 0%Qc else Fin (qn d / qn g)%Qc.
Proof.
  intros Hdg He He1. destruct (decide (g = 0)) as [->|Hg].
  - assert (d = 0) as -> by lia. by apply zero_over_floor.
  - unfold of_nat, of_Z. rewrite fmax_l by (apply qn_floor; [lia|done]).
    apply fdiv_pos, qn_pos. lia.
Qed.

Lemma count_ratio_bounds d g e :
  d ≤ g → (0 < e)%Qc → (e ≤ 1)%Qc →
  ∃ p, fdiv (of_nat d) (fmax (of_nat g) (Fin e)) = Fin p ∧
       (0 ≤ p)%Qc ∧ (p ≤ 1)%Qc.
Proof.
  intros Hdg He He1. rewrite count_ratio by done.
  destruct (decide (g = 0)) as [->|Hg]; [by exists 0%Qc|].
  eexists. split; [done|]. destruct (decide (d = 0)) as [->|Hd].
  - change (qn 0) with 0%Qc. unfold Qcdiv. by rewrite Qcmult_0_l.
  - destruct (Qc_div_pos (qn d) (qn g)) as [H0 H1];
      [apply qn_pos; lia|by apply qn_le|].
    split; [by apply Qclt_le_weak|done].
Qed.

Lemma sum_list_with_elem {X} (f : X → nat) (l : list X) x :
  x ∈ l → f x ≤ sum_list_with f l.
Proof.
  induction l as [|y l IH]; [by intros ?%elem_of_nil|].
  intros [->|Hx]%elem_of_cons; cbn; [lia|]. specialize (IH Hx). lia.
Qed.

Lemma sum_list_with_single {X} `{EqDecision X} (f : X → nat) (l : list X) x :
  NoDup l → x ∈ l → (∀ y, y ∈ l → y ≠ x → f y = 0) →
  sum_list_with f l = f x.
Proof.
  induction l as [|y l IH]; [by intros _ ?%elem_of_nil|].
  intros [Hy Hl]%NoDup_cons Hx Hf. cbn.
  destruct (decide (y = x)) as [->|Hne].
  - rewrite (sum_list_with_ext f (λ _, 0)), sum_list_with_zero; [lia|].
    intros z Hz. apply Hf; [by right|]. by intros ->.
  - rewrite (Hf y) by (done || left). apply IH; [done| |].
    + by apply elem_of_cons in Hx as [->|Hx].
    + intros z Hz. apply Hf. by right.
Qed.

Lemma fsum_scaled {X} (a : X → nat) (c : Qc) (f : X → fval) (l : list X) :
  (∀ x, x ∈ l → f x = Fin (qn (a x) * c)%Qc) →
  fsum (f <$> l) = Fin (qn (sum_list_with a l) * c)%Qc.
Proof.
  intros Hf. unfold fsum.
  replace (Fin 0%Qc) with (Fin (qn 0 * c)%Qc)
    by (change (qn 0) with 0%Qc; by rewrite Qcmult_0_l).
  change (sum_list_with a l) with (0 + sum_list_with a l).
  generalize 0 as acc. induction l as [|x l IH]; intros acc.
  - cbn. by rewrite Nat.add_0_r.
  - cbn. rewrite (Hf x) by left. cbn [fadd].
    replace (qn acc * c + qn (a x) * c)%Qc with (qn (acc + a x) * c)%Qc
      by (rewrite qn_add; ring).
    rewrite IH by (intros; apply Hf; by right). by rewrite Nat.add_assoc.
Qed.

Lemma fsum_weighted {X} (g : X → nat) (c : Qc) (f : X → fval) (l : list X) :
  (0 ≤ c)%Qc →
  (∀ x, x ∈ l → ∃ p, f x = Fin (qn (g x) * c * p)%Qc ∧
                      (0 ≤ p)%Qc ∧ (p ≤ 1)%Qc) →
  ∃ a, fsum (f <$> l) = Fin a ∧
       (0 ≤ a)%Qc ∧ (a ≤ qn (sum_list_with g l) * c)%Qc.
Proof.
  intros Hc Hf.
  assert (∀ acc k, (0 ≤ acc)%Qc → (acc ≤ qn k * c)%Qc →
            ∃ a, foldl fadd (Fin acc) (f <$> l) = Fin a ∧
                 (0 ≤ a)%Qc ∧ (a ≤ qn (k + sum_list_with g l) * c)%Qc) as Hgen.
  { induction l as [|x l IH]; intros acc k Hacc Hk.
    - exists acc. cbn. by rewrite Nat.add_0_r.
    - cbn. destruct (Hf x) as (p & -> & Hp & Hp1); [left|]. cbn [fadd].
      rewrite Nat.add_assoc. apply IH.
      + intros; apply Hf; by right.
      + revert Hacc Hp Hc. unfold Qcle. rewrite this_plus, !this_mult, this_qn.
        cbn [this Q2Qc]. change (Qred 0) with 0%Q. intros.
        assert (0 <= inject_Z (Z.of_nat (g x)))%Q as HG
          by (unfold Qle; cbn; lia).
        revert HG. generalize (inject_Z (Z.of_nat (g x))) as G. intros G HG.
        assert (0 <= G * c)%Q by nra. nra.
      + rewrite qn_add. revert Hk Hp Hp1 Hc. unfold Qcle.
        rewrite !this_mult, !this_plus, !this_mult, !this_qn.
        cbn [this Q2Qc]. change (Qred 0) with 0%Q. change (Qred 1) with 1%Q.
        intros.
        assert (0 <= inject_Z (Z.of_nat (g x)))%Q as HG
          by (unfold Qle; cbn; lia).
        revert HG Hk. generalize (inject_Z (Z.of_nat (g x))) as G.
        generalize (inject_Z (Z.of_nat k)) as K. intros K G HG Hk.
        assert (0 <= G * c)%Q by nra.
        assert (G * c * p <= G * c)%Q by nra. lra. }
  apply (Hgen 0%Qc 0); [apply Qcle_refl|].
  change (qn 0) with 0%Qc. rewrite Qcmult_0_l. apply Qcle_refl.
Qed.

End CountArithmetic.

Section CountMatrix.

Local Abbreviation qn k := (Q2Qc (inject_Z (Z.of_nat k))).

Context (cm : tensor fval) (n : nat) (c : nat → nat → nat).
Context (Hcounts : holds_counts cm n c).

Lemma count_gt i : i < n → Spec.gt_count cm n i = of_nat (row_count c n i).
Proof.
  intros Hi. unfold Spec.gt_count, row_count. rewrite <- fsum_of_nat.
  apply fsum_ext. intros j Hj%elem_of_seq. apply Hcounts; lia.
Qed.

Lemma count_pred i : i < n → Spec.pred_count cm n i = of_nat (col_count c n i).
Proof.
  intros Hi. unfold Spec.pred_count, col_count. rewrite <- fsum_of_nat.
  apply fsum_ext. intros j Hj%elem_of_seq. apply Hcounts; lia.
Qed.

Lemma sum_indices_square (f : nat → nat → nat) :
  sum_list_with (λ idx : list nat, f (idx !!! 0) (idx !!! 1))
                (Torch.indices [n; n]) =
    sum_list_with (λ g, sum_list_with (f g) (seq 0 n)) (seq 0 n).
Proof.
  rewrite indices_square, sum_list_with_bind. apply sum_list_with_ext.
  intros g _. by rewrite sum_list_with_fmap.
Qed.

Lemma count_total : Spec.total cm n = of_nat (total_count c n).
Proof.
  unfold Spec.total, total_count, row_count.
  rewrite <- sum_indices_square, <- fsum_of_nat. apply fsum_ext.
  intros idx (g & p & -> & Hg & Hp)%elem_of_indices_square. by apply Hcounts.
Qed.

Lemma count_diag_le_row i : i < n → c i i ≤ row_count c n i.
Proof. intros. apply (sum_list_with_elem (c i)), elem_of_seq. lia. Qed.

Lemma count_diag_le_col i : i < n → c i i ≤ col_count c n i.
Proof. intros. apply (sum_list_with_elem (λ j, c j i)), elem_of_seq. lia. Qed.

Context (e : Qc) (He : (0 < e)%Qc) (He1 : (e ≤ 1)%Qc).

Lemma count_recall i :
  i < n →
  Spec.recall cm n (Fin e) i =
    if decide (row_count c n i = 0) then Fin 0%Qc
    else Fin (qn (c i i) / qn (row_count c n i))%Qc.
Proof.
  intros Hi. unfold Spec.recall, Spec.true_pos.
  rewrite Hcounts, count_gt by done.
  apply count_ratio; [by apply count_diag_le_row|done..].
Qed.

Lemma count_precision i :
  i < n →
  Spec.precision cm n (Fin e) i =
    if decide (col_count c n i = 0) then Fin 0%Qc
    else Fin (qn (c i i) / qn (col_count c n i))%Qc.
Proof.
  intros Hi. unfold Spec.precision, Spec.true_pos.
  rewrite Hcounts, count_pred by done.
  apply count_ratio; [by apply count_diag_le_col|done..].
Qed.

Lemma count_recall_bounds i :
  i < n → ∃ r, Spec.recall cm n (Fin e) i = Fin r ∧ (0 ≤ r)%Qc ∧ (r ≤ 1)%Qc.
Proof.
  intros Hi. unfold Spec.recall, Spec.true_pos.
  rewrite Hcounts, count_gt by done.
  apply count_ratio_bounds; [by apply count_diag_le_row|done..].
Qed.

Lemma count_precision_bounds i :
  i < n → ∃ p, Spec.precision cm n (Fin e) i = Fin p ∧ (0 ≤ p)%Qc ∧ (p ≤ 1)%Qc.
Proof.
  intros Hi. unfold Spec.precision, Spec.true_pos.
  rewrite Hcounts, count_pred by done.
  apply count_ratio_bounds; [by apply count_diag_le_col|done..].
Qed.

Lemma count_f1_bounds i :
  i < n → ∃ f, Spec.f1 cm n (Fin e) i = Fin f ∧ (0 ≤ f)%Qc ∧ (f ≤ 1)%Qc.
Proof.
  intros Hi. destruct (count_precision_bounds i Hi) as (p & Ep & Hp & Hp1).
  destruct (count_recall_bounds i Hi) as (r & Er & Hr & Hr1).
  unfold Spec.f1. rewrite Ep, Er. by apply f1_bounds_nonneg.
Qed.

Context (Htotal : 0 < total_count c n).

Lemma count_weight i :
  i < n →
  Spec.weight cm n i = Fin (qn (row_count c n i) * / qn (total_count c n))%Qc.
Proof.
  intros Hi. unfold Spec.weight. rewrite count_gt, count_total by done.
  by apply fdiv_pos, qn_pos.
Qed.

(** The weighted recall is the share of the diagonal in the total. *)
Lemma count_avg_recall :
  Spec.avg_recall cm n (Fin e) =
    fdiv (of_nat (correct_count c n)) (of_nat (total_count c n)).
Proof.
  unfold of_nat at 1 2, of_Z. rewrite fdiv_pos by by apply qn_pos.
  unfold Spec.avg_recall, correct_count.
  apply (fsum_scaled (λ i, c i i)). intros i Hi%elem_of_seq.
  rewrite count_weight, count_recall by lia.
  destruct (decide (row_count c n i = 0)) as [E|E]; cbn [fmul]; f_equal.
  - assert (c i i = 0) as -> by (pose proof (count_diag_le_row i); lia).
    rewrite E. change (qn 0) with 0%Qc. ring.
  - field. split; apply qn_nonzero; [done|lia].
Qed.

(** A weighted average of values of [0, 1] lies in [0, 1]. *)
Lemma count_avg_bounds (v : nat → fval) :
  (∀ i, i < n → ∃ q, v i = Fin q ∧ (0 ≤ q)%Qc ∧ (q ≤ 1)%Qc) →
  ∃ a, fsum ((λ i, fmul (Spec.weight cm n i) (v i)) <$> seq 0 n) = Fin a ∧
       (0 ≤ a)%Qc ∧ (a ≤ 1)%Qc.
Proof.
  intros Hv.
  destruct (fsum_weighted (row_count c n) (/ qn (total_count c n))
              (λ i, fmul (Spec.weight cm n i) (v i)) (seq 0 n))
    as (a & Ea & Ha0 & Ha1).
  - by apply Qcinv_nonneg, Qclt_le_weak, qn_pos.
  - intros i Hi%elem_of_seq. destruct (Hv i) as (q & Eq & Hq); [lia|].
    exists q. split; [|done]. by rewrite count_weight, Eq by lia.
  - exists a. split; [done|]. split; [done|].
    change (sum_list_with (row_count c n) (seq 0 n)) with (total_count c n) in Ha1.
    rewrite Qcmult_inv_r in Ha1; [done|]. by apply qn_nonzero.
Qed.

End CountMatrix.

(** A matrix of counts with nothing off its diagonal. *)
Section DiagonalCounts.

Local Abbreviation qn k := (Q2Qc (inject_Z (Z.of_nat k))).

Context (cm : tensor fval) (n : nat) (c : nat → nat → nat).
Context (Hcounts : holds_counts cm n c).
Context (Hdiag : ∀ i j, i < n → j < n → i ≠ j → c i j = 0).
Context (e : Qc) (He : (0 < e)%Qc) (He1 : (e ≤ 1)%Qc).

Lemma diag_row_count i : i < n → row_count c n i = c i i.
Proof.
  intros Hi. apply sum_list_with_single; [apply NoDup_seq|apply elem_of_seq; lia|].
  intros j Hj%elem_of_seq Hne. apply Hdiag; [lia..|done].
Qed.

Lemma diag_col_count i : i < n → col_count c n i = c i i.
Proof.
  intros Hi.
  apply (sum_list_with_single (λ j, c j i));
    [apply NoDup_seq|apply elem_of_seq; lia|].
  intros j Hj%elem_of_seq Hne. apply Hdiag; [lia..|done].
Qed.

Lemma diag_total_count : total_count c n = correct_count c n.
Proof.
  apply sum_list_with_ext. intros i Hi%elem_of_seq. apply diag_row_count. lia.
Qed.

Lemma Qc_div_same (x : Qc) : x ≠ 0%Qc → (x / x)%Qc = 1%Qc.
Proof. apply Qcmult_inv_r. Qed.

Lemma diag_recall i :
  i < n → 0 < c i i → Spec.recall cm n (Fin e) i = Fin 1%Qc.
Proof.
  intros Hi Hc. rewrite (count_recall cm n c) by done.
  rewrite diag_row_count by done. destruct (decide (c i i = 0)); [lia|].
  f_equal. by apply Qc_div_same, qn_nonzero.
Qed.

Lemma diag_precision i :
  i < n → 0 < c i i → Spec.precision cm n (Fin e) i = Fin 1%Qc.
Proof.
  intros Hi Hc. rewrite (count_precision cm n c) by done.
  rewrite diag_col_count by done. destruct (decide (c i i = 0)); [lia|].
  f_equal. by apply Qc_div_same, qn_nonzero.
Qed.

(** The F1 score of a precision and a recall that are both 1. *)
Lemma f1_of_ones :
  fdiv (fmul (fmul (of_Z 2) (Fin 1%Qc)) (Fin 1%Qc))
       (fmax (fadd (Fin 1%Qc) (Fin 1%Qc)) (Fin e)) = Fin 1%Qc.
Proof.
  cbn [fadd fmul of_Z]. rewrite fmax_l.
  - rewrite fdiv_pos by done. f_equal. by apply Qc_is_canon.
  - eapply Qcle_trans; [done|]. done.
Qed.

Lemma diag_f1 i :
  i < n → 0 < c i i → Spec.f1 cm n (Fin e) i = Fin 1%Qc.
Proof.
  intros Hi Hc. unfold Spec.f1. rewrite diag_precision, diag_recall by done.
  apply f1_of_ones.
Qed.

Context (Htotal : 0 < total_count c n).

Lemma diag_avg_recall : Spec.avg_recall cm n (Fin e) = Fin 1%Qc.
Proof.
  rewrite (count_avg_recall cm n c) by done. rewrite <- diag_total_count.
  unfold of_nat, of_Z. rewrite fdiv_pos by by apply qn_pos.
  f_equal. by apply Qc_div_same, qn_nonzero.
Qed.

Lemma diag_avg_precision : Spec.avg_precision cm n (Fin e) = Fin 1%Qc.
Proof.
  unfold Spec.avg_precision.
  rewrite (fsum_scaled (λ i, c i i) (/ qn (total_count c n))).
  - fold (correct_count c n). rewrite <- diag_total_count.
    f_equal. by apply Qcmult_inv_r, qn_nonzero.
  - intros i Hi%elem_of_seq. rewrite (count_weight cm n c) by (done || lia).
    rewrite diag_row_count by lia.
    destruct (decide (c i i = 0)) as [E|E].
    + rewrite (count_precision cm n c), diag_col_count by (done || lia).
      rewrite decide_True by done. cbn [fmul]. f_equal. rewrite E.
      change (qn 0) with 0%Qc. ring.
    + rewrite diag_precision by lia. cbn [fmul]. f_equal. ring.
Qed.

Lemma diag_avg_f1 : Spec.avg_f1 cm n (Fin e) = Fin 1%Qc.
Proof.
  unfold Spec.avg_f1. rewrite diag_avg_precision, diag_avg_recall.
  apply f1_of_ones.
Qed.

End DiagonalCounts.

(** *** The counts of [compute_conf_mat] *)

Section HitCounts.

Context (out y : tensor Z) (m : nat).

Lemma hit_counts (num_labels : Z) :
  shape out = [m] → shape y = [m] → (0 ≤ num_labels)%Z →
  ∃ cm, compute_conf_mat out y num_labels = Ok cm ∧
    shape cm = [Z.to_nat num_labels; Z.to_nat num_labels] ∧
    holds_counts cm (Z.to_nat num_labels) (hit_count out y m).
Proof.
  intros Ho Hy HL.
  destruct (compute_conf_mat_vec out y m num_labels Ho Hy HL)
    as (cm & Ecm & Scm & Ccm).
  exists cm. split; [done|]. split; [done|]. intros g p Hg Hp.
  rewrite Ccm by done. unfold hit_count. rewrite <- fsum_of_nat.
  apply fsum_ext. intros. apply of_bool_b2n.
Qed.

Lemma hit_total_count n :
  (∀ k, k < m → in_range (Z.of_nat n) (cell out [k]) ∧
                in_range (Z.of_nat n) (cell y [k])) →
  total_count (hit_count out y m) n = m.
Proof.
  intros Hall. unfold total_count, row_count.
  rewrite <- sum_indices_square. unfold hit_count.
  rewrite sum_list_with_swap.
  rewrite (sum_list_with_ext _ _ _ (λ k _, hit_once out y k n)).
  rewrite (sum_list_with_filter _
    (λ k, in_range (Z.of_nat n) (cell out [k]) ∧
          in_range (Z.of_nat n) (cell y [k])))
    by (intros; apply bool_decide_eq_true).
  rewrite filter_all; [apply length_seq|].
  intros k Hk%elem_of_seq. apply Hall. lia.
Qed.

Lemma hit_diag_once n k :
  in_range (Z.of_nat n) (cell y [k]) →
  sum_list_with (λ i, Nat.b2n (hit out y i i k)) (seq 0 n) =
    Nat.b2n (bool_decide (cell out [k] = cell y [k])).
Proof.
  intros Hy. unfold hit. case_bool_decide as E.
  - rewrite E.
    rewrite (sum_list_with_ext _ (λ i, Nat.b2n (cell y [k] =? Z.of_nat i)%Z))
      by (intros; by rewrite andb_diag).
    rewrite sum_label_indicator. by rewrite bool_decide_eq_true_2.
  - rewrite (sum_list_with_ext _ (λ _, 0)); [apply sum_list_with_zero|].
    intros i _.
    destruct (Z.eqb_spec (cell out [k]) (Z.of_nat i)) as [Eo|]; [|done].
    destruct (Z.eqb_spec (cell y [k]) (Z.of_nat i)) as [Ey|]; [|done].
    congruence.
Qed.

Lemma hit_correct_count n :
  (∀ k, k < m → in_range (Z.of_nat n) (cell y [k])) →
  correct_count (hit_count out y m) n =
    length (filter (λ k, cell out [k] = cell y [k]) (seq 0 m)).
Proof.
  intros Hall. unfold correct_count, hit_count.
  rewrite (sum_list_with_swap (λ i k, Nat.b2n (hit out y i i k))).
  rewrite (sum_list_with_ext _
    (λ k, Nat.b2n (bool_decide (cell out [k] = cell y [k])))).
  - apply sum_list_with_filter. intros; apply bool_decide_eq_true.
  - intros k Hk%elem_of_seq. apply hit_diag_once, Hall. lia.
Qed.

End HitCounts.

(** *** Splitting *)

Section Split.

Import TorchShape.

Lemma maybe_wrap_dim_ok dim ndim :
  (- Z.of_nat ndim ≤ dim < Z.of_nat ndim)%Z →
  maybe_wrap_dim dim ndim = Ok (Z.to_nat (dim `mod` Z.of_nat ndim)) ∧
  Z.to_nat (dim `mod` Z.of_nat ndim) < ndim.
Proof.
  intros Hdim. unfold maybe_wrap_dim. rewrite decide_True by done.
  assert (0 ≤ dim `mod` Z.of_nat ndim < Z.of_nat ndim)%Z
    by (apply Z.mod_pos_bound; lia).
  split; [|lia]. do 2 f_equal. destruct (decide (dim < 0)%Z).
  - apply (Z.mod_unique _ _ (-1)); lia.
  - symmetry. apply Z.mod_small. lia.
Qed.

Lemma maybe_wrap_dim_raise dim ndim :
  ¬ (- Z.of_nat ndim ≤ dim < Z.of_nat ndim)%Z →
  maybe_wrap_dim dim ndim = Raise IndexError.
Proof. intros Hdim. unfold maybe_wrap_dim. by rewrite decide_False. Qed.

Context {A : Type} `{Inhabited A} (t : tensor A) (d : nat).

Lemma narrow_all_length lens start :
  length (narrow_all t d start lens) = length lens.
Proof. revert start. induction lens; intros; cbn; [done|]. by rewrite IHlens. Qed.

Lemma narrow_all_lookup lens : ∀ start i len,
  lens !! i = Some len →
  narrow_all t d start lens !! i =
    Some (narrow t d (start + sum_list (take i lens)) len).
Proof.
  induction lens as [|a lens IH]; intros start [|i] len Hi; try done.
  - cbn in *. injection Hi as ->. by rewrite Nat.add_0_r.
  - cbn in *. rewrite (IH _ _ len) by done. by rewrite Nat.add_assoc.
Qed.

Lemma narrow_all_shapes lens start :
  Forall2 (λ piece len, shape piece = <[d := len]> (shape t))
          (narrow_all t d start lens) lens.
Proof.
  revert start. induction lens as [|a lens IH]; intros; cbn; [done|].
  by constructor.
Qed.

Lemma narrow_all_app lens1 lens2 start :
  narrow_all t d start (lens1 ++ lens2) =
    narrow_all t d start lens1 ++
    narrow_all t d (start + sum_list lens1) lens2.
Proof.
  revert start. induction lens1 as [|a lens1 IH]; intros; cbn.
  - by rewrite Nat.add_0_r.
  - by rewrite IH, Nat.add_assoc.
Qed.

Lemma narrow_all_replicate q size start :
  narrow_all t d start (replicate q size) =
    (λ i, narrow t d (start + i * size) size) <$> seq 0 q.
Proof.
  revert start. induction q as [|q IH]; intros; [done|].
  cbn [replicate narrow_all seq fmap list_fmap]. rewrite Nat.add_0_r. f_equal.
  rewrite IH, <- fmap_S_seq, <- list_fmap_compose. apply list_fmap_ext.
  intros _ i _. cbn. f_equal. lia.
Qed.

(** The pieces laid end to end are the tensor. *)
Lemma narrow_all_cat lens :
  d < length (shape t) →
  ∀ start idx, d < length idx → idx !!! d < sum_list lens →
    cat_cell (narrow_all t d start lens) d idx =
      cell t (alter (Nat.add start) d idx).
Proof.
  intros Hd. induction lens as [|len lens IH]; intros start idx Hidx Hlt.
  - cbn in Hlt. lia.
  - cbn [narrow_all cat_cell]. cbn [narrow shape]. cbn zeta.
    rewrite list_lookup_total_insert_eq by done.
    destruct (Nat.ltb_spec (idx !!! d) len) as [Hin|Hout]; [done|].
    rewrite IH.
    + f_equal. rewrite list_alter_alter_eq. apply list_alter_ext; [|done].
      intros x Hx. apply list_lookup_total_correct in Hx. cbn. lia.
    + by rewrite length_alter.
    + rewrite list_lookup_total_alter_eq by done. cbn in Hlt. lia.
Qed.

Lemma sum_list_chunk_sizes n size :
  0 < size ∨ n = 0 → sum_list (chunk_sizes n size) = n.
Proof.
  intros Hs. unfold chunk_sizes. destruct (Nat.eqb_spec n 0) as [->|Hn]; [done|].
  assert (0 < size) by lia. rewrite sum_list_with_app, sum_list_replicate.
  pose proof (Nat.div_mod_eq n size).
  destruct (Nat.eqb_spec (n `mod` size) 0); cbn; lia.
Qed.

(** The number of pieces of [split], as ATen computes it. *)
Lemma num_splits_chunks (n size : nat) :
  0 < size → 0 < n →
  Z.max ((Z.of_nat n + Z.of_nat size - 1) ÷ Z.of_nat size) 1 =
    Z.of_nat (n / size + (if n `mod` size =? 0 then 0 else 1)).
Proof.
  intros Hs Hn. rewrite Z.quot_div_nonneg by lia.
  pose proof (Nat.div_mod_eq n size) as Hdiv.
  pose proof (Nat.mod_upper_bound n size) as Hmod.
  assert (((Z.of_nat n + Z.of_nat size - 1) `div` Z.of_nat size)%Z =
          Z.of_nat (n / size + (if n `mod` size =? 0 then 0 else 1))) as ->.
  { symmetry. destruct (Nat.eqb_spec (n `mod` size) 0) as [E|E].
    - apply (Z.div_unique _ _ _ (Z.of_nat size - 1)); [lia|]. nia.
    - apply (Z.div_unique _ _ _ (Z.of_nat (n `mod` size) - 1)); [lia|]. nia. }
  destruct (Nat.eqb_spec (n `mod` size) 0) as [E|E]; [|lia].
  assert (0 < n / size) by (destruct (n / size); [nia|lia]). lia.
Qed.

Lemma split_chunks (split_size dim : Z) :
  shape t ≠ [] → (0 ≤ split_size)%Z →
  maybe_wrap_dim dim (length (shape t)) = Ok d →
  (0 < split_size)%Z ∨ shape t !!! d = 0 →
  split t split_size dim =
    Ok (narrow_all t d 0
          (chunk_sizes (shape t !!! d) (Z.to_nat split_size))).
Proof.
  intros Hshape Hsize Hd Hok.
  destruct (Z_of_nat_complete split_size Hsize) as [size ->]. clear Hsize.
  rewrite Nat2Z.id. unfold split.
  rewrite decide_False, decide_False by (done || lia). rewrite Hd.
  cbn [mbind result_bind]. cbn zeta. rewrite decide_True by lia. f_equal.
  revert Hok. generalize (shape t !!! d). intros n Hok.
  unfold chunk_sizes. destruct (Nat.eqb_spec n 0) as [->|Hn].
  - assert ((if decide (Z.of_nat size = 0)%Z then 1%Z
             else Z.max ((Z.of_nat 0 + Z.of_nat size - 1) ÷ Z.of_nat size) 1)
            = 1%Z) as ->.
    { destruct (decide (Z.of_nat size = 0)%Z); [done|].
      rewrite Z.quot_small by lia. done. }
    change (Z.to_nat 1) with 1. cbn [seq fmap list_fmap narrow_all].
    rewrite decide_False by lia. f_equal. f_equal; lia.
  - assert (0 < size) by lia. rewrite decide_False by lia.
    rewrite num_splits_chunks by lia.
    set (q := n / size). set (r := n `mod` size).
    pose proof (Nat.div_mod_eq n size) as Hdiv. fold q r in Hdiv.
    rewrite !Nat2Z.id, narrow_all_app, narrow_all_replicate, sum_list_replicate.
    rewrite seq_app, fmap_app. f_equal.
    + apply list_fmap_ext. intros _ i Hi%list_elem_of_lookup_2%elem_of_seq.
      f_equal. destruct (decide _); [lia|].
      destruct (Nat.eqb_spec r 0); nia.
    + destruct (Nat.eqb_spec r 0) as [E|E]; [by rewrite Nat.add_0_r|].
      cbn [seq fmap list_fmap narrow_all]. rewrite decide_False by lia.
      do 2 f_equal; nia.
Qed.

End Split.

Section SplitInversion.

Import TorchShape.

Context {A : Type} `{Inhabited A} (t : tensor A).

Lemma split_inv split_size dim pieces :
  split t split_size dim = Ok pieces →
  shape t ≠ [] ∧ (0 ≤ split_size)%Z ∧
  (- Z.of_nat (length (shape t)) ≤ dim < Z.of_nat (length (shape t)))%Z ∧
  ((0 < split_size)%Z ∨
   shape t !!! Z.to_nat (dim `mod` Z.of_nat (length (shape t))) = 0).
Proof.
  unfold split. destruct (decide (shape t = [])); [done|].
  destruct (decide (split_size < 0)%Z); [done|].
  destruct (decide (- Z.of_nat (length (shape t)) ≤ dim
                    < Z.of_nat (length (shape t)))%Z) as [Hdim|Hdim].
  - rewrite (proj1 (maybe_wrap_dim_ok _ _ Hdim)). cbn [mbind result_bind].
    cbn zeta. destruct (decide _) as [Hok|]; [|done].
    intros _. repeat split; [done|lia|lia|lia|lia].
  - by rewrite maybe_wrap_dim_raise.
Qed.

Lemma split_with_sizes_inv split_sizes dim pieces :
  split_with_sizes t split_sizes dim = Ok pieces →
  shape t ≠ [] ∧
  (- Z.of_nat (length (shape t)) ≤ dim < Z.of_nat (length (shape t)))%Z ∧
  Forall (λ z, 0 ≤ z)%Z split_sizes ∧
  foldr Z.add 0%Z split_sizes =
    Z.of_nat (shape t !!! Z.to_nat (dim `mod` Z.of_nat (length (shape t)))) ∧
  pieces = narrow_all t (Z.to_nat (dim `mod` Z.of_nat (length (shape t)))) 0
             (Z.to_nat <$> split_sizes).
Proof.
  unfold split_with_sizes. destruct (decide (shape t = [])); [done|].
  destruct (decide (- Z.of_nat (length (shape t)) ≤ dim
                    < Z.of_nat (length (shape t)))%Z) as [Hdim|Hdim].
  - rewrite (proj1 (maybe_wrap_dim_ok _ _ Hdim)). cbn [mbind result_bind].
    cbn zeta. destruct (decide (Forall _ _)); [|done].
    destruct (decide (foldr _ _ _ = _)); [|done].
    by intros [= <-].
  - by rewrite maybe_wrap_dim_raise.
Qed.

Lemma sum_list_to_nat (l : list Z) :
  Forall (λ z, 0 ≤ z)%Z l →
  Z.of_nat (sum_list (Z.to_nat <$> l)) = foldr Z.add 0%Z l.
Proof.
  induction 1 as [|z l Hz _ IH]; [done|]. cbn. lia.
Qed.

Lemma valid_index_lookup (s idx : list nat) d :
  valid_index s idx → d < length s →
  d < length idx ∧ idx !!! d < s !!! d.
Proof.
  intros Hidx Hd. pose proof (Forall2_length _ _ _ Hidx) as Hlen.
  split; [lia|].
  destruct (lookup_lt_is_Some_2 idx d) as [i Hi]; [lia|].
  destruct (lookup_lt_is_Some_2 s d Hd) as [n Hn].
  rewrite (list_lookup_total_correct _ _ _ Hi),
    (list_lookup_total_correct _ _ _ Hn).
  by eapply (Forall2_lookup_lr _ _ _ _ _ _ Hidx).
Qed.

End SplitInversion.

(** *** Sequences of calls that raise *)

Lemma mapM_raise {A B} (f : A → result B) pre x post ys e :
  Forall2 (λ x y, f x = Ok y) pre ys → f x = Raise e →
  mapM f (pre ++ x :: post) = Raise e.
Proof.
  intros Hpre Hx. induction Hpre as [|a y pre ys Ha _ IH].
  - cbn. by rewrite Hx.
  - cbn. rewrite Ha. cbn. by rewrite IH.
Qed.

Lemma py_sum_raise (l : list pyval) e :
  foldl (λ acc x, a ← acc; py_add a x) (Raise e) l = Raise e.
Proof. by induction l. Qed.

(** The sum of a non-empty sequence of tensors of one shape. *)
Lemma py_sum_tensors (ts : list (tensor fval)) s :
  ts ≠ [] → Forall (λ t, shape t = s) ts →
  ∃ r, py_sum (PSeq (PTensor <$> ts)) = Ok (PTensor r) ∧
       shape r = s ∧
       ∀ idx, valid_index s idx →
         cell r idx = fsum ((λ t, cell t idx) <$> ts).
Proof.
  intros Hne Hts. destruct ts as [|t ts]; [done|].
  apply Forall_cons in Hts as [St Hts].
  destruct (py_sum_loop s ts (Torch.tmap (λ v, fadd v (of_Z 0)) t) St Hts)
    as (r & Er & Sr & Cr).
  exists r. split; [exact Er|]. split; [done|].
  intros idx Hidx. rewrite Cr by done. unfold fsum.
  rewrite fmap_cons. cbn [foldl Torch.tmap cell].
  change (of_Z 0) with (Fin 0%Qc). by rewrite fadd_0_l, fadd_0_r.
Qed.

Lemma Forall3_tensors (ms : list module) pieces ys s :
  Forall3 (λ (m : module) piece y, m (PTensor piece) = Ok (PTensor y) ∧
                                   shape y = s) ms pieces ys →
  Forall3 (λ (m : module) x y, m x = Ok y) ms (PTensor <$> pieces)
          (PTensor <$> ys) ∧
  Forall (λ y, shape y = s) ys.
Proof.
  induction 1 as [|m piece y ms pieces ys [Hm Hs] _ [IH1 IH2]].
  - split; constructor.
  - split; constructor; done.
Qed.

(** *** Clipping *)

Section Clip.

Lemma Qc_ltb_lt x y : Qc_ltb x y = true ↔ (x < y)%Qc.
Proof. unfold Qc_ltb. rewrite Qclt_alt. by destruct (x ?= y)%Qc. Qed.

Lemma Qc_ltb_ge x y : Qc_ltb x y = false ↔ (y ≤ x)%Qc.
Proof.
  split.
  - intros E. apply Qcnot_lt_le. intros Hlt%Qc_ltb_lt. congruence.
  - intros Hle. destruct (Qc_ltb x y) eqn:E; [|done].
    apply Qc_ltb_lt in E. by apply Qcle_not_lt in Hle.
Qed.

Lemma Qc_max_spec x y :
  (x ≤ Qc_max x y)%Qc ∧ (y ≤ Qc_max x y)%Qc ∧ (Qc_max x y = x ∨ Qc_max x y = y).
Proof.
  unfold Qc_max. destruct (Qc_ltb x y) eqn:E.
  - apply Qc_ltb_lt in E. repeat split; [by apply Qclt_le_weak|apply Qcle_refl|by right].
  - apply Qc_ltb_ge in E. repeat split; [apply Qcle_refl|done|by left].
Qed.

Lemma Qc_min_spec x y :
  (Qc_min x y ≤ x)%Qc ∧ (Qc_min x y ≤ y)%Qc ∧ (Qc_min x y = x ∨ Qc_min x y = y).
Proof.
  unfold Qc_min. destruct (Qc_ltb y x) eqn:E.
  - apply Qc_ltb_lt in E. repeat split; [by apply Qclt_le_weak|apply Qcle_refl|by right].
  - apply Qc_ltb_ge in E. repeat split; [apply Qcle_refl|done|by left].
Qed.

Lemma Qc_max_r x y : (x ≤ y)%Qc → Qc_max x y = y.
Proof.
  intros H. destruct (Qc_max_spec x y) as (Hx & Hy & [E|E]); [|done].
  rewrite E in *. by apply Qcle_antisym.
Qed.

Lemma Qc_max_l x y : (y ≤ x)%Qc → Qc_max x y = x.
Proof.
  intros H. destruct (Qc_max_spec x y) as (Hx & Hy & [E|E]); [done|].
  rewrite E in *. by apply Qcle_antisym.
Qed.

Lemma Qc_min_l x y : (x ≤ y)%Qc → Qc_min x y = x.
Proof.
  intros H. destruct (Qc_min_spec x y) as (Hx & Hy & [E|E]); [done|].
  rewrite E in *. by apply Qcle_antisym.
Qed.




Lemma clip_id x lo hi :
  (lo ≤ x)%Qc → (x ≤ hi)%Qc → Qc_min (Qc_max x lo) hi = x.
Proof. intros Hlo Hhi. by rewrite Qc_max_l, Qc_min_l. Qed.

End Clip.

(** *** Sequences of calls that return *)


Lemma mapM_fmap {A B C} (f : B → result C) (g : A → B) (l : list A) :
  mapM f (g <$> l) = mapM (λ x, f (g x)) l.
Proof. induction l as [|x l IH]; [done|]. cbn. by rewrite IH. Qed.

Lemma mapM_exists {A B} (f : A → result B) (P : A → B → Prop) (l : list A) :
  (∀ x, x ∈ l → ∃ y, f x = Ok y ∧ P x y) →
  ∃ ys, mapM f l = Ok ys ∧ Forall2 P l ys.
Proof.
  induction l as [|x l IH]; intros Hl.
  - exists []. by split.
  - destruct (Hl x) as (y & Ey & Hy); [left|].
    destruct IH as (ys & Eys & Hys); [intros; apply Hl; by right|].
    exists (y :: ys). split; [|by constructor].
    cbn. rewrite Ey. cbn. by rewrite Eys.
Qed.

(** *** The exact normalization *)

Section MinMaxArithmetic.

Lemma this_opp (x : Qc) : (this (- x)%Qc == - this x)%Q.
Proof. apply Qred_correct. Qed.

Lemma this_minus (x y : Qc) : (this (x - y)%Qc == this x - this y)%Q.
Proof. unfold Qcminus. by rewrite this_plus, this_opp. Qed.

Lemma DBL_EPSILON_pos : (0 < DBL_EPSILON)%Qc.
Proof. reflexivity. Qed.

Lemma minmax_value_ordered lo hi a b x :
  (a ≤ b)%Qc →
  minmax_value lo hi a b x =
    if Qc_ltb DBL_EPSILON (hi - lo)
    then (a + (x - lo) * (b - a) / (hi - lo))%Qc
    else a.
Proof.
  intros Hab. unfold minmax_value, minmax_scale.
  rewrite Qc_max_r, Qc_min_l by done.
  destruct (Qc_ltb DBL_EPSILON (hi - lo)); unfold Qcdiv; ring.
Qed.

(** A value of [[lo, hi]] rescaled to [[a, b]] lies in [[a, b]]. *)
Lemma rescale_bounds lo hi a b x :
  (a ≤ b)%Qc → (lo ≤ x)%Qc → (x ≤ hi)%Qc → (0 < hi - lo)%Qc →
  (a ≤ a + (x - lo) * (b - a) / (hi - lo))%Qc ∧
  (a + (x - lo) * (b - a) / (hi - lo) ≤ b)%Qc.
Proof.
  unfold Qcle, Qclt.
  rewrite this_plus, this_div, this_mult, !this_minus.
  cbn [this Q2Qc]. change (Qred 0) with 0%Q.
  generalize (this lo) (this hi) (this a) (this b) (this x).
  intros LO HI A B X Hab Hlo Hhi Hpos.
  assert (0 <= (X - LO) * (B - A) / (HI - LO))%Q.
  { apply Qle_shift_div_l; [done|]. nra. }
  assert ((X - LO) * (B - A) / (HI - LO) <= B - A)%Q.
  { apply Qle_shift_div_r; [done|]. nra. }
  split; lra.
Qed.

Lemma rescale_lo lo hi a b : (a + (lo - lo) * (b - a) / (hi - lo))%Qc = a.
Proof. unfold Qcdiv. ring. Qed.

Lemma rescale_hi lo hi a b :
  (0 < hi - lo)%Qc → (a + (hi - lo) * (b - a) / (hi - lo))%Qc = b.
Proof.
  intros Hpos. field. intros E. rewrite E in Hpos. by apply Qclt_not_eq in Hpos.
Qed.

Lemma rescale_mono lo hi a b x x' :
  (a ≤ b)%Qc → (0 < hi - lo)%Qc → (x ≤ x')%Qc →
  (a + (x - lo) * (b - a) / (hi - lo) ≤ a + (x' - lo) * (b - a) / (hi - lo))%Qc.
Proof.
  unfold Qcle, Qclt.
  rewrite !this_plus, !this_div, !this_mult, !this_minus.
  cbn [this Q2Qc]. change (Qred 0) with 0%Q.
  generalize (this lo) (this hi) (this a) (this b) (this x) (this x').
  intros LO HI A B X X' Hab Hpos Hx.
  assert ((X - LO) * (B - A) / (HI - LO) <= (X' - LO) * (B - A) / (HI - LO))%Q.
  { apply Qle_shift_div_r; [done|].
    assert ((X' - LO) * (B - A) / (HI - LO) * (HI - LO)
            == (X' - LO) * (B - A))%Q as -> by (field; lra).
    nra. }
  lra.
Qed.

End MinMaxArithmetic.

(** *** [MinMaxNormalize.apply] *)

Section Normalize.

Context (cv2_normalize : tensor Qc → Qc → Qc → Z → result (tensor Qc)).
Context (self : MinMaxNormalize.t).

Local Abbreviation a := (MinMaxNormalize.min_val self).
Local Abbreviation b := (MinMaxNormalize.max_val self).



Context (Hnorm : norm_minmax cv2_normalize).
Context (Hab : (a ≤ b)%Qc).

(** A non-empty array of two dimensions is rescaled; the clipping
    changes nothing in exact arithmetic. *)
Lemma apply_on_channel_rescaled image h w lo hi :
  shape image = [h; w] → plane_range image h w lo hi →
  ∃ out, MinMaxNormalize._apply_on_channel cv2_normalize self image = Ok out ∧
    shape out = [h; w] ∧ rescaled image out h w lo hi a b.
Proof.
  intros Hshape Hrange.
  destruct (Hnorm image h w lo hi a b (MinMaxNormalize.dtype self) Hshape Hrange)
    as (raw & Eraw & Sraw & Craw).
  unfold MinMaxNormalize._apply_on_channel. rewrite Eraw. cbn.
  eexists. split; [done|]. split; [done|]. intros i j Hi Hj.
  cbn [Np.clip Torch.tmap cell]. rewrite Craw by done.
  rewrite minmax_value_ordered by done.
  destruct (Hrange) as (_ & _ & Hall). destruct (Hall i j Hi Hj) as [Hlo Hhi].
  destruct (Qc_ltb DBL_EPSILON (hi - lo)) eqn:E.
  - apply Qc_ltb_lt in E.
    assert (0 < hi - lo)%Qc by (eapply Qclt_trans; [apply DBL_EPSILON_pos|done]).
    destruct (rescale_bounds lo hi a b (cell image [i; j])); [done..|].
    by apply clip_id.
  - apply clip_id; [apply Qcle_refl|done].
Qed.

End Normalize.

(** *** The example normalization is exact *)

Section ExampleNormalize.

Lemma elem_of_indices_rect h w idx :
  idx ∈ Torch.indices [h; w] ↔ ∃ i j, idx = [i; j] ∧ i < h ∧ j < w.
Proof.
  change (Torch.indices [h; w])
    with (seq 0 h ≫= λ g, (g ::.) <$> Torch.indices [w]).
  rewrite indices_vec, list_elem_of_bind. split.
  - intros (g & (p & -> & (j & -> & Hj%elem_of_seq)%list_elem_of_fmap)
                  %list_elem_of_fmap & Hg%elem_of_seq).
    exists g, j. repeat split; lia.
  - intros (i & j & -> & Hi & Hj). exists i. split.
    + apply list_elem_of_fmap. exists [j]. split; [done|].
      apply list_elem_of_fmap. exists j. split; [done|]. apply elem_of_seq. lia.
    + apply elem_of_seq. lia.
Qed.

Lemma foldr_min_spec (l : list Qc) d :
  (foldr Qc_min d l ≤ d)%Qc ∧
  (∀ x, x ∈ l → (foldr Qc_min d l ≤ x)%Qc) ∧
  (foldr Qc_min d l = d ∨ foldr Qc_min d l ∈ l).
Proof.
  induction l as [|y l (IHd & IHl & IHm)]; cbn.
  - split; [apply Qcle_refl|]. split; [by intros ? ?%elem_of_nil|by left].
  - destruct (Qc_min_spec y (foldr Qc_min d l)) as (Hy & Hm & Hor).
    split; [by eapply Qcle_trans|]. split.
    + intros x [->|Hx]%elem_of_cons; [done|].
      eapply Qcle_trans; [done|]. by apply IHl.
    + destruct Hor as [->| ->]; [right; left|].
      destruct IHm as [->|Hin]; [by left|right; by right].
Qed.

Lemma foldr_max_spec (l : list Qc) d :
  (d ≤ foldr Qc_max d l)%Qc ∧
  (∀ x, x ∈ l → (x ≤ foldr Qc_max d l)%Qc) ∧
  (foldr Qc_max d l = d ∨ foldr Qc_max d l ∈ l).
Proof.
  induction l as [|y l (IHd & IHl & IHm)]; cbn.
  - split; [apply Qcle_refl|]. split; [by intros ? ?%elem_of_nil|by left].
  - destruct (Qc_max_spec y (foldr Qc_max d l)) as (Hy & Hm & Hor).
    split; [by eapply Qcle_trans|]. split.
    + intros x [->|Hx]%elem_of_cons; [done|].
      eapply Qcle_trans; [|done]. by apply IHl.
    + destruct Hor as [->| ->]; [right; left|].
      destruct IHm as [->|Hin]; [by left|right; by right].
Qed.

Lemma hd_elem_of (l : list Qc) x : x ∈ l → hd 0%Qc l ∈ l.
Proof. destruct l; [by intros ?%elem_of_nil|]. intros _. left. Qed.

Lemma example_normalize_minmax : norm_minmax example_normalize.
Proof.
  intros img h w lo hi alpha beta dt Hshape (Hlo & Hhi & Hall).
  unfold example_normalize. rewrite Hshape.
  set (cells := cell img <$> Torch.indices [h; w]).
  assert (∀ x, x ∈ cells ↔ ∃ i j, i < h ∧ j < w ∧ cell img [i; j] = x)
    as Hcells.
  { intros x. unfold cells. rewrite list_elem_of_fmap. split.
    - intros (idx & -> & (i & j & -> & Hi & Hj)%elem_of_indices_rect).
      by exists i, j.
    - intros (i & j & Hi & Hj & <-). exists [i; j]. split; [done|].
      apply elem_of_indices_rect. by exists i, j. }
  assert (foldr Qc_min (hd 0%Qc cells) cells = lo) as ->.
  { destruct (foldr_min_spec cells (hd 0%Qc cells)) as (_ & Hle & Hin).
    assert (lo ∈ cells) as Hlo' by by apply Hcells.
    assert (foldr Qc_min (hd 0%Qc cells) cells ∈ cells) as Hm.
    { destruct Hin as [->|]; [by eapply hd_elem_of|done]. }
    apply Hcells in Hm as (i & j & Hi & Hj & Hm).
    apply Qcle_antisym; [by apply Hle|]. rewrite <- Hm. by apply Hall. }
  assert (foldr Qc_max (hd 0%Qc cells) cells = hi) as ->.
  { destruct (foldr_max_spec cells (hd 0%Qc cells)) as (_ & Hle & Hin).
    assert (hi ∈ cells) as Hhi' by by apply Hcells.
    assert (foldr Qc_max (hd 0%Qc cells) cells ∈ cells) as Hm.
    { destruct Hin as [->|]; [by eapply hd_elem_of|done]. }
    apply Hcells in Hm as (i & j & Hi & Hj & Hm).
    apply Qcle_antisym; [|by apply Hle]. rewrite <- Hm. by apply Hall. }
  eexists. split; [done|]. by split.
Qed.

End ExampleNormalize.

(** ** Properties of the confusion-matrix accumulation *)

(** C2, as the code has it.  For one-dimensional tensors [out] and [y] of
    equal length, of at most [2 ^ 24] positions, and a non-negative
    [num_labels], [compute_conf_mat] returns a [num_labels × num_labels]
    matrix whose cell [[g][p]] is the number of positions where the ground
    truth is [g] and the prediction is [p].  The labels need not be in
    range: a label outside [[0, num_labels)] is counted in no cell.  The
    bound on the length is that of the float32 sum of the code, which
    the model makes exactly: up to it the two agree. *)
Theorem compute_conf_mat_flat (out y : tensor Z) (n : nat) (num_labels : Z) :
  shape out = [n] → shape y = [n] → float32_exact n → (0 ≤ num_labels)%Z →
  ∃ cm, compute_conf_mat out y num_labels = Ok cm ∧
    shape cm = [Z.to_nat num_labels; Z.to_nat num_labels] ∧
    ∀ g p, g < Z.to_nat num_labels → p < Z.to_nat num_labels →
      cell cm [g; p] = of_nat (count_positions out y (Z.of_nat g) (Z.of_nat p)).
Proof.
  intros Ho Hy _ HL.
  destruct (compute_conf_mat_vec out y n num_labels Ho Hy HL)
    as (cm & Ecm & Scm & Ccm).
  exists cm. split; [done|]. split; [done|]. intros g p Hg Hp.
  rewrite Ccm by done. unfold count_positions, of_nat.
  rewrite Ho, indices_vec.
  apply (fsum_count _ (λ k, [k]) _ _ 0%Z).
  intros k Hk. unfold hit. rewrite andb_true_iff, !Z.eqb_eq. tauto.
Qed.

Lemma compute_conf_mat_flat_witness :
  (shape example_out = [5] ∧ shape example_y = [5] ∧ float32_exact 5 ∧
   (0 ≤ 2)%Z) ∧
  ∃ cm, compute_conf_mat example_out example_y 2 = Ok cm ∧
    shape cm = [2; 2] ∧
    ∀ g p, g < 2 → p < 2 →
      cell cm [g; p] =
        of_nat (count_positions example_out example_y (Z.of_nat g) (Z.of_nat p)).
Proof.
  split.
  { split; [reflexivity|]. split; [reflexivity|].
    split; [unfold float32_exact; lia|lia]. }
  apply (compute_conf_mat_flat example_out example_y 5 2);
    [reflexivity|reflexivity|unfold float32_exact; lia|lia].
Defined.

(** C2, as stated, fails on a two-dimensional input: for the 2 × 2 label
    grids [grid_out] and [grid_y], whose labels are all in range, the two
    positions of ground truth 0 and prediction 1 are counted in no cell. *)
Lemma compute_conf_mat_grid_counterexample :
  shape grid_out = shape grid_y ∧
  (∀ idx, idx ∈ Torch.indices (shape grid_out) →
     (0 ≤ cell grid_out idx < 2)%Z ∧ (0 ≤ cell grid_y idx < 2)%Z) ∧
  count_positions grid_out grid_y 0 1 = 2 ∧
  ∃ cm, compute_conf_mat grid_out grid_y 2 = Ok cm ∧
    cell cm [0; 1] = of_nat 0 ∧
    cell cm [0; 1] ≠ of_nat (count_positions grid_out grid_y 0 1).
Proof.
  split; [reflexivity|]. split.
  - intros idx Hidx. cbn in Hidx.
    repeat (apply elem_of_cons in Hidx as [->|Hidx]; [cbn; lia|]).
    by apply elem_of_nil in Hidx.
  - split; [reflexivity|]. eexists. split; [reflexivity|].
    split; [reflexivity|]. vm_compute. intros [=].
Qed.

(** A grid whose first dimension is neither 1 nor [num_labels] makes the
    comparison with [labels[:, None]] fail to broadcast. *)
Example compute_conf_mat_grid_raises :
  compute_conf_mat tall_grid_out tall_grid_y 2 = Raise RuntimeError.
Proof. reflexivity. Qed.



(** ** Properties of the metrics derivation *)

Ltac fval_eq :=
  vm_compute;
  repeat lazymatch goal with
  | |- Some _ = Some _ => apply (f_equal Some)
  | |- Fin _ = Fin _ => apply (f_equal Fin), Qc_is_canon; reflexivity
  end.

(** C1.  For a square confusion matrix [cm] of dimension [n] and [n] label
    names, [compute_conf_mat_metrics] returns the report of the
    specification: the aggregate entries, overwritten by the entries of
    each class in turn.  In it the entries of every class [i] (under the
    name of the class, when no later class bears the same name) are
    [precision[i] = true_pos[i] / max(pred_count[i], eps)],
    [recall[i] = true_pos[i] / max(gt_count[i], eps)] and
    [f1[i] = 2 * precision[i] * recall[i] / max(precision[i] + recall[i], eps)],
    and in which (when no class is named [avg]) [avg_f1] is
    [2 * avg_precision * avg_recall / max(avg_precision + avg_recall, eps)],
    computed from the weighted averages of the precision and the recall.
    On [[[5, 1], [2, 10]]] with the labels [neg] and [pos] and [eps = 1e-6]
    this gives [neg_precision = 5/7], [pos_precision = 10/11],
    [neg_recall = 5/6] and [pos_recall = 10/12]; there [avg_f1 = 26/31],
    which is not the weighted average [250/299] of the two F1 scores. *)
Theorem compute_conf_mat_metrics_formulas :
  (∀ s conf_mat dev cm n label_names eps,
     s !! conf_mat = Some (OTensor dev cm) → shape cm = [n; n] →
     length label_names = n →
     ∃ report,
       report_of (compute_conf_mat_metrics conf_mat label_names eps s)
         = Some report ∧
       report = Spec.report cm n eps label_names ∧
       (∀ i label,
          label_names !! i = Some label →
          (∀ j, i < j → label_names !! j ≠ Some label) →
          let precision :=
            fdiv (Spec.true_pos cm i) (fmax (Spec.pred_count cm n i) eps) in
          let recall :=
            fdiv (Spec.true_pos cm i) (fmax (Spec.gt_count cm n i) eps) in
          report !! precision_key label = Some precision ∧
          report !! recall_key label = Some recall ∧
          report !! f1_key label =
            Some (fdiv (fmul (fmul (of_Z 2) precision) recall)
                       (fmax (fadd precision recall) eps))) ∧
       ("avg" ∉ label_names →
          let avg_precision := Spec.avg_precision cm n eps in
          let avg_recall := Spec.avg_recall cm n eps in
          report !! "avg_precision" = Some avg_precision ∧
          report !! "avg_recall" = Some avg_recall ∧
          report !! "avg_f1" =
            Some (fdiv (fmul (fmul (of_Z 2) avg_precision) avg_recall)
                       (fmax (fadd avg_precision avg_recall) eps)))) ∧
  (∃ report,
     report_of (compute_conf_mat_metrics 0 ["neg"; "pos"] default_eps
                  example_store) = Some report ∧
     report !! "neg_precision" = Some (ratio 5 7) ∧
     report !! "pos_precision" = Some (ratio 10 11) ∧
     report !! "neg_recall" = Some (ratio 5 6) ∧
     report !! "pos_recall" = Some (ratio 10 12) ∧
     report !! "avg_f1" = Some (ratio 26 31) ∧
     Spec.weighted_mean_f1 example_conf_mat 2 default_eps = ratio 250 299).
Proof.
  split.
  - intros s conf_mat dev cm n names eps Hcm Hshape Hlen.
    exists (Spec.report cm n eps names). split.
    { apply (metrics_report s conf_mat dev); [done..|lia]. }
    split; [done|]. split.
    + intros i label Hi Hlast. cbv zeta.
      by rewrite (report_precision _ _ _ _ i), (report_recall _ _ _ _ i),
        (report_f1 _ _ _ _ i).
    + intros Havg. cbv zeta.
      rewrite !report_avg by (done || (apply label_keys_elem; auto)).
      done.
  - exists (Spec.report example_conf_mat 2 default_eps ["neg"; "pos"]). split.
    { by apply (metrics_report _ _ CPU). }
    repeat split; fval_eq.
Qed.

Lemma compute_conf_mat_metrics_formulas_witness :
  (example_store !! 0 = Some (OTensor CPU example_conf_mat) ∧
   shape example_conf_mat = [2; 2] ∧ length ["neg"; "pos"] = 2) ∧
  ∃ report,
    report_of (compute_conf_mat_metrics 0 ["neg"; "pos"] default_eps
                 example_store) = Some report ∧
    report !! precision_key "pos" =
      Some (fdiv (Spec.true_pos example_conf_mat 1)
                 (fmax (Spec.pred_count example_conf_mat 2 1) default_eps)).
Proof.
  split; [by repeat split|].
  destruct (proj1 compute_conf_mat_metrics_formulas example_store 0 CPU
              example_conf_mat 2 ["neg"; "pos"] default_eps)
    as (report & Hrun & _ & Hclass & _); [reflexivity..|].
  exists report. split; [exact Hrun|].
  apply (Hclass 1 "pos"); [reflexivity|].
  intros [|[|j]] Hj; [lia..|]. discriminate.
Defined.

(** C3.  For an all-zero square confusion matrix and a positive [eps],
    every per-class precision, recall and F1 value of the report is 0. *)
Theorem compute_conf_mat_metrics_zero s conf_mat dev cm n label_names (eps : Qc) :
  s !! conf_mat = Some (OTensor dev cm) → shape cm = [n; n] →
  length label_names = n →
  (∀ i j, i < n → j < n → cell cm [i; j] = Fin 0%Qc) →
  (0 < eps)%Qc →
  ∃ report,
    report_of (compute_conf_mat_metrics conf_mat label_names (Fin eps) s)
      = Some report ∧
    ∀ label, label ∈ label_names →
      report !! precision_key label = Some (Fin 0%Qc) ∧
      report !! recall_key label = Some (Fin 0%Qc) ∧
      report !! f1_key label = Some (Fin 0%Qc).
Proof.
  intros Hcm Hshape Hlen Hzero Heps.
  exists (Spec.report cm n (Fin eps) label_names). split.
  { apply (metrics_report s conf_mat dev); [done..|lia]. }
  intros label (i & Hi & Hlast)%last_occurrence.
  assert (i < n) by (rewrite <- Hlen; by eapply lookup_lt_Some).
  rewrite (report_precision _ _ _ _ i), (report_recall _ _ _ _ i),
    (report_f1 _ _ _ _ i) by done.
  by rewrite zero_precision, zero_recall, zero_f1.
Qed.

Lemma compute_conf_mat_metrics_zero_witness :
  ∃ report,
    report_of (compute_conf_mat_metrics 0 ["neg"; "pos"] default_eps zero_store)
      = Some report ∧
    ∀ label, label ∈ ["neg"; "pos"] →
      report !! precision_key label = Some (Fin 0%Qc) ∧
      report !! recall_key label = Some (Fin 0%Qc) ∧
      report !! f1_key label = Some (Fin 0%Qc).
Proof.
  apply (compute_conf_mat_metrics_zero zero_store 0 CPU zero_conf_mat 2
           ["neg"; "pos"] (Q2Qc (1 # 1000000))); [reflexivity..| |reflexivity].
  intros [|[|i]] [|[|j]] Hi Hj; try lia; apply (f_equal Fin), Qc_is_canon;
    reflexivity.
Defined.

(** The aggregate entries of an all-zero matrix are NaN: the weights
    divide by a zero total. *)
Example compute_conf_mat_metrics_zero_avg :
  ∃ report,
    report_of (compute_conf_mat_metrics 0 ["neg"; "pos"] default_eps zero_store)
      = Some report ∧
    report !! "avg_precision" = Some NaN ∧
    report !! "avg_recall" = Some NaN ∧
    report !! "avg_f1" = Some NaN.
Proof.
  exists (Spec.report zero_conf_mat 2 default_eps ["neg"; "pos"]). split.
  { by apply (metrics_report _ _ CPU). }
  by vm_compute.
Qed.

(** C4.  For a square confusion matrix with non-negative entries and a
    positive diagonal (its row and column sums are then positive too),
    every per-class precision, recall and F1 value of the report lies in
    [[0, 1]]. *)
Theorem compute_conf_mat_metrics_unit_interval
    s conf_mat dev cm n label_names (eps : Qc) :
  s !! conf_mat = Some (OTensor dev cm) → shape cm = [n; n] →
  length label_names = n →
  (∀ i j, i < n → j < n → ∃ q, cell cm [i; j] = Fin q ∧ (0 ≤ q)%Qc) →
  (∀ i, i < n → ∃ q, cell cm [i; i] = Fin q ∧ (0 < q)%Qc) →
  ∃ report,
    report_of (compute_conf_mat_metrics conf_mat label_names (Fin eps) s)
      = Some report ∧
    ∀ label, label ∈ label_names →
      ∃ p r f,
        report !! precision_key label = Some (Fin p) ∧
        report !! recall_key label = Some (Fin r) ∧
        report !! f1_key label = Some (Fin f) ∧
        (0 ≤ p)%Qc ∧ (p ≤ 1)%Qc ∧ (0 ≤ r)%Qc ∧ (r ≤ 1)%Qc ∧
        (0 ≤ f)%Qc ∧ (f ≤ 1)%Qc.
Proof.
  intros Hcm Hshape Hlen Hnonneg Hdiag.
  exists (Spec.report cm n (Fin eps) label_names). split.
  { apply (metrics_report s conf_mat dev); [done..|lia]. }
  intros label (i & Hi & Hlast)%last_occurrence.
  assert (i < n) as Hin by (rewrite <- Hlen; by eapply lookup_lt_Some).
  destruct (positive_precision cm n eps Hnonneg Hdiag i Hin) as (p & Ep & Hp & Hp1).
  destruct (positive_recall cm n eps Hnonneg Hdiag i Hin) as (r & Er & Hr & Hr1).
  destruct (positive_f1 cm n eps Hnonneg Hdiag i Hin) as (f & Ef & Hf & Hf1).
  exists p, r, f.
  rewrite (report_precision _ _ _ _ i), (report_recall _ _ _ _ i),
    (report_f1 _ _ _ _ i), Ep, Er, Ef by done.
  repeat split; try done; by apply Qclt_le_weak.
Qed.

Lemma compute_conf_mat_metrics_unit_interval_witness :
  ∃ report,
    report_of (compute_conf_mat_metrics 0 ["neg"; "pos"] default_eps
                 example_store) = Some report ∧
    ∀ label, label ∈ ["neg"; "pos"] →
      ∃ p r f,
        report !! precision_key label = Some (Fin p) ∧
        report !! recall_key label = Some (Fin r) ∧
        report !! f1_key label = Some (Fin f) ∧
        (0 ≤ p)%Qc ∧ (p ≤ 1)%Qc ∧ (0 ≤ r)%Qc ∧ (r ≤ 1)%Qc ∧
        (0 ≤ f)%Qc ∧ (f ≤ 1)%Qc.
Proof.
  apply (compute_conf_mat_metrics_unit_interval example_store 0 CPU
           example_conf_mat 2 ["neg"; "pos"] (Q2Qc (1 # 1000000)));
    [reflexivity..| |].
  - intros [|[|i]] [|[|j]] Hi Hj; try lia; eexists; (split; [reflexivity|]);
      vm_compute; discriminate.
  - intros [|[|i]] Hi; try lia; eexists; (split; [reflexivity|]);
      reflexivity.
Defined.

(** C9, as stated, fails when a class is named [avg]: its three keys are
    the keys of the aggregate entries, which they overwrite.  With the
    labels [avg, avg] the report has 3 entries, not 3 + 3 · 1, and
    [avg_precision] holds the precision [10/11] of class 1. *)
Lemma compute_conf_mat_metrics_avg_label_counterexample :
  ∃ report,
    report_of (compute_conf_mat_metrics 0 ["avg"; "avg"] default_eps
                 example_store) = Some report ∧
    length (remove_dups ["avg"; "avg"]) = 1 ∧
    size report = 3 ∧
    size report ≠ 3 + 3 * length (remove_dups ["avg"; "avg"]) ∧
    report !! "avg_precision" = Some (ratio 10 11).
Proof.
  exists (Spec.report example_conf_mat 2 default_eps ["avg"; "avg"]). split.
  { by apply (metrics_report _ _ CPU). }
  split; [reflexivity|]. split; [by vm_compute|].
  split; [by vm_compute|]. fval_eq.
Qed.

(** C9, as the code has it.  The report has one set of precision, recall
    and F1 keys per distinct label name, and the keys of a name hold the
    values of its last occurrence.  When no class is named [avg] that makes
    3 + 3 · (number of distinct names) entries; when one is, its keys are
    those of the aggregate entries and the report has
    3 · (number of distinct names) entries.  With duplicate names the
    report has fewer than 3 + 3 · [len(label_names)] entries. *)
Theorem compute_conf_mat_metrics_duplicates
    s conf_mat dev cm n label_names eps :
  s !! conf_mat = Some (OTensor dev cm) → shape cm = [n; n] →
  length label_names = n →
  ∃ report,
    report_of (compute_conf_mat_metrics conf_mat label_names eps s)
      = Some report ∧
    dom report = ⋃ (label_keys <$> "avg" :: label_names) ∧
    ("avg" ∉ label_names →
       size report = 3 + 3 * length (remove_dups label_names)) ∧
    ("avg" ∈ label_names →
       size report = 3 * length (remove_dups label_names)) ∧
    (∀ i label,
       label_names !! i = Some label →
       (∀ j, i < j → label_names !! j ≠ Some label) →
       report !! precision_key label = Some (Spec.precision cm n eps i) ∧
       report !! recall_key label = Some (Spec.recall cm n eps i) ∧
       report !! f1_key label = Some (Spec.f1 cm n eps i)) ∧
    (¬ NoDup label_names → size report < 3 + 3 * length label_names).
Proof.
  intros Hcm Hshape Hlen.
  exists (Spec.report cm n eps label_names). split.
  { apply (metrics_report s conf_mat dev); [done..|lia]. }
  pose proof (report_size cm n eps label_names) as Hsize.
  cbn [remove_dups] in Hsize.
  pose proof (remove_dups_length_le label_names) as Hle.
  split; [apply report_dom|].
  destruct (decide_rel elem_of "avg" label_names) as [Havg|Havg];
    cbn [length] in Hsize.
  - split; [done|]. split; [done|]. split.
    + intros i label Hi Hlast.
      by rewrite (report_precision _ _ _ _ i), (report_recall _ _ _ _ i),
        (report_f1 _ _ _ _ i).
    + intros _. lia.
  - split; [intros _; lia|]. split; [done|]. split.
    + intros i label Hi Hlast.
      by rewrite (report_precision _ _ _ _ i), (report_recall _ _ _ _ i),
        (report_f1 _ _ _ _ i).
    + intros Hdup.
      destruct (decide (length (remove_dups label_names) = length label_names))
        as [E|E]; [|lia].
      by apply remove_dups_length_NoDup in E.
Qed.

Lemma compute_conf_mat_metrics_duplicates_witness :
  ∃ report,
    report_of (compute_conf_mat_metrics 0 ["pos"; "pos"] default_eps
                 example_store) = Some report ∧
    size report = 6 ∧
    report !! precision_key "pos" =
      Some (Spec.precision example_conf_mat 2 default_eps 1).
Proof.
  destruct (compute_conf_mat_metrics_duplicates example_store 0 CPU
              example_conf_mat 2 ["pos"; "pos"] default_eps)
    as (report & Hrun & _ & Hsize & _ & Hlast & _); [reflexivity..|].
  exists report. split; [exact Hrun|]. split.
  - apply Hsize. intros Hin.
    repeat (apply elem_of_cons in Hin as [Hin|Hin]; [discriminate|]).
    by apply elem_of_nil in Hin.
  - apply (Hlast 1 "pos"); [reflexivity|].
    intros [|[|j]] Hj; [lia..|]. discriminate.
Defined.

(** C6.  [compute_conf_mat_metrics] leaves its [conf_mat] argument as it
    is, and with it every object of the store it is called in, whether it
    returns or raises. *)
Theorem compute_conf_mat_metrics_frame s conf_mat dev cm label_names eps :
  s !! conf_mat = Some (OTensor dev cm) →
  let s' := (compute_conf_mat_metrics conf_mat label_names eps s).2 in
  s' !! conf_mat = Some (OTensor dev cm) ∧
  ∀ l o, s !! l = Some o → s' !! l = Some o.
Proof.
  intros Hcm s'.
  destruct (frames_metrics (length s) conf_mat label_names eps s (le_n _))
    as (_ & Hkeep & _).
  assert (∀ l o, s !! l = Some o → s' !! l = Some o) as Hall.
  { intros l o Hl. unfold s'. rewrite Hkeep; [done|]. by eapply lookup_lt_Some. }
  split; [by apply Hall|done].
Qed.

Lemma compute_conf_mat_metrics_frame_witness :
  example_store !! 0 = Some (OTensor CPU example_conf_mat) ∧
  (compute_conf_mat_metrics 0 ["neg"; "pos"] default_eps example_store).2 !! 0
    = Some (OTensor CPU example_conf_mat).
Proof.
  split; [reflexivity|].
  exact (proj1 (compute_conf_mat_metrics_frame example_store 0 CPU
                  example_conf_mat ["neg"; "pos"] default_eps eq_refl)).
Defined.

(** ** Properties of the validation and of the wrappers *)

(** C7.  [validate_albumentation_transform] raises the configuration error,
    whose message says to serialize with [A.to_dict], exactly when its
    input is present and [A.from_dict] raises an exception on it; it raises
    no other configuration error, and whenever it returns, it returns its
    input: that is the case for an absent input and for an input that
    deserializes. *)
Theorem validate_albumentation_transform_spec {serialized transform}
    (from_dict : serialized → result transform) (tf : option serialized) :
  (validate_albumentation_transform from_dict tf
     = Raise (ConfigError invalid_serialization_msg)
   ↔ ∃ d e, tf = Some d ∧ from_dict d = Raise e ∧ is_Exception e = true) ∧
  (∀ msg, validate_albumentation_transform from_dict tf = Raise (ConfigError msg) →
     msg = invalid_serialization_msg) ∧
  (∀ r, validate_albumentation_transform from_dict tf = Ok r → r = tf) ∧
  (tf = None → validate_albumentation_transform from_dict tf = Ok None) ∧
  (∀ d t, tf = Some d → from_dict d = Ok t →
     validate_albumentation_transform from_dict tf = Ok tf).
Proof.
  unfold validate_albumentation_transform.
  destruct tf as [d|]; [destruct (from_dict d) as [t|e] eqn:E|].
  - repeat split; try done.
    + intros (d' & e & [= <-] & He & _). congruence.
    + by intros ? [= <-].
  - destruct (is_Exception e) eqn:Ee.
    + repeat split; try done.
      * intros _. by exists d, e.
      * by intros msg [= <-].
      * intros d' t [= <-]. congruence.
    + repeat split; try done.
      * intros [= ->]. discriminate.
      * intros (d' & e' & [= <-] & He & Hex). congruence.
      * intros msg [= ->]. discriminate.
      * intros d' t [= <-]. congruence.
  - repeat split; try done.
    + by intros (d & e & [=] & _).
    + by intros ? [= <-].
Qed.

Lemma validate_albumentation_transform_spec_witness :
  validate_albumentation_transform example_from_dict (Some 0)
    = Raise (ConfigError invalid_serialization_msg) ∧
  validate_albumentation_transform example_from_dict (Some 7) = Ok (Some 7) ∧
  validate_albumentation_transform example_from_dict None = Ok None.
Proof.
  split; [|split].
  - apply (validate_albumentation_transform_spec example_from_dict (Some 0)).
    by exists 0, ValueError.
  - by apply (validate_albumentation_transform_spec example_from_dict (Some 7))
      with 7 7.
  - by apply (validate_albumentation_transform_spec example_from_dict None).
Defined.

(** C8.  For a [Parallel] wrapper of [n] branches: on a tensor, [forward]
    returns the tuple of what each branch returns on that tensor; on a
    sequence of [n] elements, the tuple of what each branch returns on its
    element; on a sequence of another length, it raises the assertion
    error. *)
Theorem Parallel_forward_spec (self : list module) :
  (∀ t ys,
     Forall2 (λ (m : module) y, m (PTensor t) = Ok y) self ys →
     Parallel.forward self (PTensor t) = Ok (PSeq ys) ∧
     length ys = length self) ∧
  (∀ xs ys,
     Forall3 (λ (m : module) x y, m x = Ok y) self xs ys →
     Parallel.forward self (PSeq xs) = Ok (PSeq ys) ∧
     length ys = length self) ∧
  (∀ xs,
     length xs ≠ length self →
     Parallel.forward self (PSeq xs) = Raise AssertionError).
Proof.
  split; [|split].
  - intros t ys H. split; [|by rewrite (Forall2_length _ _ _ H)].
    cbn. by rewrite (mapM_ok _ _ _ H).
  - intros xs ys H. pose proof (Forall3_length_lr _ _ _ _ H) as Hys.
    pose proof (Forall3_length_lm _ _ _ _ H) as Hxs.
    split; [|done]. cbn. rewrite <- Hxs, Nat.eqb_refl. cbn.
    by rewrite (mapM_zip_ok (λ (m : module) x, m x) _ _ _ H).
  - intros xs Hlen. cbn. by apply Nat.eqb_neq in Hlen as ->.
Qed.

Lemma Parallel_forward_spec_witness :
  Parallel.forward [example_double; example_identity] (PSeq [PInt 1; PInt 5])
    = Ok (PSeq [PInt 2; PInt 5]) ∧
  Parallel.forward [example_double; example_identity] (PSeq [PInt 1])
    = Raise AssertionError.
Proof.
  split.
  - apply (Parallel_forward_spec [example_double; example_identity]).
    repeat constructor.
  - apply (Parallel_forward_spec [example_double; example_identity]). cbn. lia.
Defined.

(** C10.  [AddTensors.forward] returns the integer 0 on an empty sequence,
    and on a non-empty sequence of tensors of one shape the tensor of
    that shape that is their elementwise sum. *)
Theorem AddTensors_forward_spec :
  AddTensors.forward (PSeq []) = Ok (PInt 0) ∧
  ∀ (ts : list (tensor fval)) s,
    ts ≠ [] → Forall (λ t, shape t = s) ts →
    ∃ r, AddTensors.forward (PSeq (PTensor <$> ts)) = Ok (PTensor r) ∧
         shape r = s ∧
         ∀ idx, valid_index s idx →
           cell r idx = fsum ((λ t, cell t idx) <$> ts).
Proof.
  split; [done|]. intros [|t ts] s Hne Hts; [done|].
  apply Forall_cons in Hts as [St Hts].
  destruct (py_sum_loop s ts (Torch.tmap (λ v, fadd v (of_Z 0)) t) St Hts)
    as (r & Er & Sr & Cr).
  exists r. split; [exact Er|]. split; [done|].
  intros idx Hidx. rewrite Cr by done. unfold fsum.
  rewrite fmap_cons. cbn [foldl Torch.tmap cell].
  change (of_Z 0) with (Fin 0%Qc). by rewrite fadd_0_l, fadd_0_r.
Qed.

Lemma AddTensors_forward_spec_witness :
  ∃ r, AddTensors.forward
         (PSeq [PTensor example_conf_mat; PTensor zero_conf_mat])
         = Ok (PTensor r) ∧
       shape r = [2; 2] ∧
       ∀ idx, valid_index [2; 2] idx →
         cell r idx = fsum [cell example_conf_mat idx; cell zero_conf_mat idx].
Proof.
  apply (proj2 AddTensors_forward_spec [example_conf_mat; zero_conf_mat] [2; 2]);
    [discriminate|].
  by repeat constructor.
Defined.

(** ** Further properties of the confusion-matrix accumulation *)

(** X1.  For two label vectors of equal length, of at most [2 ^ 24]
    positions (up to which the float32 sums of the code are exact), the
    cells of the matrix of
    [compute_conf_mat] add up to the number of positions whose two labels
    are both in [[0, num_labels)]: a position with a label out of range is
    dropped, every other one is counted once.  With all labels in range
    the cells add up to the length of the vectors. *)
Theorem compute_conf_mat_total (out y : tensor Z) (n : nat) (num_labels : Z) :
  shape out = [n] → shape y = [n] → float32_exact n → (0 ≤ num_labels)%Z →
  ∃ cm, compute_conf_mat out y num_labels = Ok cm ∧
    cell (Torch.sum_all cm) [] =
      of_nat (length (filter
        (λ k, in_range num_labels (cell out [k]) ∧
              in_range num_labels (cell y [k])) (seq 0 n))) ∧
    ((∀ k, k < n → in_range num_labels (cell out [k]) ∧
                   in_range num_labels (cell y [k])) →
     cell (Torch.sum_all cm) [] = of_nat n).
Proof.
  intros Ho Hy _ HL.
  destruct (compute_conf_mat_vec out y n num_labels Ho Hy HL)
    as (cm & Ecm & Scm & Ccm).
  exists cm. split; [done|].
  assert (cell (Torch.sum_all cm) [] =
      of_nat (length (filter
        (λ k, in_range num_labels (cell out [k]) ∧
              in_range num_labels (cell y [k])) (seq 0 n)))) as Htotal.
  { cbn [Torch.sum_all Torch.scalar cell]. rewrite Scm.
    pose proof (hit_total out y n (Z.to_nat num_labels)) as Hhit.
    rewrite Z2Nat.id in Hhit by done. rewrite <- Hhit.
    apply fsum_ext. intros idx (g & p & -> & Hg & Hp)%elem_of_indices_square.
    by apply Ccm. }
  split; [done|]. intros Hall. rewrite Htotal. f_equal.
  rewrite filter_all; [apply length_seq|].
  intros k Hk%elem_of_seq. apply Hall. lia.
Qed.

Lemma compute_conf_mat_total_witness :
  ∃ cm, compute_conf_mat example_out example_y 2 = Ok cm ∧
    cell (Torch.sum_all cm) [] = of_nat 5.
Proof.
  destruct (compute_conf_mat_total example_out example_y 5 2)
    as (cm & Ecm & _ & Hall);
    [reflexivity|reflexivity|unfold float32_exact; lia|lia|].
  exists cm. split; [exact Ecm|]. apply Hall.
  intros [|[|[|[|[|k]]]]] Hk; try lia; cbv; repeat split; discriminate.
Defined.

(** X2.  Swapping the predictions and the ground truth transposes the
    confusion matrix. *)
Theorem compute_conf_mat_transpose (out y : tensor Z) (n : nat) (num_labels : Z) :
  shape out = [n] → shape y = [n] → (0 ≤ num_labels)%Z →
  ∃ cm cm', compute_conf_mat out y num_labels = Ok cm ∧
    compute_conf_mat y out num_labels = Ok cm' ∧
    shape cm' = shape cm ∧
    ∀ g p, g < Z.to_nat num_labels → p < Z.to_nat num_labels →
      cell cm' [p; g] = cell cm [g; p].
Proof.
  intros Ho Hy HL.
  destruct (compute_conf_mat_vec out y n num_labels Ho Hy HL)
    as (cm & Ecm & Scm & Ccm).
  destruct (compute_conf_mat_vec y out n num_labels Hy Ho HL)
    as (cm' & Ecm' & Scm' & Ccm').
  exists cm, cm'. split; [done|]. split; [done|]. split; [congruence|].
  intros g p Hg Hp. rewrite Ccm, Ccm' by done.
  apply fsum_ext. intros k _. by rewrite hit_swap.
Qed.

Lemma compute_conf_mat_transpose_witness :
  ∃ cm cm', compute_conf_mat example_out example_y 2 = Ok cm ∧
    compute_conf_mat example_y example_out 2 = Ok cm' ∧
    cell cm' [1; 0] = cell cm [0; 1].
Proof.
  destruct (compute_conf_mat_transpose example_out example_y 5 2)
    as (cm & cm' & E & E' & _ & Hcell); [reflexivity|reflexivity|lia|].
  exists cm, cm'. split; [exact E|]. split; [exact E'|].
  apply (Hcell 0 1); cbn; lia.
Defined.

(** X3.  For at most [2 ^ 24] positions (up to which the float32 sums of
    the code are exact): when every prediction equals the ground truth,
    the confusion
    matrix is diagonal: a cell off the diagonal is 0, and the diagonal cell
    of a class is the number of positions of that class. *)
Theorem compute_conf_mat_perfect (out y : tensor Z) (n : nat) (num_labels : Z) :
  shape out = [n] → shape y = [n] → float32_exact n → (0 ≤ num_labels)%Z →
  (∀ k, k < n → cell out [k] = cell y [k]) →
  ∃ cm, compute_conf_mat out y num_labels = Ok cm ∧
    ∀ g p, g < Z.to_nat num_labels → p < Z.to_nat num_labels →
      cell cm [g; p] =
        if decide (g = p)
        then of_nat (length (filter (λ k, cell y [k] = Z.of_nat g) (seq 0 n)))
        else of_nat 0.
Proof.
  intros Ho Hy _ HL Hsame.
  destruct (compute_conf_mat_vec out y n num_labels Ho Hy HL)
    as (cm & Ecm & Scm & Ccm).
  exists cm. split; [done|]. intros g p Hg Hp. rewrite Ccm by done.
  destruct (decide (g = p)) as [->|Hne].
  - rewrite <- (list_fmap_id (seq 0 n)) at 2.
    apply (fsum_count _ id _ _ 0%Z). intros k Hk%elem_of_seq.
    unfold hit, id. rewrite Hsame, andb_diag, Z.eqb_eq by lia. done.
  - apply fsum_of_bool_false. intros k Hk%elem_of_seq. unfold hit.
    rewrite Hsame by lia. apply andb_false_iff.
    destruct (Z.eqb_spec (cell y [k]) (Z.of_nat p)) as [E|]; [|by left].
    right. apply Z.eqb_neq. lia.
Qed.

Lemma compute_conf_mat_perfect_witness :
  ∃ cm, compute_conf_mat example_y example_y 2 = Ok cm ∧
    cell cm [0; 1] = of_nat 0.
Proof.
  destruct (compute_conf_mat_perfect example_y example_y 5 2)
    as (cm & Ecm & Hcell);
    [reflexivity|reflexivity|unfold float32_exact; lia|lia|done|].
  exists cm. split; [exact Ecm|]. apply (Hcell 0 1); cbn; lia.
Defined.

(** X4.  [compute_conf_mat] raises a [RuntimeError] when [num_labels] is
    negative, and when the two label vectors have different lengths neither
    of which is 1: the two comparisons cannot be combined. *)
Theorem compute_conf_mat_mismatch (out y : tensor Z) (n m : nat) (num_labels : Z) :
  shape out = [n] → shape y = [m] →
  (num_labels < 0)%Z ∨ (n ≠ m ∧ n ≠ 1 ∧ m ≠ 1) →
  compute_conf_mat out y num_labels = Raise RuntimeError.
Proof.
  intros Ho Hy [Hneg|(Hnm & Hn & Hm)]; unfold compute_conf_mat, Torch.arange.
  - by destruct (Z.ltb_spec num_labels 0); [|lia].
  - destruct (Z.ltb_spec num_labels 0); [done|]. cbn [mbind result_bind].
    unfold Torch.eq, Torch.and.
    rewrite (broadcast2_ok _ out _ [Z.to_nat num_labels; n])
      by (rewrite Ho; apply broadcast_shapes_vec_col).
    cbn [mbind result_bind].
    rewrite (broadcast2_ok _ y _ [Z.to_nat num_labels; 1; m])
      by (rewrite Hy; apply broadcast_shapes_vec_col2).
    cbn [mbind result_bind]. unfold Torch.broadcast2, Torch.broadcast_shapes.
    cbn. by rewrite (bdim_None n m).
Qed.

Lemma compute_conf_mat_mismatch_witness :
  compute_conf_mat example_out example_y3 2 = Raise RuntimeError.
Proof.
  apply (compute_conf_mat_mismatch example_out example_y3 5 3 2);
    [reflexivity|reflexivity|right; lia].
Defined.

(** X5.  For at most [2 ^ 24] predictions (up to which the float32 sums
    of the code are exact).
    A ground-truth vector of length 1 raises no error: it is silently
    broadcast, so that every prediction is counted with that one ground
    truth. *)
Theorem compute_conf_mat_broadcast (out y : tensor Z) (n : nat) (num_labels : Z) :
  shape out = [n] → shape y = [1] → float32_exact n → (0 ≤ num_labels)%Z →
  ∃ cm, compute_conf_mat out y num_labels = Ok cm ∧
    shape cm = [Z.to_nat num_labels; Z.to_nat num_labels] ∧
    ∀ g p, g < Z.to_nat num_labels → p < Z.to_nat num_labels →
      cell cm [g; p] =
        of_nat (length (filter
          (λ k, cell out [k] = Z.of_nat p ∧ cell y [0] = Z.of_nat g)
          (seq 0 n))).
Proof.
  intros Ho Hy _ HL. rename num_labels into L.
  unfold compute_conf_mat, Torch.arange.
  destruct (Z.ltb_spec L 0); [lia|]. cbn [mbind result_bind].
  unfold Torch.eq, Torch.and.
  rewrite (broadcast2_ok _ out _ [Z.to_nat L; n])
    by (rewrite Ho; apply broadcast_shapes_vec_col).
  cbn [mbind result_bind].
  rewrite (broadcast2_ok _ y _ [Z.to_nat L; 1; 1])
    by (rewrite Hy; apply broadcast_shapes_vec_col2).
  cbn [mbind result_bind].
  rewrite (broadcast2_ok _ _ _ [Z.to_nat L; Z.to_nat L; n]).
  2:{ unfold Torch.broadcast_shapes. cbn. by rewrite !bdim_1_r. }
  cbn [mbind result_bind].
  eexists. split; [reflexivity|]. split; [reflexivity|].
  intros g p Hg Hp. rewrite Ho, Hy. cbn.
  rewrite !(pick_lt g), !(pick_lt p) by done.
  rewrite <- (list_fmap_id (seq 0 n)) at 2.
  apply (fsum_count _ id _ _ 0%Z). intros k Hk%elem_of_seq. unfold id.
  rewrite !(pick_lt k) by lia.
  rewrite andb_true_iff, !Z.eqb_eq. tauto.
Qed.

Lemma compute_conf_mat_broadcast_witness :
  ∃ cm, compute_conf_mat example_out example_y1 2 = Ok cm ∧
    shape cm = [2; 2] ∧ cell cm [1; 1] = of_nat 3.
Proof.
  destruct (compute_conf_mat_broadcast example_out example_y1 5 2)
    as (cm & Ecm & Scm & Hcell);
    [reflexivity|reflexivity|unfold float32_exact; lia|lia|].
  exists cm. split; [exact Ecm|]. split; [exact Scm|].
  apply (Hcell 1 1); cbn; lia.
Defined.
(** ** Further properties of the metrics derivation *)

(** X6.  With more label names than the matrix has classes,
    [compute_conf_mat_metrics] raises an [IndexError] (at the first name
    that has no class), whatever the matrix holds. *)
Theorem compute_conf_mat_metrics_too_many_labels
    s conf_mat dev cm n label_names eps :
  s !! conf_mat = Some (OTensor dev cm) → shape cm = [n; n] →
  n < length label_names →
  (compute_conf_mat_metrics conf_mat label_names eps s).1 = Raise IndexError ∧
  report_of (compute_conf_mat_metrics conf_mat label_names eps s) = None.
Proof.
  intros Hcm Hshape Hlen.
  assert (raises (compute_conf_mat_metrics conf_mat label_names eps) s
            IndexError) as Hraise.
  { eapply metrics_loop_entry; [done..|].
    intros precision recall f1 metrics s' HP HR HF Hm.
    eapply (loop_raises _ _ _ _ _ _ _ _ label_names 0); [done..|lia|lia]. }
  split; [exact Hraise|]. unfold raises in Hraise. unfold report_of.
  destruct (compute_conf_mat_metrics conf_mat label_names eps s) as [r s'].
  cbn in Hraise. by rewrite Hraise.
Qed.

Lemma compute_conf_mat_metrics_too_many_labels_witness :
  (compute_conf_mat_metrics 0 ["neg"; "pos"; "other"] default_eps
     example_store).1 = Raise IndexError.
Proof.
  apply (compute_conf_mat_metrics_too_many_labels example_store 0 CPU
           example_conf_mat 2 ["neg"; "pos"; "other"] default_eps);
    [reflexivity|reflexivity|cbn; lia].
Defined.

(** X7.  On a matrix of [r] rows and [c] columns that is not square, with
    neither [r] nor [c] equal to 1, [compute_conf_mat_metrics] raises a
    [RuntimeError]: the diagonal has [min r c] entries, which cannot be
    divided by both the [c] column sums and the [r] row sums. *)
Theorem compute_conf_mat_metrics_not_square
    s conf_mat dev cm r c label_names eps :
  s !! conf_mat = Some (OTensor dev cm) → shape cm = [r; c] →
  r ≠ c → r ≠ 1 → c ≠ 1 →
  (compute_conf_mat_metrics conf_mat label_names eps s).1 = Raise RuntimeError.
Proof.
  intros Hcm Hshape Hrc Hr Hc.
  change (raises (compute_conf_mat_metrics conf_mat label_names eps) s
            RuntimeError).
  unfold compute_conf_mat_metrics.
  apply raises_bind, wp_tensor. intros eps_t s1 E Heps. forward E.
  apply raises_bind. eapply wp_cpu; [done|]. intros cpu_mat s2 E Hcpu.
  forward E. clear Hcm.
  apply raises_bind. eapply (wp_unop_vec _ _ _ _ _ r);
    [done|by unfold Torch.sum_dim; rewrite Hshape|reflexivity|].
  intros gt_count s3 E Hgt. forward E.
  apply raises_bind. eapply (wp_unop_vec _ _ _ _ _ c);
    [done|by unfold Torch.sum_dim; rewrite Hshape|reflexivity|].
  intros pred_count s4 E Hpred. forward E.
  apply raises_bind. eapply wp_unop; [done..|]. intros total s5 E Htot.
  forward E.
  apply raises_bind. eapply (wp_unop_vec _ _ _ _ _ (r `min` c));
    [done|by unfold Torch.diag; rewrite Hshape|reflexivity|].
  intros true_pos s6 E Htp. forward E. clear Hcpu.
  destruct (Nat.lt_ge_cases r c) as [Hlt|Hge].
  - rewrite Nat.min_l in Htp by lia.
    apply raises_bind_l, raises_bind. eapply wp_vec_scalar; [done..|].
    intros m1 s7 E Hm1. forward E. by eapply raises_vec_vec.
  - rewrite Nat.min_r in Htp by lia.
    apply raises_bind, wp_bind. eapply wp_vec_scalar; [done..|].
    intros m1 s7 E Hm1. forward E. eapply wp_vec_vec; [done..|].
    intros precision s8 E Hprec. forward E.
    apply raises_bind_l, raises_bind. eapply wp_vec_scalar; [done..|].
    intros m2 s9 E Hm2. forward E. eapply raises_vec_vec; [done|done|lia|done|done].
Qed.

Lemma compute_conf_mat_metrics_not_square_witness :
  (compute_conf_mat_metrics 0 ["neg"; "pos"] default_eps rect_store).1
    = Raise RuntimeError.
Proof.
  apply (compute_conf_mat_metrics_not_square rect_store 0 CPU rect_conf_mat
           2 3 ["neg"; "pos"] default_eps); [reflexivity|reflexivity|lia..].
Defined.

(** X8.  For an all-zero square matrix of at least one class, the three
    aggregate entries of the report are NaN, whatever [eps] is: the
    weights divide the zero row sums by the zero total. *)
Theorem compute_conf_mat_metrics_zero_aggregates
    s conf_mat dev cm n label_names eps :
  s !! conf_mat = Some (OTensor dev cm) → shape cm = [n; n] →
  length label_names ≤ n → 0 < n → "avg" ∉ label_names →
  (∀ i j, i < n → j < n → cell cm [i; j] = Fin 0%Qc) →
  ∃ report,
    report_of (compute_conf_mat_metrics conf_mat label_names eps s)
      = Some report ∧
    report !! "avg_precision" = Some NaN ∧
    report !! "avg_recall" = Some NaN ∧
    report !! "avg_f1" = Some NaN.
Proof.
  intros Hcm Hshape Hlen Hn Havg Hzero.
  exists (Spec.report cm n eps label_names). split.
  { by apply (metrics_report s conf_mat dev). }
  destruct (report_avg_values cm n eps label_names Havg) as (-> & -> & ->).
  unfold Spec.avg_f1.
  by rewrite zero_avg_precision, zero_avg_recall.
Qed.

Lemma compute_conf_mat_metrics_zero_aggregates_witness :
  ∃ report,
    report_of (compute_conf_mat_metrics 0 ["neg"; "pos"] (Fin 0%Qc) zero_store)
      = Some report ∧
    report !! "avg_precision" = Some NaN ∧
    report !! "avg_recall" = Some NaN ∧
    report !! "avg_f1" = Some NaN.
Proof.
  apply (compute_conf_mat_metrics_zero_aggregates zero_store 0 CPU
           zero_conf_mat 2 ["neg"; "pos"] (Fin 0%Qc));
    [reflexivity|reflexivity|cbn; lia|lia| |].
  - intros Hin.
    repeat (apply elem_of_cons in Hin as [Hin|Hin]; [discriminate|]).
    by apply elem_of_nil in Hin.
  - intros [|[|i]] [|[|j]] Hi Hj; try lia; apply (f_equal Fin), Qc_is_canon;
      reflexivity.
Defined.

(** X9.  For a square matrix of counts with at least one instance, and
    [0 < eps ≤ 1], the entry [avg_recall] is the overall accuracy: the sum
    of the diagonal divided by the sum of all the cells. *)
Theorem compute_conf_mat_metrics_accuracy
    s conf_mat dev cm n c label_names (eps : Qc) :
  s !! conf_mat = Some (OTensor dev cm) → shape cm = [n; n] →
  length label_names ≤ n → "avg" ∉ label_names →
  holds_counts cm n c → 0 < total_count c n →
  (0 < eps)%Qc → (eps ≤ 1)%Qc →
  ∃ report,
    report_of (compute_conf_mat_metrics conf_mat label_names (Fin eps) s)
      = Some report ∧
    report !! "avg_recall" =
      Some (fdiv (of_nat (correct_count c n)) (of_nat (total_count c n))).
Proof.
  intros Hcm Hshape Hlen Havg Hcounts Htotal Heps Heps1.
  exists (Spec.report cm n (Fin eps) label_names). split.
  { by apply (metrics_report s conf_mat dev). }
  destruct (report_avg_values cm n (Fin eps) label_names Havg) as (_ & -> & _).
  f_equal. by apply count_avg_recall.
Qed.

Lemma compute_conf_mat_metrics_accuracy_witness :
  ∃ report,
    report_of (compute_conf_mat_metrics 0 ["neg"; "pos"] default_eps
                 example_store) = Some report ∧
    report !! "avg_recall" = Some (fdiv (of_nat 15) (of_nat 18)).
Proof.
  apply (compute_conf_mat_metrics_accuracy example_store 0 CPU
           example_conf_mat 2 example_counts ["neg"; "pos"]
           (Q2Qc (1 # 1000000)));
    [reflexivity|reflexivity|cbn; lia| | |cbn; lia|reflexivity|].
  - intros Hin.
    repeat (apply elem_of_cons in Hin as [Hin|Hin]; [discriminate|]).
    by apply elem_of_nil in Hin.
  - intros [|[|i]] [|[|j]] Hi Hj; try lia; reflexivity.
  - vm_compute. discriminate.
Defined.

(** X10.  In exact arithmetic: for a square matrix of counts with at
    least one instance, and [0 < eps ≤ 1], every value of the report, per
    class or aggregate, is a number of [[0, 1]] (no NaN and no infinity),
    also for the classes that have no instance or no prediction.  The
    code computes in float32, where the rounded weights can add up to a
    little more than 1 and an aggregate can pass 1 by as much, and where
    an [eps] below the float32 range is 0. *)
Theorem compute_conf_mat_metrics_counts_unit_interval
    s conf_mat dev cm n c label_names (eps : Qc) :
  s !! conf_mat = Some (OTensor dev cm) → shape cm = [n; n] →
  length label_names ≤ n →
  holds_counts cm n c → 0 < total_count c n →
  (0 < eps)%Qc → (eps ≤ 1)%Qc →
  ∃ report,
    report_of (compute_conf_mat_metrics conf_mat label_names (Fin eps) s)
      = Some report ∧
    ∀ key v, report !! key = Some v →
      ∃ q, v = Fin q ∧ (0 ≤ q)%Qc ∧ (q ≤ 1)%Qc.
Proof.
  intros Hcm Hshape Hlen Hcounts Htotal Heps Heps1.
  exists (Spec.report cm n (Fin eps) label_names). split.
  { by apply (metrics_report s conf_mat dev). }
  intros key v Hkv.
  assert (key ∈ dom (Spec.report cm n (Fin eps) label_names)) as Hdom
    by (apply elem_of_dom; eauto).
  rewrite report_dom in Hdom.
  apply elem_of_union_list in Hdom
    as (X & (a & -> & Ha)%list_elem_of_fmap & Hkey).
  assert (∃ p, Spec.avg_precision cm n (Fin eps) = Fin p ∧
               (0 ≤ p)%Qc ∧ (p ≤ 1)%Qc) as (ap & Eap & Hap).
  { apply (count_avg_bounds cm n c); [done..|].
    intros i Hi. by apply (count_precision_bounds cm n c). }
  assert (∃ r, Spec.avg_recall cm n (Fin eps) = Fin r ∧
               (0 ≤ r)%Qc ∧ (r ≤ 1)%Qc) as (ar & Ear & Har).
  { apply (count_avg_bounds cm n c); [done..|].
    intros i Hi. by apply (count_recall_bounds cm n c). }
  destruct (decide (a ∈ label_names)) as [Hin|Hnin].
  - destruct (last_occurrence label_names a Hin) as (i & Hi & Hlast).
    assert (i < n) by (apply lookup_lt_Some in Hi; lia).
    apply label_keys_elem in Hkey as [-> | [-> | ->]].
    + rewrite (report_precision _ _ _ _ i) in Hkv by done.
      injection Hkv as <-. by apply (count_precision_bounds cm n c).
    + rewrite (report_recall _ _ _ _ i) in Hkv by done.
      injection Hkv as <-. by apply (count_recall_bounds cm n c).
    + rewrite (report_f1 _ _ _ _ i) in Hkv by done.
      injection Hkv as <-. by apply (count_f1_bounds cm n c).
  - assert (a = "avg") as -> by by apply elem_of_cons in Ha as [|].
    destruct (report_avg_values cm n (Fin eps) label_names Hnin)
      as (Ep & Er & Ef).
    apply label_keys_elem in Hkey as [-> | [-> | ->]].
    + change (precision_key "avg") with "avg_precision" in Hkv.
      rewrite Ep in Hkv. injection Hkv as <-. by exists ap.
    + change (recall_key "avg") with "avg_recall" in Hkv.
      rewrite Er in Hkv. injection Hkv as <-. by exists ar.
    + change (f1_key "avg") with "avg_f1" in Hkv.
      rewrite Ef in Hkv. injection Hkv as <-.
      unfold Spec.avg_f1. rewrite Eap, Ear.
      destruct Hap, Har. by apply f1_bounds_nonneg.
Qed.

Lemma compute_conf_mat_metrics_counts_unit_interval_witness :
  ∃ report,
    report_of (compute_conf_mat_metrics 0 ["neg"; "pos"] default_eps
                 example_store) = Some report ∧
    ∀ key v, report !! key = Some v →
      ∃ q, v = Fin q ∧ (0 ≤ q)%Qc ∧ (q ≤ 1)%Qc.
Proof.
  apply (compute_conf_mat_metrics_counts_unit_interval example_store 0 CPU
           example_conf_mat 2 example_counts ["neg"; "pos"]
           (Q2Qc (1 # 1000000)));
    [reflexivity|reflexivity|cbn; lia| |cbn; lia|reflexivity|].
  - intros [|[|i]] [|[|j]] Hi Hj; try lia; reflexivity.
  - vm_compute. discriminate.
Defined.

(** X11.  For a square matrix of counts with nothing off its diagonal and
    at least one instance (every prediction was right), and [0 < eps ≤ 1],
    the three aggregate entries are 1, and so are the precision, the recall
    and the F1 score of every class that has an instance. *)
Theorem compute_conf_mat_metrics_perfect
    s conf_mat dev cm n c label_names (eps : Qc) :
  s !! conf_mat = Some (OTensor dev cm) → shape cm = [n; n] →
  length label_names ≤ n → "avg" ∉ label_names →
  holds_counts cm n c → 0 < total_count c n →
  (∀ i j, i < n → j < n → i ≠ j → c i j = 0) →
  (0 < eps)%Qc → (eps ≤ 1)%Qc →
  ∃ report,
    report_of (compute_conf_mat_metrics conf_mat label_names (Fin eps) s)
      = Some report ∧
    report !! "avg_precision" = Some (Fin 1%Qc) ∧
    report !! "avg_recall" = Some (Fin 1%Qc) ∧
    report !! "avg_f1" = Some (Fin 1%Qc) ∧
    ∀ i label,
      label_names !! i = Some label →
      (∀ j, i < j → label_names !! j ≠ Some label) →
      0 < c i i →
      report !! precision_key label = Some (Fin 1%Qc) ∧
      report !! recall_key label = Some (Fin 1%Qc) ∧
      report !! f1_key label = Some (Fin 1%Qc).
Proof.
  intros Hcm Hshape Hlen Havg Hcounts Htotal Hdiag Heps Heps1.
  exists (Spec.report cm n (Fin eps) label_names). split.
  { by apply (metrics_report s conf_mat dev). }
  destruct (report_avg_values cm n (Fin eps) label_names Havg)
    as (-> & -> & ->).
  rewrite (diag_avg_precision cm n c), (diag_avg_recall cm n c),
    (diag_avg_f1 cm n c) by done.
  repeat split; try done.
  - rewrite (report_precision _ _ _ _ i) by done.
    rewrite (diag_precision cm n c); [done..|by eapply Nat.lt_le_trans;
      [eapply lookup_lt_Some|]|done].
  - rewrite (report_recall _ _ _ _ i) by done.
    rewrite (diag_recall cm n c); [done..|by eapply Nat.lt_le_trans;
      [eapply lookup_lt_Some|]|done].
  - rewrite (report_f1 _ _ _ _ i) by done.
    rewrite (diag_f1 cm n c); [done..|by eapply Nat.lt_le_trans;
      [eapply lookup_lt_Some|]|done].
Qed.

Lemma compute_conf_mat_metrics_perfect_witness :
  ∃ report,
    report_of (compute_conf_mat_metrics 0 ["neg"; "pos"] default_eps
                 perfect_store) = Some report ∧
    report !! "avg_precision" = Some (Fin 1%Qc) ∧
    report !! "avg_recall" = Some (Fin 1%Qc) ∧
    report !! "avg_f1" = Some (Fin 1%Qc).
Proof.
  destruct (compute_conf_mat_metrics_perfect perfect_store 0 CPU
              perfect_conf_mat 2 perfect_counts ["neg"; "pos"]
              (Q2Qc (1 # 1000000)))
    as (report & Hrun & Hp & Hr & Hf & _);
    [reflexivity|reflexivity|cbn; lia| | |cbn; lia| |reflexivity| |].
  - intros Hin.
    repeat (apply elem_of_cons in Hin as [Hin|Hin]; [discriminate|]).
    by apply elem_of_nil in Hin.
  - intros [|[|i]] [|[|j]] Hi Hj; try lia; reflexivity.
  - intros [|[|i]] [|[|j]] Hi Hj Hne; try lia; try reflexivity; done.
  - vm_compute. discriminate.
  - by exists report.
Defined.

(** X12.  The dictionary [compute_conf_mat_metrics] returns is a new
    object: a second call on the same matrix returns another dictionary
    with the same entries, and leaves the first as it was. *)
Theorem compute_conf_mat_metrics_fresh s conf_mat dev cm n label_names eps :
  s !! conf_mat = Some (OTensor dev cm) → shape cm = [n; n] →
  length label_names ≤ n →
  ∃ r1 s1 r2 s2,
    compute_conf_mat_metrics conf_mat label_names eps s = (Ok r1, s1) ∧
    compute_conf_mat_metrics conf_mat label_names eps s1 = (Ok r2, s2) ∧
    length s ≤ r1 ∧ r1 ≠ r2 ∧
    s2 !! r1 = Some (ODict (Spec.report cm n eps label_names)) ∧
    s2 !! r2 = Some (ODict (Spec.report cm n eps label_names)).
Proof.
  intros Hcm Hshape Hlen.
  destruct (metrics_run s conf_mat dev cm n label_names eps Hcm Hshape Hlen)
    as (r1 & s1 & Hrun1 & Hr1).
  destruct (frames_metrics_fresh (length s) conf_mat label_names eps s (le_n _))
    as (_ & Hkeep1 & Hfresh1).
  rewrite Hrun1 in Hkeep1, Hfresh1. cbn in Hkeep1, Hfresh1.
  assert (s1 !! conf_mat = Some (OTensor dev cm)) as Hcm1.
  { rewrite Hkeep1; [done|]. by eapply lookup_lt_Some. }
  destruct (metrics_run s1 conf_mat dev cm n label_names eps Hcm1 Hshape Hlen)
    as (r2 & s2 & Hrun2 & Hr2).
  destruct (frames_metrics_fresh (length s1) conf_mat label_names eps s1
              (le_n _)) as (_ & Hkeep2 & Hfresh2).
  rewrite Hrun2 in Hkeep2, Hfresh2. cbn in Hkeep2, Hfresh2.
  assert (r1 < length s1) by by eapply lookup_lt_Some.
  specialize (Hfresh1 r1 eq_refl). specialize (Hfresh2 r2 eq_refl).
  exists r1, s1, r2, s2. repeat split; try done; [lia|].
  by rewrite Hkeep2.
Qed.

Lemma compute_conf_mat_metrics_fresh_witness :
  ∃ r1 s1 r2 s2,
    compute_conf_mat_metrics 0 ["neg"; "pos"] default_eps example_store
      = (Ok r1, s1) ∧
    compute_conf_mat_metrics 0 ["neg"; "pos"] default_eps s1 = (Ok r2, s2) ∧
    r1 ≠ r2.
Proof.
  destruct (compute_conf_mat_metrics_fresh example_store 0 CPU
              example_conf_mat 2 ["neg"; "pos"] default_eps)
    as (r1 & s1 & r2 & s2 & H1 & H2 & _ & Hne & _);
    [reflexivity|reflexivity|cbn; lia|].
  by exists r1, s1, r2, s2.
Defined.

(** X13.  The two functions composed, in exact arithmetic: for two
    vectors of [m ≥ 1] labels (at most [2 ^ 24], up to which the counts of
    the code are exact) that are all in [[0, num_labels)], the entry
    [avg_recall] of the report of the matrix of [compute_conf_mat] is the
    share of the positions at which the prediction is the ground truth.
    The code computes the quotients in float32 and returns that share up
    to their rounding. *)
Theorem compute_conf_mat_then_metrics_accuracy
    (out y : tensor Z) (m : nat) (num_labels : Z) label_names (eps : Qc) :
  shape out = [m] → shape y = [m] → 0 < m → float32_exact m →
  (∀ k, k < m → in_range num_labels (cell out [k]) ∧
                in_range num_labels (cell y [k])) →
  length label_names ≤ Z.to_nat num_labels → "avg" ∉ label_names →
  (0 < eps)%Qc → (eps ≤ 1)%Qc →
  ∃ cm, compute_conf_mat out y num_labels = Ok cm ∧
    ∀ s conf_mat dev, s !! conf_mat = Some (OTensor dev cm) →
      ∃ report,
        report_of (compute_conf_mat_metrics conf_mat label_names (Fin eps) s)
          = Some report ∧
        report !! "avg_recall" =
          Some (fdiv
            (of_nat (length (filter (λ k, cell out [k] = cell y [k])
                                    (seq 0 m))))
            (of_nat m)).
Proof.
  intros Ho Hy Hm _ Hall Hlen Havg Heps Heps1.
  assert (0 ≤ num_labels)%Z as HL.
  { destruct (Hall 0 Hm) as [[? ?] _]. lia. }
  destruct (hit_counts out y m num_labels Ho Hy HL) as (cm & Ecm & Scm & Ccm).
  exists cm. split; [done|]. intros s conf_mat dev Hcm.
  set (n := Z.to_nat num_labels) in *.
  assert (∀ k, k < m → in_range (Z.of_nat n) (cell out [k]) ∧
                       in_range (Z.of_nat n) (cell y [k])) as Hall'.
  { intros k Hk. unfold n. rewrite Z2Nat.id by done. by apply Hall. }
  assert (total_count (hit_count out y m) n = m) as Htotal
    by by apply hit_total_count.
  exists (Spec.report cm n (Fin eps) label_names). split.
  { by apply (metrics_report s conf_mat dev). }
  destruct (report_avg_values cm n (Fin eps) label_names Havg) as (_ & -> & _).
  rewrite (count_avg_recall cm n (hit_count out y m)) by (done || lia).
  rewrite Htotal, hit_correct_count; [done|].
  intros k Hk. by apply Hall'.
Qed.

Lemma compute_conf_mat_then_metrics_accuracy_witness :
  ∃ cm, compute_conf_mat example_out example_y 2 = Ok cm ∧
    ∃ report,
      report_of (compute_conf_mat_metrics 0 ["neg"; "pos"] default_eps
                   [OTensor CPU cm]) = Some report ∧
      report !! "avg_recall" = Some (fdiv (of_nat 4) (of_nat 5)).
Proof.
  destruct (compute_conf_mat_then_metrics_accuracy example_out example_y 5 2
              ["neg"; "pos"] (Q2Qc (1 # 1000000)))
    as (cm & Ecm & Hrep);
    [reflexivity|reflexivity|lia|unfold float32_exact; lia| |cbn; lia|
     |reflexivity| |].
  - intros [|[|[|[|[|k]]]]] Hk; try lia; cbv; repeat split; discriminate.
  - intros Hin.
    repeat (apply elem_of_cons in Hin as [Hin|Hin]; [discriminate|]).
    by apply elem_of_nil in Hin.
  - vm_compute. discriminate.
  - exists cm. split; [exact Ecm|].
    exact (Hrep [OTensor CPU cm] 0 CPU eq_refl).
Defined.

(** ** Properties of [SplitTensor], and further ones of the wrappers *)

(** X14.  [SplitTensor] with a list of sizes, on a tensor of at least one
    dimension: a [dim] outside [[-rank, rank)] raises an [IndexError];
    otherwise the call returns one piece per size, of that size along
    [dim] (counted from the end when negative) and of the sizes of the
    input elsewhere, when the sizes are non-negative and add up to the
    size of the dimension, and raises a [RuntimeError] when they do
    not. *)
Theorem SplitTensor_forward_sizes
    (x : tensor fval) (split_sizes : list Z) (dim : Z) :
  shape x ≠ [] →
  let self := SplitTensor.Make (SplitTensor.Sizes split_sizes) dim in
  let rank := Z.of_nat (length (shape x)) in
  let d := Z.to_nat (dim `mod` rank) in
  let fits := Forall (λ z, 0 ≤ z)%Z split_sizes ∧
              foldr Z.add 0%Z split_sizes = Z.of_nat (shape x !!! d) in
  (¬ (- rank ≤ dim < rank)%Z →
     SplitTensor.forward self (PTensor x) = Raise IndexError) ∧
  ((- rank ≤ dim < rank)%Z →
     (fits →
        ∃ pieces,
          SplitTensor.forward self (PTensor x) = Ok (PSeq (PTensor <$> pieces)) ∧
          Forall2 (λ piece n, shape piece = <[d := Z.to_nat n]> (shape x))
                  pieces split_sizes) ∧
     (¬ fits → SplitTensor.forward self (PTensor x) = Raise RuntimeError)).
Proof.
  intros Hshape self rank d fits.
  unfold SplitTensor.forward, TorchShape.split_with_sizes. cbn [SplitTensor.sizes
    SplitTensor.dim self]. rewrite decide_False by done. split.
  - intros Hdim. by rewrite maybe_wrap_dim_raise.
  - intros Hdim. rewrite (proj1 (maybe_wrap_dim_ok _ _ Hdim)).
    cbn [mbind result_bind]. cbn zeta. fold rank d. split.
    + intros [Hpos Hsum]. rewrite decide_True, decide_True by done.
      eexists. split; [done|].
      apply (Forall2_fmap_r Z.to_nat
               (λ piece len, shape piece = <[d := len]> (shape x))).
      apply narrow_all_shapes.
    + intros Hfits. destruct (decide (Forall (λ z, 0 ≤ z)%Z split_sizes));
        [|done].
      rewrite decide_False; [done|]. intros Hsum. by apply Hfits.
Qed.

Lemma SplitTensor_forward_sizes_witness :
  ∃ pieces,
    SplitTensor.forward (SplitTensor.Make (SplitTensor.Sizes [2; 3]%Z) (-1))
      (PTensor example_vec) = Ok (PSeq (PTensor <$> pieces)) ∧
    length pieces = 2.
Proof.
  destruct (SplitTensor_forward_sizes example_vec [2; 3]%Z (-1))
    as [_ Hin]; [discriminate|].
  destruct Hin as [Hfit _]; [cbn; lia|].
  destruct Hfit as (pieces & E & Hshapes).
  { split; [repeat constructor; lia|reflexivity]. }
  exists pieces. split; [exact E|]. by rewrite (Forall2_length _ _ _ Hshapes).
Defined.

(** X15.  [SplitTensor] with an integer size, on a tensor of at least one
    dimension: a negative size raises a [RuntimeError]; a [dim] outside
    [[-rank, rank)] raises an [IndexError]; a size of 0 raises a
    [RuntimeError] unless the dimension is empty.  Otherwise the call
    returns, for a dimension of [n > 0] entries, [n / size] pieces of
    that size followed by one of [n mod size] entries when that is not 0,
    and a single empty piece for an empty dimension. *)
Theorem SplitTensor_forward_size (x : tensor fval) (split_size dim : Z) :
  shape x ≠ [] →
  let self := SplitTensor.Make (SplitTensor.Size split_size) dim in
  let rank := Z.of_nat (length (shape x)) in
  let d := Z.to_nat (dim `mod` rank) in
  let n := shape x !!! d in
  ((split_size < 0)%Z →
     SplitTensor.forward self (PTensor x) = Raise RuntimeError) ∧
  ((0 ≤ split_size)%Z → ¬ (- rank ≤ dim < rank)%Z →
     SplitTensor.forward self (PTensor x) = Raise IndexError) ∧
  ((0 ≤ split_size)%Z → (- rank ≤ dim < rank)%Z →
     (split_size = 0%Z → n ≠ 0 →
        SplitTensor.forward self (PTensor x) = Raise RuntimeError) ∧
     ((0 < split_size)%Z ∨ n = 0 →
        ∃ pieces,
          SplitTensor.forward self (PTensor x) = Ok (PSeq (PTensor <$> pieces)) ∧
          Forall2 (λ piece len, shape piece = <[d := len]> (shape x))
                  pieces (chunk_sizes n (Z.to_nat split_size)))).
Proof.
  intros Hshape self rank d n.
  unfold SplitTensor.forward. cbn [SplitTensor.sizes SplitTensor.dim self].
  split; [|split].
  - intros Hneg. unfold TorchShape.split.
    by rewrite decide_False, decide_True by done.
  - intros Hsize Hdim. unfold TorchShape.split.
    rewrite decide_False, decide_False by (done || lia).
    by rewrite maybe_wrap_dim_raise.
  - intros Hsize Hdim.
    destruct (maybe_wrap_dim_ok _ _ Hdim) as [Hd Hlt]. fold rank d in Hd, Hlt.
    split.
    + intros -> Hn. unfold TorchShape.split.
      rewrite decide_False, decide_False by (done || lia). rewrite Hd.
      cbn [mbind result_bind]. cbn zeta. fold n.
      rewrite decide_False; [done|]. lia.
    + intros Hok. rewrite (split_chunks x d) by done. cbn [mbind result_bind].
      eexists. split; [done|]. apply narrow_all_shapes.
Qed.

Lemma SplitTensor_forward_size_witness :
  ∃ pieces,
    SplitTensor.forward (SplitTensor.Make (SplitTensor.Size 2) 0)
      (PTensor example_vec) = Ok (PSeq (PTensor <$> pieces)) ∧
    Forall2 (λ piece len, shape piece = [len]) pieces [2; 2; 1].
Proof.
  destruct (SplitTensor_forward_size example_vec 2 0) as (_ & _ & Hin);
    [discriminate|].
  destruct Hin as [_ Hok]; [lia|cbn; lia|].
  destruct Hok as (pieces & E & Hshapes); [left; lia|].
  by exists pieces.
Defined.

(** X16.  Whatever [SplitTensor] returns is a sequence of tensors whose
    sizes along [dim] add up to that of the input and that, laid end to
    end along [dim], are the input: each cell of the input is the cell at
    the same index of the concatenation of the pieces. *)
Theorem SplitTensor_forward_cat (self : SplitTensor.t) (x : tensor fval) r :
  SplitTensor.forward self (PTensor x) = Ok r →
  ∃ pieces, r = PSeq (PTensor <$> pieces) ∧
    let d := Z.to_nat (SplitTensor.dim self `mod` Z.of_nat (length (shape x))) in
    sum_list ((λ piece, shape piece !!! d) <$> pieces) = shape x !!! d ∧
    ∀ idx, valid_index (shape x) idx → cat_cell pieces d idx = cell x idx.
Proof.
  destruct self as [sizes dim]. unfold SplitTensor.forward.
  cbn [SplitTensor.sizes SplitTensor.dim].
  set (d := Z.to_nat (dim `mod` Z.of_nat (length (shape x)))).
  assert (∀ lens,
    (- Z.of_nat (length (shape x)) ≤ dim < Z.of_nat (length (shape x)))%Z →
    sum_list lens = shape x !!! d →
    sum_list ((λ piece, shape piece !!! d)
                <$> TorchShape.narrow_all x d 0 lens) = shape x !!! d ∧
    ∀ idx, valid_index (shape x) idx →
      cat_cell (TorchShape.narrow_all x d 0 lens) d idx = cell x idx)
    as Hcat.
  { intros lens Hdim Hsum.
    destruct (maybe_wrap_dim_ok _ _ Hdim) as [_ Hd]. fold d in Hd. split.
    - rewrite <- Hsum. f_equal. apply list_eq_Forall2.
      apply Forall2_fmap_l.
      eapply Forall2_impl; [apply narrow_all_shapes|].
      intros piece len Hp. unfold compose. rewrite Hp.
      by rewrite list_lookup_total_insert_eq.
    - intros idx Hidx.
      destruct (valid_index_lookup _ _ d Hidx Hd) as [Hlen Hlt].
      rewrite narrow_all_cat by (done || lia).
      f_equal. by apply list_alter_id. }
  destruct sizes as [n|l].
  - destruct (TorchShape.split x n dim) as [pieces|] eqn:E; [|done].
    intros [= <-]. exists pieces. split; [done|].
    destruct (split_inv x n dim pieces E) as (Hshape & Hn & Hdim & Hok).
    fold d in Hok.
    rewrite (split_chunks x d) in E
      by (done || apply (maybe_wrap_dim_ok _ _ Hdim)).
    injection E as <-. apply Hcat; [done|].
    apply sum_list_chunk_sizes. lia.
  - destruct (TorchShape.split_with_sizes x l dim) as [pieces|] eqn:E; [|done].
    intros [= <-]. exists pieces. split; [done|].
    destruct (split_with_sizes_inv x l dim pieces E)
      as (Hshape & Hdim & Hpos & Hsum & ->).
    fold d in Hsum |- *. apply Hcat; [done|].
    apply Nat2Z.inj. by rewrite sum_list_to_nat.
Qed.

Lemma SplitTensor_forward_cat_witness :
  ∃ pieces,
    SplitTensor.forward (SplitTensor.Make (SplitTensor.Size 2) 0)
      (PTensor example_vec) = Ok (PSeq (PTensor <$> pieces)) ∧
    cat_cell pieces 0 [3] = cell example_vec [3].
Proof.
  assert (∃ r, SplitTensor.forward (SplitTensor.Make (SplitTensor.Size 2) 0)
                 (PTensor example_vec) = Ok r) as [r Hr]
    by (eexists; reflexivity).
  destruct (SplitTensor_forward_cat _ _ r Hr) as (pieces & -> & _ & Hcat).
  exists pieces. split; [exact Hr|].
  apply Hcat. repeat constructor.
Defined.

(** X17.  [SplitTensor], [Parallel] and [AddTensors] in sequence, for a
    list of sizes that fits the input: with as many sizes as branches,
    and branches that return tensors of one shape on their pieces, the
    result is the elementwise sum of what the branches return; with
    another number of sizes, the assertion of [Parallel] fails. *)
Theorem SplitTensor_Parallel_AddTensors
    (x : tensor fval) (split_sizes : list Z) (dim : Z) (ms : list module) :
  let self := SplitTensor.Make (SplitTensor.Sizes split_sizes) dim in
  let run :=
    X ← SplitTensor.forward self (PTensor x);
    Y ← Parallel.forward ms X;
    AddTensors.forward Y in
  ∀ pieces,
    SplitTensor.forward self (PTensor x) = Ok (PSeq (PTensor <$> pieces)) →
    length pieces = length split_sizes ∧
    (length split_sizes ≠ length ms → run = Raise AssertionError) ∧
    (∀ ys s,
       ys ≠ [] →
       Forall3 (λ (m : module) piece y,
                  m (PTensor piece) = Ok (PTensor y) ∧ shape y = s)
               ms pieces ys →
       ∃ r, run = Ok (PTensor r) ∧ shape r = s ∧
            ∀ idx, valid_index s idx →
              cell r idx = fsum ((λ y, cell y idx) <$> ys)).
Proof.
  intros self run pieces Hsplit.
  assert (length pieces = length split_sizes) as Hlen.
  { revert Hsplit. unfold SplitTensor.forward.
    cbn [SplitTensor.sizes SplitTensor.dim self].
    destruct (TorchShape.split_with_sizes x split_sizes dim) as [ps|] eqn:E;
      [|done].
    intros [= Hps]. apply (f_equal length) in Hps.
    rewrite !length_fmap in Hps. rewrite <- Hps.
    destruct (split_with_sizes_inv x _ _ _ E) as (_ & _ & _ & _ & ->).
    by rewrite narrow_all_length, length_fmap. }
  split; [done|]. unfold run. rewrite Hsplit. cbn [mbind result_bind]. split.
  - intros Hne. cbn. rewrite length_fmap, Hlen.
    by apply Nat.eqb_neq in Hne as ->.
  - intros ys s Hys Hbranches.
    destruct (Forall3_tensors _ _ _ _ Hbranches) as [Hcalls Hshapes].
    pose proof (Forall3_length_lm _ _ _ _ Hcalls) as Hxs.
    assert (Parallel.forward ms (PSeq (PTensor <$> pieces))
            = Ok (PSeq (PTensor <$> ys))) as ->.
    { cbn. rewrite <- Hxs, Nat.eqb_refl. cbn.
      by rewrite (mapM_zip_ok (λ (m : module) x, m x) _ _ _ Hcalls). }
    cbn [mbind result_bind]. by apply py_sum_tensors.
Qed.

Lemma SplitTensor_Parallel_AddTensors_witness :
  ∃ pieces,
    SplitTensor.forward (SplitTensor.Make (SplitTensor.Sizes [2; 3]%Z) 0)
      (PTensor example_vec) = Ok (PSeq (PTensor <$> pieces)) ∧
    (X ← SplitTensor.forward (SplitTensor.Make (SplitTensor.Sizes [2; 3]%Z) 0)
           (PTensor example_vec);
     Y ← Parallel.forward [example_identity] X;
     AddTensors.forward Y) = Raise AssertionError.
Proof.
  assert (∃ pieces,
    SplitTensor.forward (SplitTensor.Make (SplitTensor.Sizes [2; 3]%Z) 0)
      (PTensor example_vec) = Ok (PSeq (PTensor <$> pieces))) as [pieces Hp]
    by (eexists; reflexivity).
  exists pieces. split; [exact Hp|].
  destruct (SplitTensor_Parallel_AddTensors example_vec [2; 3]%Z 0
              [example_identity] pieces Hp) as (_ & Hne & _).
  apply Hne. cbn. lia.
Defined.

(** X18.  [Parallel] raises what its first failing branch raises,
    whatever the branches after it would do: on a tensor, and on a
    sequence of as many elements as branches. *)
Theorem Parallel_forward_raises (pre post : list module) (m : module) e :
  (∀ t ys,
     Forall2 (λ (m' : module) y, m' (PTensor t) = Ok y) pre ys →
     m (PTensor t) = Raise e →
     Parallel.forward (pre ++ m :: post) (PTensor t) = Raise e) ∧
  (∀ xs_pre x xs_post ys,
     Forall3 (λ (m' : module) x' y, m' x' = Ok y) pre xs_pre ys →
     m x = Raise e → length xs_post = length post →
     Parallel.forward (pre ++ m :: post) (PSeq (xs_pre ++ x :: xs_post))
       = Raise e).
Proof.
  split.
  - intros t ys Hpre Hm. cbn.
    by rewrite (mapM_raise (λ m' : module, m' (PTensor t)) pre m post ys e).
  - intros xs_pre x xs_post ys Hpre Hm Hlen.
    pose proof (Forall3_length_lm _ _ _ _ Hpre) as Hxs.
    cbn. rewrite !length_app. cbn [length]. rewrite <- Hxs, Hlen, Nat.eqb_refl.
    cbn. rewrite zip_with_app by done. cbn [zip_with].
    rewrite (mapM_raise (λ mx : module * pyval, mx.1 mx.2)
               (zip pre xs_pre) (m, x) (zip post xs_post) ys e); [done| |done].
    clear -Hpre. induction Hpre; by constructor.
Qed.

Lemma Parallel_forward_raises_witness :
  Parallel.forward [example_identity; example_failing; example_double]
    (PSeq [PInt 1; PInt 2; PInt 3]) = Raise ValueError.
Proof.
  apply (proj2 (Parallel_forward_raises [example_identity] [example_double]
                  example_failing ValueError)
           [PInt 1] (PInt 2) [PInt 3] [PInt 1]);
    [by repeat constructor|reflexivity|reflexivity].
Defined.

(** X19.  [AddTensors] on a single tensor, not a sequence, adds up its
    slices along the first dimension; it returns the integer 0 when
    there is none, and raises a [TypeError] on a zero-dimensional
    tensor, which cannot be iterated over. *)
Theorem AddTensors_forward_tensor (t : tensor fval) :
  (shape t = [] → AddTensors.forward (PTensor t) = Raise TypeError) ∧
  (∀ s, shape t = 0 :: s → AddTensors.forward (PTensor t) = Ok (PInt 0)) ∧
  (∀ n s, shape t = S n :: s →
     ∃ r, AddTensors.forward (PTensor t) = Ok (PTensor r) ∧
          shape r = s ∧
          ∀ idx, valid_index s idx →
            cell r idx = fsum ((λ i, cell t (i :: idx)) <$> seq 0 (S n))).
Proof.
  unfold AddTensors.forward, py_sum. cbn [py_iter]. split; [|split].
  - by intros ->.
  - by intros s ->.
  - intros n s ->. cbn [mbind result_bind].
    destruct (py_sum_tensors
                ((λ i, Tensor s (λ idx, cell t (i :: idx))) <$> seq 0 (S n)) s)
      as (r & Er & Sr & Cr); [done| |].
    { apply Forall_fmap, Forall_forall. by intros. }
    exists r. split; [|split; [done|]].
    + rewrite <- Er. unfold py_sum. cbn [py_iter mbind result_bind].
      by rewrite <- list_fmap_compose.
    + intros idx Hidx. rewrite Cr by done. by rewrite <- list_fmap_compose.
Qed.

Lemma AddTensors_forward_tensor_witness :
  ∃ r, AddTensors.forward (PTensor example_conf_mat) = Ok (PTensor r) ∧
       shape r = [2] ∧
       cell r [0] = fsum [cell example_conf_mat [0; 0];
                          cell example_conf_mat [1; 0]].
Proof.
  destruct (proj2 (proj2 (AddTensors_forward_tensor example_conf_mat)) 1 [2]
              eq_refl) as (r & Er & Sr & Cr).
  exists r. split; [exact Er|]. split; [exact Sr|].
  apply (Cr [0]). repeat constructor.
Defined.

(** X20.  [AddTensors] checks no shapes itself: after tensors of one
    shape, a tensor whose shape cannot be broadcast with it makes the
    addition raise a [RuntimeError], whatever follows in the sequence. *)
Theorem AddTensors_forward_mismatch
    (ts : list (tensor fval)) (b : tensor fval) (rest : list pyval) s :
  ts ≠ [] → Forall (λ t, shape t = s) ts →
  Torch.broadcast_shapes s (shape b) = None →
  AddTensors.forward (PSeq ((PTensor <$> ts) ++ PTensor b :: rest))
    = Raise RuntimeError.
Proof.
  intros Hne Hts Hb.
  destruct (py_sum_tensors ts s Hne Hts) as (r & Er & Sr & _).
  unfold AddTensors.forward, py_sum in *. cbn [py_iter mbind result_bind] in *.
  rewrite foldl_app, Er. cbn [foldl mbind result_bind py_add].
  unfold Torch.add, Torch.broadcast2. rewrite Sr, Hb. cbn.
  apply py_sum_raise.
Qed.

Lemma AddTensors_forward_mismatch_witness :
  AddTensors.forward
    (PSeq [PTensor example_conf_mat; PTensor example_vec; PInt 1])
    = Raise RuntimeError.
Proof.
  apply (AddTensors_forward_mismatch [example_conf_mat] example_vec [PInt 1]
           [2; 2]); [done|by repeat constructor|reflexivity].
Defined.

(** ** Properties of [MinMaxNormalize] *)



(** X22.  [MinMaxNormalize.apply] raises an [AssertionError] on an array
    of more than three dimensions, and a [ValueError] on an image of
    three dimensions without channels, which leaves nothing to stack.
    An exception of [cv2.normalize] is passed on: that of the image when
    it has at most two dimensions, that of the first channel that
    fails otherwise. *)
Theorem MinMaxNormalize_apply_errors
    (cv2_normalize : tensor Qc → Qc → Qc → Z → result (tensor Qc))
    (self : MinMaxNormalize.t) (image : tensor Qc) :
  let normalize img :=
    cv2_normalize img (MinMaxNormalize.min_val self)
      (MinMaxNormalize.max_val self) (MinMaxNormalize.dtype self) in
  (3 < length (shape image) →
     MinMaxNormalize.apply cv2_normalize self image = Raise AssertionError) ∧
  (∀ h w, shape image = [h; w; 0] →
     MinMaxNormalize.apply cv2_normalize self image = Raise ValueError) ∧
  (∀ e, length (shape image) ≤ 2 → normalize image = Raise e →
     MinMaxNormalize.apply cv2_normalize self image = Raise e) ∧
  (∀ h w c k raws e,
     shape image = [h; w; c] → k < c →
     Forall2 (λ i raw, normalize (Np.channel image i) = Ok raw) (seq 0 k) raws →
     normalize (Np.channel image k) = Raise e →
     MinMaxNormalize.apply cv2_normalize self image = Raise e).
Proof.
  intros normalize. subst normalize. cbv beta.
  unfold MinMaxNormalize.apply. repeat split.
  - intros Hrank. by rewrite decide_False, decide_False by lia.
  - intros h w Hshape. rewrite Hshape. cbn [length].
    rewrite decide_False, decide_True by lia. unfold Np.channels.
    by rewrite Hshape.
  - intros e Hrank He. rewrite decide_True by done.
    unfold MinMaxNormalize._apply_on_channel. by rewrite He.
  - intros h w c k raws e Hshape Hk Hraws He. rewrite Hshape. cbn [length].
    rewrite decide_False, decide_True by lia. unfold Np.channels.
    rewrite Hshape. cbn [lookup_total list_lookup_total].
    replace c with (k + S (c - S k)) by lia.
    rewrite seq_app, fmap_app. cbn [seq fmap list_fmap].
    erewrite (mapM_raise _ _ _ _
                ((λ raw, Np.clip raw (MinMaxNormalize.min_val self)
                           (MinMaxNormalize.max_val self)) <$> raws)); [done| |].
    + apply Forall2_fmap. eapply Forall2_impl; [exact Hraws|].
      intros i raw Hi. unfold MinMaxNormalize._apply_on_channel.
      by rewrite Hi.
    + unfold MinMaxNormalize._apply_on_channel. cbn [Nat.add]. by rewrite He.
Qed.

Lemma MinMaxNormalize_apply_errors_witness :
  MinMaxNormalize.apply example_normalize MinMaxNormalize.default example_batch
    = Raise AssertionError ∧
  MinMaxNormalize.apply example_normalize MinMaxNormalize.default
    example_no_channel = Raise ValueError.
Proof.
  split.
  - apply (proj1 (MinMaxNormalize_apply_errors example_normalize
                    MinMaxNormalize.default example_batch)).
    cbn. lia.
  - exact (proj1 (proj2 (MinMaxNormalize_apply_errors example_normalize
                           MinMaxNormalize.default example_no_channel))
             2 2 eq_refl).
Defined.

(** X23.  With a [cv2.normalize] that is exact, and [min_val ≤ max_val]:
    a non-empty image of two dimensions whose least and greatest values
    [lo] and [hi] differ (by more than [DBL_EPSILON]) is mapped by
    [x ↦ min_val + (x - lo) * (max_val - min_val) / (hi - lo)]: the
    least value goes to [min_val], the greatest to [max_val], and the
    order of the values is kept.  A constant image becomes [min_val]
    everywhere.  The shape is kept. *)
Theorem MinMaxNormalize_apply_plane
    (cv2_normalize : tensor Qc → Qc → Qc → Z → result (tensor Qc))
    (self : MinMaxNormalize.t) (image : tensor Qc) (h w : nat) (lo hi : Qc) :
  norm_minmax cv2_normalize →
  shape image = [h; w] → plane_range image h w lo hi →
  (MinMaxNormalize.min_val self ≤ MinMaxNormalize.max_val self)%Qc →
  ∃ out,
    MinMaxNormalize.apply cv2_normalize self image = Ok out ∧
    shape out = [h; w] ∧
    rescaled image out h w lo hi
      (MinMaxNormalize.min_val self) (MinMaxNormalize.max_val self) ∧
    ((DBL_EPSILON < hi - lo)%Qc →
       ∀ i j, i < h → j < w →
         (cell image [i; j] = lo →
            cell out [i; j] = MinMaxNormalize.min_val self) ∧
         (cell image [i; j] = hi →
            cell out [i; j] = MinMaxNormalize.max_val self) ∧
         (∀ i' j', i' < h → j' < w →
            (cell image [i; j] ≤ cell image [i'; j'])%Qc →
            (cell out [i; j] ≤ cell out [i'; j'])%Qc)).
Proof.
  intros Hnorm Hshape Hrange Hab.
  destruct (apply_on_channel_rescaled cv2_normalize self Hnorm Hab
              image h w lo hi Hshape Hrange) as (out & Eout & Sout & Hout).
  exists out. unfold MinMaxNormalize.apply. rewrite Hshape. cbn [length].
  rewrite decide_True by lia. split; [done|]. split; [done|].
  split; [done|]. intros Heps i j Hi Hj.
  assert (0 < hi - lo)%Qc
    by (eapply Qclt_trans; [apply DBL_EPSILON_pos|done]).
  apply Qc_ltb_lt in Heps. unfold rescaled in Hout.
  rewrite Hout by done. rewrite Heps. repeat split.
  - intros ->. apply rescale_lo.
  - intros ->. by apply rescale_hi.
  - intros i' j' Hi' Hj' Hle. rewrite Hout by done. rewrite Heps.
    by apply rescale_mono.
Qed.

Ltac plane_point i j :=
  exists i, j; split; [lia|split; [lia|reflexivity]].

Lemma MinMaxNormalize_apply_plane_witness :
  ∃ out,
    MinMaxNormalize.apply example_normalize MinMaxNormalize.default
      example_grey = Ok out ∧
    cell out [0; 0] = 0%Qc ∧ cell out [1; 1] = 1%Qc.
Proof.
  destruct (MinMaxNormalize_apply_plane example_normalize
              MinMaxNormalize.default example_grey 2 2 0%Qc (Q2Qc 3)
              example_normalize_minmax eq_refl)
    as (out & Eout & _ & _ & Hends).
  - split; [plane_point 0 0|]. split; [plane_point 1 1|].
    intros [|[|i]] [|[|j]] Hi Hj; try lia; split; discriminate.
  - discriminate.
  - exists out. split; [exact Eout|]. split.
    + apply (Hends eq_refl 0 0); [lia|lia|reflexivity].
    + apply (Hends eq_refl 1 1); [lia|lia|reflexivity].
Defined.

(** X24.  With a [cv2.normalize] that is exact, and [min_val ≤ max_val]:
    an image of [h] rows, [w] columns and [c ≥ 1] channels keeps its
    shape, and each of its channels is rescaled with its own least and
    greatest values, whatever the other channels hold. *)
Theorem MinMaxNormalize_apply_channels
    (cv2_normalize : tensor Qc → Qc → Qc → Z → result (tensor Qc))
    (self : MinMaxNormalize.t) (image : tensor Qc) (h w c : nat)
    (lo hi : nat → Qc) :
  norm_minmax cv2_normalize →
  shape image = [h; w; c] → 0 < c →
  (∀ k, k < c → plane_range (Np.channel image k) h w (lo k) (hi k)) →
  (MinMaxNormalize.min_val self ≤ MinMaxNormalize.max_val self)%Qc →
  ∃ out,
    MinMaxNormalize.apply cv2_normalize self image = Ok out ∧
    shape out = [h; w; c] ∧
    ∀ k, k < c →
      rescaled (Np.channel image k) (Np.channel out k) h w (lo k) (hi k)
        (MinMaxNormalize.min_val self) (MinMaxNormalize.max_val self).
Proof.
  intros Hnorm Hshape Hc Hranges Hab.
  unfold MinMaxNormalize.apply. rewrite Hshape. cbn [length].
  rewrite decide_False, decide_True by lia.
  unfold Np.channels. rewrite Hshape. cbn [lookup_total list_lookup_total].
  rewrite mapM_fmap.
  destruct (mapM_exists
              (λ k, MinMaxNormalize._apply_on_channel cv2_normalize self
                      (Np.channel image k))
              (λ k out, shape out = [h; w] ∧
                 rescaled (Np.channel image k) out h w (lo k) (hi k)
                   (MinMaxNormalize.min_val self)
                   (MinMaxNormalize.max_val self))
              (seq 0 c)) as (outs & Eouts & Houts).
  { intros k Hk%elem_of_seq.
    apply (apply_on_channel_rescaled cv2_normalize self Hnorm Hab);
      [|apply Hranges; lia].
    unfold Np.channel. cbn [shape]. by rewrite Hshape. }
  rewrite Eouts. cbn [mbind result_bind].
  pose proof (Forall2_length _ _ _ Houts) as Hlen. rewrite length_seq in Hlen.
  assert (Forall (λ o, shape o = [h; w]) outs) as Hshapes.
  { apply Forall_forall. intros o (k & Hk)%list_elem_of_lookup_1.
    by destruct (Forall2_lookup_r _ _ _ _ _ Houts Hk) as (? & _ & ? & _). }
  destruct outs as [|o outs]; [cbn in Hlen; lia|].
  pose proof (Forall_inv Hshapes) as Ho. unfold Np.stack2.
  rewrite decide_True by (by rewrite Ho).
  rewrite decide_True by (rewrite Ho; cbn; lia).
  eexists. split; [done|]. rewrite Ho. cbn [take drop app shape]. split.
  { by rewrite <- Hlen. }
  intros k Hk i j Hi Hj. cbn [Np.channel cell hd tl].
  cbn [lookup_total list_lookup_total take drop app].
  destruct (Forall2_lookup_l _ _ _ k k Houts) as (b & Hb & _ & Hres).
  { apply lookup_seq. lia. }
  rewrite Hb. by apply Hres.
Qed.

Lemma MinMaxNormalize_apply_channels_witness :
  ∃ out,
    MinMaxNormalize.apply example_normalize MinMaxNormalize.default
      example_colour = Ok out ∧
    shape out = [1; 2; 3] ∧
    cell out [0; 1; 0] = 1%Qc ∧ cell out [0; 1; 1] = 0%Qc ∧
    cell out [0; 1; 2] = 0%Qc.
Proof.
  destruct (MinMaxNormalize_apply_channels example_normalize
              MinMaxNormalize.default example_colour 1 2 3
              (λ k, Q2Qc (inject_Z match k with 0 => 0 | 1 => 4 | _ => 3 end))
              (λ k, Q2Qc (inject_Z match k with 0 => 10 | 1 => 4 | _ => 7 end))
              example_normalize_minmax eq_refl)
    as (out & Eout & Sout & Hres); [lia| |discriminate|].
  - intros [|[|[|k]]] Hk; try lia.
    + split; [plane_point 0 0|]. split; [plane_point 0 1|].
      intros [|i] [|[|j]] Hi Hj; try lia; split; discriminate.
    + split; [plane_point 0 0|]. split; [plane_point 0 0|].
      intros [|i] [|[|j]] Hi Hj; try lia; split; discriminate.
    + split; [plane_point 0 1|]. split; [plane_point 0 0|].
      intros [|i] [|[|j]] Hi Hj; try lia; split; discriminate.
  - exists out. split; [exact Eout|]. split; [exact Sout|].
    pose proof (Hres 0 ltac:(lia) 0 1 ltac:(lia) ltac:(lia)) as H0.
    pose proof (Hres 1 ltac:(lia) 0 1 ltac:(lia) ltac:(lia)) as H1.
    pose proof (Hres 2 ltac:(lia) 0 1 ltac:(lia) ltac:(lia)) as H2.
    cbn [Np.channel cell hd tl] in H0, H1, H2.
    rewrite H0, H1, H2. repeat split; by apply Qc_is_canon.
Defined.
